(** * Minimum bounding rectangle kernel (mbr.ts): shallow embedding

    The TypeScript class [MinimumBoundingRectangle] computes, for a flat array
    of 3-D coordinates, the minimum-area rectangle of the XZ projection
    (Graham scan + one candidate rectangle per hull edge direction) extruded
    to the vertical extent of the points.

    Numbers.  A JavaScript [number] is modelled as a real (Stdlib [R]): the
    development is about the arithmetic the kernel writes down, not about
    binary64 rounding.  The two non-finite values the source itself
    introduces, [Infinity] and [-Infinity] as seeds of running minima and
    maxima, are kept (type [number]).  [NaN] does not exist in the model, so
    an array read past its end ([undefined]) is outside of it: the loops
    over the flat coordinate array consume complete triples, and the
    statements about the success path are meant for arrays whose length is
    a multiple of three, as every caller builds them ([flat]).

    Library code.  [Vector2], [Vector3], [Matrix4] and [Box3] are classes of
    three.js and [Math], [Map] and [Array.prototype.sort] are built-ins; the
    modules below transcribe the members the kernel calls.

    Callers.  The two scene classes that drive the kernel are transcribed
    after it (modules [Scene3D] and [Scene]), as far as they compute. *)

From Stdlib Require Import Reals Lra Lia List ZArith Bool Permutation Sorted.
Import ListNotations.
Local Open Scope R_scope.

(** ** Built-ins *)

(** Accumulators seeded with [Infinity] or [-Infinity]. *)
Inductive number : Type :=
| NegInfinity
| Num (r : R)
| Infinity.

(** The finite value of an accumulator.  Every use below reads an
    accumulator that has absorbed at least one sample (see
    [fold_min_finite] and [fold_max_finite]); the value given to the two
    infinities is never observed there. *)
Definition toR (n : number) : R :=
  match n with
  | Num r => r
  | _ => 0
  end.

Module Math.

(** [Math.min(acc, v)] and [Math.max(acc, v)] for a finite sample [v]. *)
Definition min (acc : number) (v : R) : number :=
  match acc with
  | Infinity => Num v
  | Num a => Num (Rmin a v)
  | NegInfinity => NegInfinity
  end.

Definition max (acc : number) (v : R) : number :=
  match acc with
  | NegInfinity => Num v
  | Num a => Num (Rmax a v)
  | Infinity => Infinity
  end.

Definition abs (v : R) : R := Rabs v.

(** [Math.round]: the nearest integer, halves rounded towards
    [+Infinity], that is [floor (v + 1/2)]. *)
Definition round (v : R) : Z := Int_part (v + / 2).

(** [Math.atan2(y, x)], the angle of the vector [(x, y)] in (-PI, PI]. *)
Definition atan2 (y x : R) : R :=
  if Rlt_dec 0 x then atan (y / x)
  else if Rlt_dec x 0 then
    (if Rle_dec 0 y then atan (y / x) + PI else atan (y / x) - PI)
  else if Rlt_dec 0 y then PI / 2
  else if Rlt_dec y 0 then - (PI / 2)
  else 0.

End Math.

(** [area < minArea] where [minArea] starts at [Infinity]. *)
Definition lt_number (v : R) (acc : number) : bool :=
  match acc with
  | Infinity => true
  | Num a => if Rlt_dec v a then true else false
  | NegInfinity => false
  end.

(** ** three.js *)

Module Vector2.

Record t : Type := mk { x : R; y : R }.

(** [new Vector2()] *)
Definition zero : t := mk 0 0.

Definition dot (a v : t) : R := x a * x v + y a * y v.

Definition length (a : t) : R := sqrt (x a * x a + y a * y a).

Definition divideScalar (a : t) (s : R) : t := mk (x a / s) (y a / s).

(** [divideScalar(this.length() || 1)]; three.js divides by multiplying
    with [1 / s], the same real number. *)
Definition normalize (a : t) : t :=
  divideScalar a (if Req_dec_T (length a) 0 then 1 else length a).

Definition distanceTo (a v : t) : R :=
  sqrt ((x a - x v) * (x a - x v) + (y a - y v) * (y a - y v)).

End Vector2.

Module Matrix4.

(** Entries named as in [Matrix4.set(n11, n12, ..., n44)] (row, column). *)
Record t : Type := mk {
  n11 : R; n12 : R; n13 : R; n14 : R;
  n21 : R; n22 : R; n23 : R; n24 : R;
  n31 : R; n32 : R; n33 : R; n34 : R;
  n41 : R; n42 : R; n43 : R; n44 : R
}.

(** [new Matrix4()] *)
Definition identity : t :=
  mk 1 0 0 0
     0 1 0 0
     0 0 1 0
     0 0 0 1.

Definition makeRotationY (theta : R) : t :=
  let c := cos theta in
  let s := sin theta in
  mk c     0 s 0
     0     1 0 0
     (- s) 0 c 0
     0     0 0 1.

End Matrix4.

Module Vector3.

Record t : Type := mk { x : R; y : R; z : R }.

(** [new Vector3()] *)
Definition zero : t := mk 0 0 0.

Definition add (a v : t) : t := mk (x a + x v) (y a + y v) (z a + z v).

(** Homogeneous transform with perspective divide. *)
Definition applyMatrix4 (a : t) (m : Matrix4.t) : t :=
  let w := 1 / (Matrix4.n41 m * x a + Matrix4.n42 m * y a
                + Matrix4.n43 m * z a + Matrix4.n44 m) in
  mk ((Matrix4.n11 m * x a + Matrix4.n12 m * y a
       + Matrix4.n13 m * z a + Matrix4.n14 m) * w)
     ((Matrix4.n21 m * x a + Matrix4.n22 m * y a
       + Matrix4.n23 m * z a + Matrix4.n24 m) * w)
     ((Matrix4.n31 m * x a + Matrix4.n32 m * y a
       + Matrix4.n33 m * z a + Matrix4.n34 m) * w).

Definition min (a v : t) : t :=
  mk (Rmin (x a) (x v)) (Rmin (y a) (y v)) (Rmin (z a) (z v)).

Definition max (a v : t) : t :=
  mk (Rmax (x a) (x v)) (Rmax (y a) (y v)) (Rmax (z a) (z v)).

End Vector3.

Module Box3.

(** [empty] is the box after [makeEmpty()]: min = +Infinity and
    max = -Infinity on every axis. *)
Inductive t : Type :=
| empty
| box (min max : Vector3.t).

Definition expandByPoint (b : t) (p : Vector3.t) : t :=
  match b with
  | empty => box p p
  | box mn mx => box (Vector3.min mn p) (Vector3.max mx p)
  end.

(** [makeEmpty()] followed by [expandByPoint] on every point. *)
Definition setFromPoints (points : list Vector3.t) : t :=
  fold_left expandByPoint points empty.

End Box3.

(** ** [Array.prototype.sort]

    A stable sort driven by the sign of the comparator, written as an
    insertion sort.  For a consistent comparator every conforming engine
    returns this order. *)

Section ArraySort.

Context {A : Type}.
Variable compareFn : A -> A -> R.

Fixpoint insert (a : A) (l : list A) : list A :=
  match l with
  | [] => [a]
  | b :: l' =>
      if Rle_dec (compareFn a b) 0 then a :: l else b :: insert a l'
  end.

Definition Array_sort (l : list A) : list A := fold_right insert [] l.

(** [filter((_, i) => keep i)], indices counted from [i]. *)
Fixpoint filter_index (keep : nat -> bool) (i : nat) (l : list A) : list A :=
  match l with
  | [] => []
  | a :: l' =>
      if keep i then a :: filter_index keep (S i) l'
      else filter_index keep (S i) l'
  end.

End ArraySort.

(** ** The kernel *)

Record MinimumBoundingRectangle : Type := mkMBR {
  center : Vector3.t;
  halfSizes : Vector3.t;
  rotation : Matrix4.t
}.

(** The constructor. *)
Definition new_MinimumBoundingRectangle : MinimumBoundingRectangle :=
  mkMBR Vector3.zero Vector3.zero Matrix4.identity.

(** The object literal [{ center, width, height, angle }]. *)
Record Rect : Type := mkRect {
  rcenter : Vector2.t;
  width : R;
  height : R;
  angle : R
}.

Definition zeroRect : Rect := mkRect Vector2.zero 0 0 0.

Definition crossProduct (p1 p2 p3 : Vector2.t) : R :=
  (Vector2.x p2 - Vector2.x p1) * (Vector2.y p3 - Vector2.y p1)
  - (Vector2.y p2 - Vector2.y p1) * (Vector2.x p3 - Vector2.x p1).

(** *** grahamScan *)

(** The test of the pivot loop: [p] is strictly below [b], or level with it
    and strictly to its left. *)
Definition isLower (p b : Vector2.t) : bool :=
  if Rlt_dec (Vector2.y p) (Vector2.y b) then true
  else if Req_dec_T (Vector2.y p) (Vector2.y b) then
    (if Rlt_dec (Vector2.x p) (Vector2.x b) then true else false)
  else false.

(** The pivot loop from index [i] on. *)
Fixpoint findBottom (l : list Vector2.t) (i : nat)
    (bottomPoint : Vector2.t) (bottomIndex : nat) : Vector2.t * nat :=
  match l with
  | [] => (bottomPoint, bottomIndex)
  | p :: l' =>
      if isLower p bottomPoint then findBottom l' (S i) p i
      else findBottom l' (S i) bottomPoint bottomIndex
  end.

(** The comparator handed to [sort]. *)
Definition polarCompare (bottomPoint a b : Vector2.t) : R :=
  let angleA := Math.atan2 (Vector2.y a - Vector2.y bottomPoint)
                           (Vector2.x a - Vector2.x bottomPoint) in
  let angleB := Math.atan2 (Vector2.y b - Vector2.y bottomPoint)
                           (Vector2.x b - Vector2.x bottomPoint) in
  if Rlt_dec (Math.abs (angleA - angleB)) (1 / 10 ^ 10) then
    Vector2.distanceTo a bottomPoint - Vector2.distanceTo b bottomPoint
  else angleA - angleB.

(** The inner [while] loop; the stack is kept with its top first. *)
Fixpoint popWhile (stack : list Vector2.t) (p : Vector2.t) : list Vector2.t :=
  match stack with
  | top :: ((second :: _) as rest) =>
      if Rle_dec (crossProduct second top p) 0 then popWhile rest p
      else stack
  | _ => stack
  end.

(** One iteration of the scan: pop, then push. *)
Definition scanStep (stack : list Vector2.t) (p : Vector2.t) : list Vector2.t :=
  p :: popWhile stack p.

(** [sortedPoints] after the [unshift]: the pivot, then the other points
    in the order of the comparator. *)
Definition sortedPoints (points : list Vector2.t) : list Vector2.t :=
  match points with
  | [] => []
  | p0 :: rest =>
      let '(bottomPoint, bottomIndex) := findBottom rest 1 p0 0 in
      bottomPoint ::
        Array_sort (polarCompare bottomPoint)
          (filter_index (fun i => negb (Nat.eqb i bottomIndex)) 0 points)
  end.

(** The stack is seeded with the first two sorted points and returned
    bottom first.  With three or more points [sortedPoints] has at least
    two entries, so the last branch is never taken. *)
Definition grahamScan (points : list Vector2.t) : list Vector2.t :=
  if (length points <? 3)%nat then points
  else
    match sortedPoints points with
    | s0 :: s1 :: rest => rev (fold_left scanStep rest [s1; s0])
    | short => short
    end.

(** *** getExtremeProjections *)

(** The object literal [{ minProj, maxProj }]. *)
Record Projections : Type := mkProj { minProj : number; maxProj : number }.

Definition getExtremeProjections (points : list Vector2.t)
    (direction : Vector2.t) : Projections :=
  fold_left
    (fun acc point =>
       let proj := Vector2.dot point direction in
       mkProj (Math.min (minProj acc) proj) (Math.max (maxProj acc) proj))
    points (mkProj Infinity NegInfinity).

(** *** getUniqueEdgeDirections *)

(** [directions.some(dir => Math.abs(edge.dot(dir) - 1) < 1e-10)], which is
    what the inner loop with [break] computes. *)
Definition isDuplicateDirection (directions : list Vector2.t)
    (edge : Vector2.t) : bool :=
  existsb
    (fun dir =>
       if Rlt_dec (Math.abs (Vector2.dot edge dir - 1)) (1 / 10 ^ 10)
       then true else false)
    directions.

(** The edge leaving vertex [i]. *)
Definition edgeDirection (hull : list Vector2.t) (i : nat) : Vector2.t :=
  let p1 := nth i hull Vector2.zero in
  let p2 := nth (S i mod length hull) hull Vector2.zero in
  Vector2.normalize
    (Vector2.mk (Vector2.x p2 - Vector2.x p1) (Vector2.y p2 - Vector2.y p1)).

(** The body of the outer loop for vertex [i]. *)
Definition directionStep (hull directions : list Vector2.t) (i : nat)
    : list Vector2.t :=
  let edge := edgeDirection hull i in
  if isDuplicateDirection directions edge then directions
  else directions ++ [edge].

Definition getUniqueEdgeDirections (hull : list Vector2.t) : list Vector2.t :=
  fold_left (directionStep hull) (seq 0 (length hull)) [].

(** *** enhancedRotatingCalipers *)

(** The area and the rectangle computed in the loop body for one
    direction. *)
Definition candidate (hull : list Vector2.t) (direction : Vector2.t)
    : R * Rect :=
  let perpendicular :=
    Vector2.mk (- Vector2.y direction) (Vector2.x direction) in
  let pd := getExtremeProjections hull direction in
  let pp := getExtremeProjections hull perpendicular in
  let left := toR (minProj pd) in
  let right := toR (maxProj pd) in
  let bottom := toR (minProj pp) in
  let top := toR (maxProj pp) in
  let width := right - left in
  let height := top - bottom in
  let area := width * height in
  let angle := Math.atan2 (Vector2.y direction) (Vector2.x direction) in
  let center :=
    Vector2.mk
      ((left + right) * Vector2.x direction / 2
       + (bottom + top) * Vector2.x perpendicular / 2)
      ((left + right) * Vector2.y direction / 2
       + (bottom + top) * Vector2.y perpendicular / 2) in
  (area, mkRect center width height angle).

(** The loop state is [(minArea, bestRect)]. *)
Definition calipersStep (hull : list Vector2.t)
    (st : number * option Rect) (direction : Vector2.t)
    : number * option Rect :=
  let '(area, rect) := candidate hull direction in
  if lt_number area (fst st) then (Num area, Some rect) else st.

(** [bestRect || zero rectangle] after the loop over the unique
    directions. *)
Definition enhancedRotatingCalipers (hull : list Vector2.t) : Rect :=
  if (length hull <? 3)%nat then zeroRect
  else
    let edges := getUniqueEdgeDirections hull in
    match snd (fold_left (calipersStep hull) edges (Infinity, None)) with
    | Some r => r
    | None => zeroRect
    end.

(** *** fromPoints *)

(** The complete triples of the flat coordinate array, in order.  One or
    two scalars left over at the end are not a triple: the loops of the
    source read them as a point with [undefined] coordinates, which gives
    [NaN], and such arrays are outside the model. *)
Fixpoint triples (points : list R) : list Vector3.t :=
  match points with
  | px :: py :: pz :: rest => Vector3.mk px py pz :: triples rest
  | _ => []
  end.

(** The flat array of a list of points. *)
Definition flat (ts : list Vector3.t) : list R :=
  flat_map (fun p => [Vector3.x p; Vector3.y p; Vector3.z p]) ts.

Definition epsilon : R := 1 / 10 ^ 6.

(** The centroid of the XZ projections: sums over all triples divided by
    [points.length / 3]. *)
Definition centroid (points : list R) : R * R :=
  let ts := triples points in
  let sumX := fold_left (fun acc p => acc + Vector3.x p) ts 0 in
  let sumZ := fold_left (fun acc p => acc + Vector3.z p) ts 0 in
  (sumX / (INR (length points) / 3), sumZ / (INR (length points) / 3)).

(** The key [`${Math.round(rx/epsilon)},${Math.round(rz/epsilon)}`]: the two
    integers determine the string and conversely. *)
Definition key (rx rz : R) : Z * Z :=
  (Math.round (rx / epsilon), Math.round (rz / epsilon)).

Definition key_eqb (a b : Z * Z) : bool :=
  (fst a =? fst b)%Z && (snd a =? snd b)%Z.

(** State of the deduplication loop: the keys of [uniquePoints] (a [Map]
    used only through [has] and [set]), [points2D] in push order, and the
    running [minY] and [maxY].  The loop also adds each stored point to
    [tempVec], which nothing reads. *)
Record Dedup : Type := mkDedup {
  uniqueKeys : list (Z * Z);
  points2D : list Vector2.t;
  minY : number;
  maxY : number
}.

(** The loop body: everything, the update of [minY] and [maxY] included,
    happens under [if (!uniquePoints.has(key))]. *)
Definition dedupStep (centroidX centroidZ : R) (st : Dedup) (p : Vector3.t)
    : Dedup :=
  let rx := Vector3.x p - centroidX in
  let y := Vector3.y p in
  let rz := Vector3.z p - centroidZ in
  let k := key rx rz in
  if existsb (key_eqb k) (uniqueKeys st) then st
  else
    mkDedup (k :: uniqueKeys st)
            (points2D st ++ [Vector2.mk rx rz])
            (Math.min (minY st) y)
            (Math.max (maxY st) y).

Definition dedup (points : list R) : Dedup :=
  let '(centroidX, centroidZ) := centroid points in
  fold_left (dedupStep centroidX centroidZ) (triples points)
    (mkDedup [] [] Infinity NegInfinity).

(** The method returns the receiver: unchanged on the two early exits,
    with its three fields overwritten otherwise. *)
Definition fromPoints (this : MinimumBoundingRectangle) (points : list R)
    : MinimumBoundingRectangle :=
  if (length points <? 9)%nat then this
  else
    let '(centroidX, centroidZ) := centroid points in
    let d := dedup points in
    if (length (points2D d) <? 3)%nat then this
    else
      let hull := grahamScan (points2D d) in
      let result := enhancedRotatingCalipers hull in
      let cx := Vector2.x (rcenter result) + centroidX in
      let cy := Vector2.y (rcenter result) + centroidZ in
      let lo := toR (minY d) in
      let hi := toR (maxY d) in
      mkMBR
        (Vector3.mk cx ((lo + hi) * (1 / 2)) cy)
        (Vector3.mk (width result * (1 / 2)) ((hi - lo) * (1 / 2))
                    (height result * (1 / 2)))
        (Matrix4.makeRotationY (- angle result)).

(** *** toBox3 *)

Definition localCorners (h : Vector3.t) : list Vector3.t :=
  let hx := Vector3.x h in
  let hy := Vector3.y h in
  let hz := Vector3.z h in
  [ Vector3.mk (- hx) (- hy) (- hz);
    Vector3.mk hx (- hy) (- hz);
    Vector3.mk hx hy (- hz);
    Vector3.mk (- hx) hy (- hz);
    Vector3.mk (- hx) (- hy) hz;
    Vector3.mk hx (- hy) hz;
    Vector3.mk hx hy hz;
    Vector3.mk (- hx) hy hz ].

(** The vertices after the [forEach]. *)
Definition worldCorners (this : MinimumBoundingRectangle) : list Vector3.t :=
  map (fun vertex =>
         Vector3.add (Vector3.applyMatrix4 vertex (rotation this))
                     (center this))
      (localCorners (halfSizes this)).

Definition toBox3 (this : MinimumBoundingRectangle) : Box3.t :=
  Box3.setFromPoints (worldCorners this).

(** ** The scene with the calipers inspector (class Scene3D)

    The scene keeps the flat coordinate array [points], an axis-aligned
    box [aabb] next to the oriented one, and the list [calipersSteps] with
    the index [currentStepIndex] of the step on display.  The definitions
    below transcribe what its methods compute from these; meshes,
    materials, the camera, timers and the GUI are left out. *)

Module THREE.

(** [Vector2.add] *)
Definition add (a v : Vector2.t) : Vector2.t :=
  Vector2.mk (Vector2.x a + Vector2.x v) (Vector2.y a + Vector2.y v).

(** [Matrix4.setPosition(v)]: the translation column is overwritten. *)
Definition setPosition (m : Matrix4.t) (v : Vector3.t) : Matrix4.t :=
  Matrix4.mk
    (Matrix4.n11 m) (Matrix4.n12 m) (Matrix4.n13 m) (Vector3.x v)
    (Matrix4.n21 m) (Matrix4.n22 m) (Matrix4.n23 m) (Vector3.y v)
    (Matrix4.n31 m) (Matrix4.n32 m) (Matrix4.n33 m) (Vector3.z v)
    (Matrix4.n41 m) (Matrix4.n42 m) (Matrix4.n43 m) (Matrix4.n44 m).

End THREE.

Module Scene3D.

(** [Array.from({ length: points.length / 3 }, (_, i) =>
    new Vector2(points[i * 3], points[i * 3 + 2]))]: one entry per complete
    triple. *)
Definition points2D (points : list R) : list Vector2.t :=
  map (fun p => Vector2.mk (Vector3.x p) (Vector3.z p)) (triples points).

(** *** addRandomPoint *)

(** [random k] is the result of the [k]-th call of [Math.random()] in this
    invocation.  The first call of the method fills the empty array with
    fifteen points along an axis inclined by 30 degrees; a later call
    appends one point. *)
Definition addRandomPoint (points : list R) (random : nat -> R) : list R :=
  if (length points =? 0)%nat then
    let angle := PI / 6 in
    let mainAxisLength := 8 in
    let spread := 2 in
    let height := 3 in
    let numPoints := 15%nat in
    points ++
    flat_map
      (fun i =>
         let t := INR i / (INR numPoints - 1) * 2 - 1 in
         let baseX := t * mainAxisLength * cos angle in
         let baseZ := t * mainAxisLength * sin angle in
         let offset := (random (2 * i)%nat - 1 / 2) * spread in
         let offsetX := offset * cos (angle + PI / 2) in
         let offsetZ := offset * sin (angle + PI / 2) in
         let y := (random (2 * i + 1)%nat - 1 / 2) * height in
         [baseX + offsetX; y; baseZ + offsetZ])
      (seq 0 numPoints)
  else
    let angle := PI / 6 in
    let mainAxisLength := 8 in
    let spread := 3 in
    let t := random 0%nat * 2 - 1 in
    let baseX := t * mainAxisLength * cos angle in
    let baseZ := t * mainAxisLength * sin angle in
    let offset := (random 1%nat - 1 / 2) * spread in
    let offsetX := offset * cos (angle + PI / 2) in
    let offsetZ := offset * sin (angle + PI / 2) in
    let y := (random 2%nat - 1 / 2) * 3 in
    let x := baseX + offsetX in
    let z := baseZ + offsetZ in
    points ++ [x; y; z].

(** *** removeRandomPoint *)

(** The guard and [points.splice(-3, 3)]. *)
Definition removeRandomPoint (points : list R) : list R :=
  if (length points <? 3)%nat then points
  else firstn (length points - 3) points.

(** *** updateMBR *)

(** The vertex array and the index array of the wireframe.  The eight
    local corners are those of [toBox3], in the same order. *)
Definition updateMBR (points : list R) : list R * list nat :=
  let mbr := fromPoints new_MinimumBoundingRectangle points in
  let corners := localCorners (halfSizes mbr) in
  let transform := THREE.setPosition (rotation mbr) (center mbr) in
  let edgeIndices :=
    [0; 1; 1; 2; 2; 3; 3; 0;
     4; 5; 5; 6; 6; 7; 7; 4;
     0; 4; 1; 5; 2; 6; 3; 7]%nat in
  (flat (map (fun v => Vector3.applyMatrix4 v transform) corners), edgeIndices).

(** *** updateHull *)



(** *** updateBoundingBoxes *)

(** The receiver of [fromPoints] is the scene's own instance [mbr]; the
    axis-aligned box is emptied and grown over every triple.  (The loop of
    the source also feeds one or two scalars left over at the end to
    [expandByPoint], as a point with [undefined] coordinates; the model is
    for arrays of whole triples.) *)
Definition updateBoundingBoxes (mbr : MinimumBoundingRectangle)
    (points : list R) : MinimumBoundingRectangle * Box3.t :=
  (fromPoints mbr points,
   fold_left Box3.expandByPoint (triples points) Box3.empty).

(** *** startCalipersVisualization *)

Record Step : Type := mkStep {
  edge : Vector2.t * Vector2.t;
  rect : Rect;
  area : R;
  isMinimum : bool
}.

(** The four running extremes of the inner loop. *)
Record Support : Type := mkSupport {
  minProj1 : number;
  maxProj1 : number;
  minProj2 : number;
  maxProj2 : number
}.

Definition supportStep (edge perpendicular : Vector2.t) (acc : Support)
    (p : Vector2.t) : Support :=
  let proj1 := Vector2.dot p edge in
  let proj2 := Vector2.dot p perpendicular in
  mkSupport (Math.min (minProj1 acc) proj1) (Math.max (maxProj1 acc) proj1)
            (Math.min (minProj2 acc) proj2) (Math.max (maxProj2 acc) proj2).

(** The step pushed for the edge leaving vertex [i]; [isMinimum] is
    assigned after the loop. *)
Definition stepAt (hull : list Vector2.t) (i : nat) (flag : bool) : Step :=
  let p1 := nth i hull Vector2.zero in
  let p2 := nth (S i mod length hull) hull Vector2.zero in
  let edge :=
    Vector2.normalize
      (Vector2.mk (Vector2.x p2 - Vector2.x p1) (Vector2.y p2 - Vector2.y p1)) in
  let perpendicular := Vector2.mk (- Vector2.y edge) (Vector2.x edge) in
  let s := fold_left (supportStep edge perpendicular) hull
             (mkSupport Infinity NegInfinity Infinity NegInfinity) in
  let width := toR (maxProj1 s) - toR (minProj1 s) in
  let height := toR (maxProj2 s) - toR (minProj2 s) in
  let area := width * height in
  mkStep (p1, p2)
    (mkRect
       (Vector2.mk
          ((toR (minProj1 s) + toR (maxProj1 s)) / 2 * Vector2.x edge
           + (toR (minProj2 s) + toR (maxProj2 s)) / 2 * Vector2.x perpendicular)
          ((toR (minProj1 s) + toR (maxProj1 s)) / 2 * Vector2.y edge
           + (toR (minProj2 s) + toR (maxProj2 s)) / 2 * Vector2.y perpendicular))
       width height (Math.atan2 (Vector2.y edge) (Vector2.x edge)))
    area flag.

(** [step.area === minArea], where [minArea] is [Infinity] when there is
    no step. *)
Definition strictEq (v : R) (n : number) : bool :=
  match n with
  | Num m => if Req_dec_T v m then true else false
  | _ => false
  end.

(** The new [calipersSteps] and [currentStepIndex]. *)
Definition startCalipersVisualization (points : list R) : list Step * Z :=
  let hull := grahamScan (points2D points) in
  let pushed := map (fun i => stepAt hull i false) (seq 0 (length hull)) in
  let minArea := fold_left Math.min (map area pushed) Infinity in
  (map (fun step =>
          mkStep (edge step) (rect step) (area step)
                 (strictEq (area step) minArea))
       pushed,
   0%Z).

(** *** showRectangle *)

(** The four vertices and the index array of the outline. *)
Definition showRectangle (rect : Rect) : list Vector3.t * list nat :=
  let cos := cos (angle rect) in
  let sin := sin (angle rect) in
  let hw := width rect / 2 in
  let hh := height rect / 2 in
  ([ Vector3.mk (Vector2.x (rcenter rect) - hw * cos - hh * sin) 0
                (Vector2.y (rcenter rect) - hw * sin + hh * cos);
     Vector3.mk (Vector2.x (rcenter rect) + hw * cos - hh * sin) 0
                (Vector2.y (rcenter rect) + hw * sin + hh * cos);
     Vector3.mk (Vector2.x (rcenter rect) + hw * cos + hh * sin) 0
                (Vector2.y (rcenter rect) + hw * sin - hh * cos);
     Vector3.mk (Vector2.x (rcenter rect) - hw * cos + hh * sin) 0
                (Vector2.y (rcenter rect) - hw * sin - hh * cos) ],
   [0; 1; 1; 2; 2; 3; 3; 0]%nat).

(** *** Stepping through the candidates *)

(** What [updateDebugLines] puts on display: nothing, the step at
    [currentStepIndex], or the [TypeError] of destructuring the
    [undefined] that an index past the end reads. *)
Inductive Display : Type :=
| hidden
| shown (step : Step)
| typeError.

Definition updateDebugLines (calipersSteps : list Step)
    (currentStepIndex : Z) : Display :=
  if (currentStepIndex <? 0)%Z || (length calipersSteps =? 0)%nat then hidden
  else
    match nth_error calipersSteps (Z.to_nat currentStepIndex) with
    | Some step => shown step
    | None => typeError
    end.

(** The two end points of the line [updateDebugLines] draws over the edge
    of a step: the edge, extended by 10 at both ends. *)
Definition currentEdgeLine (step : Step) : list Vector3.t :=
  let edge0 := fst (edge step) in
  let edge1 := snd (edge step) in
  let edgeDir :=
    Vector2.normalize
      (Vector2.mk (Vector2.x edge1 - Vector2.x edge0)
                  (Vector2.y edge1 - Vector2.y edge0)) in
  let extendLength := 10 in
  let startPoint :=
    Vector2.mk (Vector2.x edge0 - Vector2.x edgeDir * extendLength)
               (Vector2.y edge0 - Vector2.y edgeDir * extendLength) in
  let endPoint :=
    Vector2.mk (Vector2.x edge1 + Vector2.x edgeDir * extendLength)
               (Vector2.y edge1 + Vector2.y edgeDir * extendLength) in
  [ Vector3.mk (Vector2.x startPoint) 0 (Vector2.y startPoint);
    Vector3.mk (Vector2.x endPoint) 0 (Vector2.y endPoint) ].

Definition nextCalipersStep (calipersSteps : list Step)
    (currentStepIndex : Z) : Z :=
  if (currentStepIndex <? Z.of_nat (length calipersSteps) - 1)%Z
  then (currentStepIndex + 1)%Z else currentStepIndex.

Definition prevCalipersStep (currentStepIndex : Z) : Z :=
  if (0 <? currentStepIndex)%Z then (currentStepIndex - 1)%Z
  else currentStepIndex.

End Scene3D.

(** ** The first scene (src/lib/scene.ts, also a class Scene3D) *)

Module Scene.

(** [addRandomPoint]: [r1], [r2] and [r3] are the results of the three
    calls of [Math.random()]. *)
Definition addRandomPoint (points : list R) (r1 r2 r3 : R) : list R :=
  points ++ [r1 * 10 - 5; r2 * 10 - 5; r3 * 10 - 5].

(** [removeRandomPoint] is the method of the later scene, word for word. *)
Definition removeRandomPoint (points : list R) : list R :=
  Scene3D.removeRandomPoint points.

(** The arrays the scene can hold: empty at construction, then changed by
    the two methods only; [Math.random()] returns a number in [0, 1). *)
Inductive reachablePoints : list R -> Prop :=
| reachable_empty : reachablePoints []
| reachable_add points r1 r2 r3 :
    reachablePoints points ->
    0 <= r1 < 1 -> 0 <= r2 < 1 -> 0 <= r3 < 1 ->
    reachablePoints (addRandomPoint points r1 r2 r3)
| reachable_remove points :
    reachablePoints points -> reachablePoints (removeRandomPoint points).

End Scene.

(** ** Specification vocabulary *)

(** The key the deduplication loop computes for a triple. *)
Definition keyOf (centroidX centroidZ : R) (p : Vector3.t) : Z * Z :=
  key (Vector3.x p - centroidX) (Vector3.z p - centroidZ).

(** The centred XZ projection pushed for a triple. *)
Definition project (centroidX centroidZ : R) (p : Vector3.t) : Vector2.t :=
  Vector2.mk (Vector3.x p - centroidX) (Vector3.z p - centroidZ).

(** The triples for which the loop takes the branch that stores the point:
    those whose key is not among [seen] and was not met earlier. *)
Fixpoint keptTriples (centroidX centroidZ : R) (seen : list (Z * Z))
    (ts : list Vector3.t) : list Vector3.t :=
  match ts with
  | [] => []
  | p :: ts' =>
      let k := keyOf centroidX centroidZ p in
      if existsb (key_eqb k) seen then keptTriples centroidX centroidZ seen ts'
      else p :: keptTriples centroidX centroidZ (k :: seen) ts'
  end.

(** Instances a caller can hold: constructed, then updated by [fromPoints]
    only. *)
Inductive reachable : MinimumBoundingRectangle -> Prop :=
| reachable_new : reachable new_MinimumBoundingRectangle
| reachable_fromPoints this points :
    reachable this -> reachable (fromPoints this points).

(** A corner of the oriented box in the words of the specification: a
    local offset of plus or minus the half-size on each axis, rotated, then
    translated by the centre. *)
Definition signed (positive : bool) (h : R) : R := if positive then h else - h.

Definition orientedCorner (this : MinimumBoundingRectangle)
    (sx sy sz : bool) : Vector3.t :=
  Vector3.add
    (Vector3.applyMatrix4
       (Vector3.mk (signed sx (Vector3.x (halfSizes this)))
                   (signed sy (Vector3.y (halfSizes this)))
                   (signed sz (Vector3.z (halfSizes this))))
       (rotation this))
    (center this).

(** *** Vocabulary of the hull *)

Definition polarAngle (bottomPoint q : Vector2.t) : R :=
  Math.atan2 (Vector2.y q - Vector2.y bottomPoint)
             (Vector2.x q - Vector2.x bottomPoint).

Definition above (bottomPoint q : Vector2.t) : Prop :=
  Vector2.y bottomPoint < Vector2.y q
  \/ (Vector2.y q = Vector2.y bottomPoint /\ Vector2.x bottomPoint < Vector2.x q).

(** The order the comparator induces when no two angles are closer than the
    tolerance without being equal: by angle, then by distance. *)
Definition polarLe (bottomPoint a b : Vector2.t) : Prop :=
  polarAngle bottomPoint a < polarAngle bottomPoint b
  \/ (polarAngle bottomPoint a = polarAngle bottomPoint b
      /\ Vector2.distanceTo a bottomPoint <= Vector2.distanceTo b bottomPoint).

(** No two polar angles are closer than the tolerance of the comparator
    without being equal. *)
Definition angleSeparated (bottomPoint : Vector2.t) (pts : list Vector2.t) : Prop :=
  forall a b, In a pts -> In b pts ->
    polarAngle bottomPoint a = polarAngle bottomPoint b
    \/ 1 / 10 ^ 10 <= Rabs (polarAngle bottomPoint a - polarAngle bottomPoint b).

(** [p] is not above [q] in the order of the pivot loop. *)
Definition lowerEq (p q : Vector2.t) : Prop :=
  Vector2.y p < Vector2.y q
  \/ (Vector2.y p = Vector2.y q /\ Vector2.x p <= Vector2.x q).

(** The pivot chosen by the first loop of [grahamScan]. *)
Definition pivot (points : list Vector2.t) : Vector2.t :=
  match points with
  | [] => Vector2.zero
  | p0 :: rest => fst (findBottom rest 1 p0 0)
  end.

(** [q] does not stick out of [hull] in any direction: along every [d] some
    vertex of [hull] projects at least as far as [q]. *)
Definition dominated (hull : list Vector2.t) (q : Vector2.t) : Prop :=
  forall d : Vector2.t,
    exists s, In s hull /\ Vector2.dot q d <= Vector2.dot s d.

(** Every three consecutive entries of the stack (top first) make a strict
    left turn, read from the bottom. *)
Fixpoint stackConvex (stack : list Vector2.t) : Prop :=
  match stack with
  | c :: rest =>
      match rest with
      | b :: a :: _ => 0 < crossProduct a b c /\ stackConvex rest
      | _ => True
      end
  | [] => True
  end.

(** Order of the stack, top first: strictly decreasing polar angle. *)
Definition steeper (bottomPoint a b : Vector2.t) : Prop :=
  polarAngle bottomPoint b < polarAngle bottomPoint a.

(** Every cyclically consecutive triple of vertices turns strictly left. *)
Definition strictlyConvexCCW (hull : list Vector2.t) : Prop :=
  forall i, (i < length hull)%nat ->
    0 < crossProduct (nth i hull Vector2.zero)
                     (nth (S i mod length hull) hull Vector2.zero)
                     (nth (S (S i) mod length hull) hull Vector2.zero).

(** Separation of the polar angles of the points other than the pivot. *)
Definition separatedAroundPivot (points : list Vector2.t) : Prop :=
  forall a b, In a points -> In b points ->
    a <> pivot points -> b <> pivot points ->
    polarAngle (pivot points) a = polarAngle (pivot points) b
    \/ 1 / 10 ^ 10
       <= Rabs (polarAngle (pivot points) a - polarAngle (pivot points) b).

Definition nonCollinear (points : list Vector2.t) : Prop :=
  exists a b c, In a points /\ In b points /\ In c points
                /\ crossProduct a b c <> 0.

(** *** Vocabulary of the box *)

(** The offset of [w] from the centre of the box, expressed in the rotated
    local frame of the box: the transpose of the rotation applied to the
    offset. *)
Definition toLocal (this : MinimumBoundingRectangle) (w : Vector3.t)
    : Vector3.t :=
  let m := rotation this in
  let dx := Vector3.x w - Vector3.x (center this) in
  let dy := Vector3.y w - Vector3.y (center this) in
  let dz := Vector3.z w - Vector3.z (center this) in
  Vector3.mk
    (Matrix4.n11 m * dx + Matrix4.n21 m * dy + Matrix4.n31 m * dz)
    (Matrix4.n12 m * dx + Matrix4.n22 m * dy + Matrix4.n32 m * dz)
    (Matrix4.n13 m * dx + Matrix4.n23 m * dy + Matrix4.n33 m * dz).

(** [w] is inside the box or on its boundary. *)
Definition insideBox (this : MinimumBoundingRectangle) (w : Vector3.t) : Prop :=
  Rabs (Vector3.x (toLocal this w)) <= Vector3.x (halfSizes this)
  /\ Rabs (Vector3.y (toLocal this w)) <= Vector3.y (halfSizes this)
  /\ Rabs (Vector3.z (toLocal this w)) <= Vector3.z (halfSizes this).

(** The triple at index [i] is the first one of its key. *)
Definition firstOfKey (points : list R) (i : nat) (p : Vector3.t) : Prop :=
  let cx := fst (centroid points) in
  let cz := snd (centroid points) in
  nth_error (triples points) i = Some p
  /\ forall j q, (j < i)%nat -> nth_error (triples points) j = Some q ->
       keyOf cx cz q <> keyOf cx cz p.

(** *** Vocabulary of the further properties *)

(** The points of [ts] moved by the vector [(a, b, c)]. *)
Definition translate (a b c : R) (ts : list Vector3.t) : list Vector3.t :=
  map (fun p =>
         Vector3.mk (Vector3.x p + a) (Vector3.y p + b) (Vector3.z p + c))
      ts.

(** The offset of [h] from the centre of [r], measured along the side of
    angle [angle r], and across it. *)
Definition along (r : Rect) (h : Vector2.t) : R :=
  (Vector2.x h - Vector2.x (rcenter r)) * cos (angle r)
  + (Vector2.y h - Vector2.y (rcenter r)) * sin (angle r).

Definition across (r : Rect) (h : Vector2.t) : R :=
  (Vector2.x h - Vector2.x (rcenter r)) * - sin (angle r)
  + (Vector2.y h - Vector2.y (rcenter r)) * cos (angle r).

(** Cyclically consecutive vertices are different points. *)
Definition properEdges (hull : list Vector2.t) : Prop :=
  forall i, (i < length hull)%nat ->
    nth i hull Vector2.zero <> nth (S i mod length hull) hull Vector2.zero.

(** [p] is within [b] on every axis ([Box3.containsPoint]). *)
Definition within (b : Box3.t) (p : Vector3.t) : Prop :=
  match b with
  | Box3.empty => False
  | Box3.box mn mx =>
      Vector3.x mn <= Vector3.x p <= Vector3.x mx
      /\ Vector3.y mn <= Vector3.y p <= Vector3.y mx
      /\ Vector3.z mn <= Vector3.z p <= Vector3.z mx
  end.

(** Whether a coefficient is at least 0: the choice of the corner that is
    extreme along an axis. *)
Definition nonnegb (k : R) : bool := if Rle_dec 0 k then true else false.

(** The point of the XZ plane under [v]. *)
Definition plan (v : Vector3.t) : Vector2.t :=
  Vector2.mk (Vector3.x v) (Vector3.z v).

(** The index is [-1] or [0], or addresses a step. *)
Definition stepIndexOk (calipersSteps : list Scene3D.Step)
    (currentStepIndex : Z) : Prop :=
  (-1 <= currentStepIndex)%Z
  /\ ((currentStepIndex <= 0)%Z
      \/ (currentStepIndex < Z.of_nat (length calipersSteps))%Z).

(** The [i]-th point of the first batch of [addRandomPoint]. *)
Definition batchPoint (random : nat -> R) (i : nat) : Vector3.t :=
  let t := INR i / (INR 15 - 1) * 2 - 1 in
  let offset := (random (2 * i)%nat - 1 / 2) * 2 in
  Vector3.mk (t * 8 * cos (PI / 6) + offset * cos (PI / 6 + PI / 2))
             ((random (2 * i + 1)%nat - 1 / 2) * 3)
             (t * 8 * sin (PI / 6) + offset * sin (PI / 6 + PI / 2)).

(** Inputs used in examples. *)
Definition sampleTriangle : list Vector3.t :=
  [Vector3.mk 0 0 0; Vector3.mk 3 1 0; Vector3.mk 0 0 3].


(** Three corners of a square and a fourth point straight above the
    first. *)
Definition stackedPoints : list Vector3.t :=
  [Vector3.mk 0 0 0; Vector3.mk 4 0 0; Vector3.mk 0 0 4; Vector3.mk 0 5 0].

(** Three distinct points that are not on one line, although the middle one
    is only 3e-11 off the line through the other two. *)
Definition nearlyCollinear : list Vector2.t :=
  [Vector2.mk (-1) (- (1 / 10 ^ 11)); Vector2.mk 0 (2 / 10 ^ 11);
   Vector2.mk 1 (- (1 / 10 ^ 11))].

(** The centred projections of [sampleTriangle]. *)
Definition centredTriangle : list Vector2.t :=
  [Vector2.mk (0 - 1) (0 - 1); Vector2.mk (3 - 1) (0 - 1);
   Vector2.mk (0 - 1) (3 - 1)].

(** Three points whose horizontal projections are [nearlyCollinear]; their
    centroid is the origin. *)
Definition nearlyCollinear3 : list Vector3.t :=
  [Vector3.mk (-1) 0 (- (1 / 10 ^ 11)); Vector3.mk 0 0 (2 / 10 ^ 11);
   Vector3.mk 1 0 (- (1 / 10 ^ 11))].

(** A convex quadrilateral whose base is bent by about 7e-6 radians at its
    second vertex: the first two edges have the directions (1, 0) and
    (89999999999, 600000) / 90000000001, which the direction loop merges. *)
Definition bentBase : list Vector2.t :=
  [Vector2.mk 0 0; Vector2.mk 1 0; Vector2.mk 90000000000 600000;
   Vector2.mk 45000400000 33750300000].

(** A hull whose first two vertices coincide. *)
Definition repeatedVertex : list Vector2.t :=
  [Vector2.mk 0 0; Vector2.mk 0 0; Vector2.mk 1 1].

(** Three points over [centredTriangle]. *)
Definition centredTriangle3 : list Vector3.t :=
  [Vector3.mk (0 - 1) 0 (0 - 1); Vector3.mk (3 - 1) 0 (0 - 1);
   Vector3.mk (0 - 1) 0 (3 - 1)].

(** The flat array of two points. *)
Definition twoPoints : list R := [1; 2; 3; 4; 5; 6].

(** An instance whose public field [halfSizes] was set to (-1, -1, -1) by
    its owner. *)
Definition negativeBox : MinimumBoundingRectangle :=
  mkMBR Vector3.zero (Vector3.mk (-1) (-1) (-1)) Matrix4.identity.

(** * Lemmas *)

(** ** Running minima and maxima *)

Lemma fold_Rmin_le (l : list R) (a : R) : fold_left Rmin l a <= a.
Proof.
  revert a; induction l as [|v l IH]; intros a; simpl; [lra|].
  specialize (IH (Rmin a v)). pose proof (Rmin_l a v). lra.
Qed.

Lemma fold_Rmin_lower (l : list R) (a v : R) :
  In v l -> fold_left Rmin l a <= v.
Proof.
  revert a; induction l as [|w l IH]; intros a; simpl; [tauto|].
  intros [->|Hin]; [|now apply IH].
  pose proof (fold_Rmin_le l (Rmin a v)). pose proof (Rmin_r a v). lra.
Qed.

Lemma fold_Rmin_attained (l : list R) (a : R) :
  fold_left Rmin l a = a \/ In (fold_left Rmin l a) l.
Proof.
  revert a; induction l as [|w l IH]; intros a; simpl; [now left|].
  destruct (IH (Rmin a w)) as [E|Hin]; [|now right; right].
  rewrite E. unfold Rmin. destruct (Rle_dec a w); [now left | now right; left].
Qed.

Lemma fold_Rmax_ge (l : list R) (a : R) : a <= fold_left Rmax l a.
Proof.
  revert a; induction l as [|v l IH]; intros a; simpl; [lra|].
  specialize (IH (Rmax a v)). pose proof (Rmax_l a v). lra.
Qed.

Lemma fold_Rmax_upper (l : list R) (a v : R) :
  In v l -> v <= fold_left Rmax l a.
Proof.
  revert a; induction l as [|w l IH]; intros a; simpl; [tauto|].
  intros [->|Hin]; [|now apply IH].
  pose proof (fold_Rmax_ge l (Rmax a v)). pose proof (Rmax_r a v). lra.
Qed.

Lemma fold_Rmax_attained (l : list R) (a : R) :
  fold_left Rmax l a = a \/ In (fold_left Rmax l a) l.
Proof.
  revert a; induction l as [|w l IH]; intros a; simpl; [now left|].
  destruct (IH (Rmax a w)) as [E|Hin]; [|now right; right].
  rewrite E. unfold Rmax. destruct (Rle_dec a w); [now right; left | now left].
Qed.

(** [getExtremeProjections] on a non-empty list, through list folds. *)
Lemma projections_fold (pts : list Vector2.t) (d : Vector2.t) (lo hi : R) :
  fold_left
    (fun acc point =>
       let proj := Vector2.dot point d in
       mkProj (Math.min (minProj acc) proj) (Math.max (maxProj acc) proj))
    pts (mkProj (Num lo) (Num hi))
  = mkProj (Num (fold_left Rmin (map (fun p => Vector2.dot p d) pts) lo))
           (Num (fold_left Rmax (map (fun p => Vector2.dot p d) pts) hi)).
Proof.
  revert lo hi; induction pts as [|p pts IH]; intros lo hi; simpl; [reflexivity|].
  apply IH.
Qed.

Lemma getExtremeProjections_cons (p : Vector2.t) (pts : list Vector2.t) (d : Vector2.t) :
  getExtremeProjections (p :: pts) d
  = mkProj (Num (fold_left Rmin (map (fun q => Vector2.dot q d) pts) (Vector2.dot p d)))
           (Num (fold_left Rmax (map (fun q => Vector2.dot q d) pts) (Vector2.dot p d))).
Proof. unfold getExtremeProjections. simpl. apply projections_fold. Qed.

(** The extreme projections of a non-empty list are finite, bound every
    projection and are attained. *)
Lemma getExtremeProjections_spec (pts : list Vector2.t) (d : Vector2.t) :
  pts <> [] ->
  exists lo hi,
    getExtremeProjections pts d = mkProj (Num lo) (Num hi)
    /\ (forall p, In p pts -> lo <= Vector2.dot p d <= hi)
    /\ (exists p, In p pts /\ Vector2.dot p d = lo)
    /\ (exists p, In p pts /\ Vector2.dot p d = hi).
Proof.
  destruct pts as [|p pts]; [congruence|]. intros _.
  rewrite getExtremeProjections_cons.
  set (f := fun q => Vector2.dot q d).
  exists (fold_left Rmin (map f pts) (f p)), (fold_left Rmax (map f pts) (f p)).
  split; [reflexivity|]. split; [|split].
  - intros q [<-|Hin].
    + split; [apply fold_Rmin_le | apply fold_Rmax_ge].
    + split; [apply fold_Rmin_lower | apply fold_Rmax_upper];
        now apply (in_map f).
  - destruct (fold_Rmin_attained (map f pts) (f p)) as [E|Hin].
    + exists p. split; [now left | now rewrite E].
    + apply in_map_iff in Hin as (q & Eq & Hq). exists q. split; [now right | exact Eq].
  - destruct (fold_Rmax_attained (map f pts) (f p)) as [E|Hin].
    + exists p. split; [now left | now rewrite E].
    + apply in_map_iff in Hin as (q & Eq & Hq). exists q. split; [now right | exact Eq].
Qed.

(** ** Deduplication *)

Lemma round_eq (v : R) (n : Z) :
  IZR n - / 2 <= v < IZR n + / 2 -> Math.round v = n.
Proof.
  intros [H1 H2]. unfold Math.round. symmetry. apply Int_part_spec. lra.
Qed.

Lemma key_near (a b : Z) (rx rz : R) :
  (IZR a - / 2) * epsilon <= rx < (IZR a + / 2) * epsilon ->
  (IZR b - / 2) * epsilon <= rz < (IZR b + / 2) * epsilon ->
  key rx rz = (a, b).
Proof.
  intros Hx Hz. unfold key.
  assert (He : 0 < epsilon)
    by (unfold epsilon; apply Rdiv_lt_0_compat; [lra | apply pow_lt; lra]).
  assert (E : forall c v, (IZR c - / 2) * epsilon <= v < (IZR c + / 2) * epsilon ->
                IZR c - / 2 <= v / epsilon < IZR c + / 2).
  { intros c v [H1 H2]. split.
    - apply Rmult_le_reg_r with epsilon; [assumption|].
      replace (v / epsilon * epsilon) with v by (field; lra). assumption.
    - apply Rmult_lt_reg_r with epsilon; [assumption|].
      replace (v / epsilon * epsilon) with v by (field; lra). assumption. }
  f_equal; apply round_eq; now apply E.
Qed.

Lemma key_eqb_eq (a b : Z * Z) : key_eqb a b = true <-> a = b.
Proof.
  destruct a as [a1 a2], b as [b1 b2]. unfold key_eqb. simpl.
  rewrite andb_true_iff, !Z.eqb_eq. split; [intros [-> ->] | intros [= -> ->]]; auto.
Qed.

Lemma seen_In (k : Z * Z) (seen : list (Z * Z)) :
  existsb (key_eqb k) seen = true <-> In k seen.
Proof.
  rewrite existsb_exists. split.
  - intros (k' & Hin & E). apply key_eqb_eq in E. now subst.
  - intros Hin. exists k. split; [exact Hin | now apply key_eqb_eq].
Qed.

Lemma fold_min_Num (l : list R) (a : R) :
  fold_left Math.min l (Num a) = Num (fold_left Rmin l a).
Proof. revert a; induction l as [|v l IH]; intros a; simpl; auto. Qed.

Lemma fold_max_Num (l : list R) (a : R) :
  fold_left Math.max l (Num a) = Num (fold_left Rmax l a).
Proof. revert a; induction l as [|v l IH]; intros a; simpl; auto. Qed.

(** A minimum seeded with [Infinity] is finite after one sample. *)
Lemma fold_min_finite (v : R) (l : list R) :
  fold_left Math.min (v :: l) Infinity = Num (fold_left Rmin l v).
Proof. simpl. apply fold_min_Num. Qed.

Lemma fold_max_finite (v : R) (l : list R) :
  fold_left Math.max (v :: l) NegInfinity = Num (fold_left Rmax l v).
Proof. simpl. apply fold_max_Num. Qed.

(** The loop, in terms of the triples it keeps. *)
Lemma dedup_fold (cx cz : R) (ts : list Vector3.t) (st : Dedup) :
  let kept := keptTriples cx cz (uniqueKeys st) ts in
  fold_left (dedupStep cx cz) ts st
  = mkDedup (rev (map (keyOf cx cz) kept) ++ uniqueKeys st)
            (points2D st ++ map (project cx cz) kept)
            (fold_left Math.min (map Vector3.y kept) (minY st))
            (fold_left Math.max (map Vector3.y kept) (maxY st)).
Proof.
  revert st; induction ts as [|p ts IH]; intros st; simpl.
  - rewrite app_nil_r. now destruct st.
  - unfold dedupStep at 2. fold (keyOf cx cz p).
    destruct (existsb (key_eqb (keyOf cx cz p)) (uniqueKeys st)) eqn:E.
    + apply IH.
    + rewrite IH. simpl. rewrite <- !app_assoc. reflexivity.
Qed.

Lemma dedup_kept (points : list R) :
  let cx := fst (centroid points) in
  let cz := snd (centroid points) in
  let kept := keptTriples cx cz [] (triples points) in
  dedup points
  = mkDedup (rev (map (keyOf cx cz) kept))
            (map (project cx cz) kept)
            (fold_left Math.min (map Vector3.y kept) Infinity)
            (fold_left Math.max (map Vector3.y kept) NegInfinity).
Proof.
  unfold dedup. destruct (centroid points) as [cx cz]. simpl.
  rewrite dedup_fold. simpl. now rewrite app_nil_r.
Qed.

(** With at least one stored point the vertical extent is finite and
    ordered, and it bounds the stored points. *)
Lemma dedup_extent (points : list R) :
  points2D (dedup points) <> [] ->
  exists lo hi,
    minY (dedup points) = Num lo /\ maxY (dedup points) = Num hi
    /\ lo <= hi
    /\ forall p,
         In p (keptTriples (fst (centroid points)) (snd (centroid points)) []
                 (triples points)) ->
         lo <= Vector3.y p <= hi.
Proof.
  rewrite dedup_kept. simpl.
  destruct (keptTriples _ _ [] (triples points)) as [|p kept]; [simpl; congruence|].
  intros _. cbn [map]. rewrite fold_min_finite, fold_max_finite.
  eexists _, _. split; [reflexivity|]. split; [reflexivity|].
  pose proof (fold_Rmin_le (map Vector3.y kept) (Vector3.y p)).
  pose proof (fold_Rmax_ge (map Vector3.y kept) (Vector3.y p)).
  split; [lra|]. intros q [<-|Hin]; [lra|].
  split; [apply fold_Rmin_lower | apply fold_Rmax_upper];
    now apply (in_map Vector3.y).
Qed.

(** ** fromPoints: the three exits *)

Lemma fromPoints_short (this : MinimumBoundingRectangle) (points : list R) :
  (length points < 9)%nat -> fromPoints this points = this.
Proof.
  intros H. unfold fromPoints.
  destruct (Nat.ltb_spec (length points) 9); [reflexivity | lia].
Qed.

Lemma fromPoints_few_unique (this : MinimumBoundingRectangle) (points : list R) :
  (length (points2D (dedup points)) < 3)%nat -> fromPoints this points = this.
Proof.
  intros H. unfold fromPoints.
  destruct (length points <? 9)%nat; [reflexivity|].
  destruct (centroid points) as [cx cz].
  destruct (Nat.ltb_spec (length (points2D (dedup points))) 3); [reflexivity | lia].
Qed.

Lemma fromPoints_success (this : MinimumBoundingRectangle) (points : list R) :
  (9 <= length points)%nat ->
  (3 <= length (points2D (dedup points)))%nat ->
  let d := dedup points in
  let result := enhancedRotatingCalipers (grahamScan (points2D d)) in
  fromPoints this points
  = mkMBR
      (Vector3.mk (Vector2.x (rcenter result) + fst (centroid points))
                  ((toR (minY d) + toR (maxY d)) * (1 / 2))
                  (Vector2.y (rcenter result) + snd (centroid points)))
      (Vector3.mk (width result * (1 / 2))
                  ((toR (maxY d) - toR (minY d)) * (1 / 2))
                  (height result * (1 / 2)))
      (Matrix4.makeRotationY (- angle result)).
Proof.
  intros H9 H3. unfold fromPoints.
  destruct (Nat.ltb_spec (length points) 9); [lia|].
  destruct (centroid points) as [cx cz].
  destruct (Nat.ltb_spec (length (points2D (dedup points))) 3); [lia|].
  reflexivity.
Qed.

(** The three exits are the only ones. *)
Lemma fromPoints_cases (this : MinimumBoundingRectangle) (points : list R) :
  fromPoints this points = this
  \/ ((9 <= length points)%nat /\ (3 <= length (points2D (dedup points)))%nat).
Proof.
  destruct (Nat.lt_ge_cases (length points) 9) as [H|H];
    [left; now apply fromPoints_short|].
  destruct (Nat.lt_ge_cases (length (points2D (dedup points))) 3) as [H'|H'];
    [left; now apply fromPoints_few_unique|].
  right. split; assumption.
Qed.

(** ** Evaluating the deduplication loop on concrete arrays *)

Lemma dedupStep_fresh (cx cz : R) (st : Dedup) (p : Vector3.t) (a b : Z) :
  (IZR a - / 2) * epsilon <= Vector3.x p - cx < (IZR a + / 2) * epsilon ->
  (IZR b - / 2) * epsilon <= Vector3.z p - cz < (IZR b + / 2) * epsilon ->
  existsb (key_eqb (a, b)) (uniqueKeys st) = false ->
  dedupStep cx cz st p
  = mkDedup ((a, b) :: uniqueKeys st)
            (points2D st ++ [Vector2.mk (Vector3.x p - cx) (Vector3.z p - cz)])
            (Math.min (minY st) (Vector3.y p))
            (Math.max (maxY st) (Vector3.y p)).
Proof.
  intros Hx Hz Hnew. unfold dedupStep.
  rewrite (key_near a b) by assumption. now rewrite Hnew.
Qed.

Lemma dedupStep_seen (cx cz : R) (st : Dedup) (p : Vector3.t) (a b : Z) :
  (IZR a - / 2) * epsilon <= Vector3.x p - cx < (IZR a + / 2) * epsilon ->
  (IZR b - / 2) * epsilon <= Vector3.z p - cz < (IZR b + / 2) * epsilon ->
  existsb (key_eqb (a, b)) (uniqueKeys st) = true ->
  dedupStep cx cz st p = st.
Proof.
  intros Hx Hz Hold. unfold dedupStep.
  rewrite (key_near a b) by assumption. now rewrite Hold.
Qed.

(** One loop iteration at the head of the remaining array. *)
Ltac loop_step :=
  lazymatch goal with
  | |- context [fold_left ?f (?a :: ?l) ?s] =>
      change (fold_left f (a :: l) s) with (fold_left f l (f s a))
  end.

Ltac grid := unfold epsilon; simpl; lra.

Ltac dedup_fresh a b :=
  loop_step;
  rewrite (dedupStep_fresh _ _ _ _ a b);
  [ cbn [uniqueKeys points2D minY maxY app Vector3.x Vector3.y Vector3.z
         Math.min Math.max]
  | grid | grid | reflexivity ].

Ltac dedup_seen a b :=
  loop_step;
  rewrite (dedupStep_seen _ _ _ _ a b);
  [ | grid | grid | reflexivity ].

Lemma centroid_sampleTriangle : centroid (flat sampleTriangle) = (1, 1).
Proof. unfold centroid. simpl. f_equal; lra. Qed.

Lemma dedup_sampleTriangle :
  dedup (flat sampleTriangle)
  = mkDedup
      [(-1000000, 2000000)%Z; (2000000, -1000000)%Z; (-1000000, -1000000)%Z]
      [Vector2.mk (0 - 1) (0 - 1); Vector2.mk (3 - 1) (0 - 1);
       Vector2.mk (0 - 1) (3 - 1)]
      (Num (Rmin (Rmin 0 1) 0)) (Num (Rmax (Rmax 0 1) 0)).
Proof.
  unfold dedup. rewrite centroid_sampleTriangle.
  cbn [flat sampleTriangle flat_map triples app Vector3.x Vector3.y Vector3.z].
  dedup_fresh (-1000000)%Z (-1000000)%Z.
  dedup_fresh 2000000%Z (-1000000)%Z.
  dedup_fresh (-1000000)%Z 2000000%Z.
  reflexivity.
Qed.



Lemma centroid_stackedPoints : centroid (flat stackedPoints) = (1, 1).
Proof. unfold centroid. simpl. f_equal; lra. Qed.

Lemma dedup_stackedPoints :
  dedup (flat stackedPoints)
  = mkDedup
      [(-1000000, 3000000)%Z; (3000000, -1000000)%Z; (-1000000, -1000000)%Z]
      [Vector2.mk (0 - 1) (0 - 1); Vector2.mk (4 - 1) (0 - 1);
       Vector2.mk (0 - 1) (4 - 1)]
      (Num (Rmin (Rmin 0 0) 0)) (Num (Rmax (Rmax 0 0) 0)).
Proof.
  unfold dedup. rewrite centroid_stackedPoints.
  cbn [flat stackedPoints flat_map triples app Vector3.x Vector3.y Vector3.z].
  dedup_fresh (-1000000)%Z (-1000000)%Z.
  dedup_fresh 3000000%Z (-1000000)%Z.
  dedup_fresh (-1000000)%Z 3000000%Z.
  dedup_seen (-1000000)%Z (-1000000)%Z.
  reflexivity.
Qed.

Lemma Rmin_same (a : R) : Rmin a a = a.
Proof. unfold Rmin. now destruct (Rle_dec a a). Qed.

Lemma Rmax_same (a : R) : Rmax a a = a.
Proof. unfold Rmax. now destruct (Rle_dec a a). Qed.

(** The vertical half-size of the box of [sampleTriangle]. *)
Lemma halfSizes_sampleTriangle (this : MinimumBoundingRectangle) :
  Vector3.y (halfSizes (fromPoints this (flat sampleTriangle))) = 1 / 2.
Proof.
  rewrite fromPoints_success;
    [ | simpl; lia | rewrite dedup_sampleTriangle; simpl; lia ].
  rewrite dedup_sampleTriangle. simpl.
  replace (Rmax (Rmax 0 1) 0) with 1
    by (unfold Rmax; repeat destruct Rle_dec; lra).
  replace (Rmin (Rmin 0 1) 0) with 0
    by (unfold Rmin; repeat destruct Rle_dec; lra).
  lra.
Qed.

(** ** The candidate loop of enhancedRotatingCalipers *)

Lemma candidate_area (hull : list Vector2.t) (d : Vector2.t) :
  fst (candidate hull d)
  = width (snd (candidate hull d)) * height (snd (candidate hull d)).
Proof. reflexivity. Qed.

Lemma candidate_nonneg (hull : list Vector2.t) (d : Vector2.t) :
  hull <> [] ->
  0 <= width (snd (candidate hull d)) /\ 0 <= height (snd (candidate hull d)).
Proof.
  intros Hne. unfold candidate. cbn [snd width height].
  destruct (getExtremeProjections_spec hull d Hne)
    as (lo & hi & -> & Hb & _).
  destruct (getExtremeProjections_spec hull
              (Vector2.mk (- Vector2.y d) (Vector2.x d)) Hne)
    as (lo' & hi' & -> & Hb' & _).
  destruct hull as [|p hull]; [congruence|].
  specialize (Hb p (or_introl eq_refl)).
  specialize (Hb' p (or_introl eq_refl)).
  simpl. lra.
Qed.

Lemma calipersStep_Num (hull : list Vector2.t) (a : R) (best : option Rect)
    (d : Vector2.t) :
  calipersStep hull (Num a, best) d
  = if Rlt_dec (fst (candidate hull d)) a
    then (Num (fst (candidate hull d)), Some (snd (candidate hull d)))
    else (Num a, best).
Proof.
  unfold calipersStep. destruct (candidate hull d) as [area rect].
  cbn [fst snd lt_number]. now destruct (Rlt_dec area a).
Qed.

Lemma calipersStep_Infinity (hull : list Vector2.t) (best : option Rect)
    (d : Vector2.t) :
  calipersStep hull (Infinity, best) d
  = (Num (fst (candidate hull d)), Some (snd (candidate hull d))).
Proof.
  unfold calipersStep. now destruct (candidate hull d) as [area rect].
Qed.

(** From a finite running minimum the loop either keeps its state, when no
    later direction is strictly better, or ends on the first direction
    that attains the least area. *)
Lemma calipers_fold_from (hull edges : list Vector2.t) (a : R)
    (best : option Rect) :
  (fold_left (calipersStep hull) edges (Num a, best) = (Num a, best)
   /\ forall e, In e edges -> a <= fst (candidate hull e))
  \/ exists pre d post,
       edges = pre ++ d :: post
       /\ fold_left (calipersStep hull) edges (Num a, best)
          = (Num (fst (candidate hull d)), Some (snd (candidate hull d)))
       /\ fst (candidate hull d) < a
       /\ (forall e, In e pre -> fst (candidate hull d) < fst (candidate hull e))
       /\ (forall e, In e post -> fst (candidate hull d) <= fst (candidate hull e)).
Proof.
  revert a best; induction edges as [|d edges IH]; intros a best.
  - left. split; [reflexivity | intros e []].
  - cbn [fold_left]. rewrite calipersStep_Num.
    destruct (Rlt_dec (fst (candidate hull d)) a) as [Hlt|Hge].
    + right.
      destruct (IH (fst (candidate hull d)) (Some (snd (candidate hull d))))
        as [[E Hall]|(pre & d' & post & -> & E & Hlt' & Hpre & Hpost)].
      * exists [], d, edges. cbn [app].
        split; [reflexivity|]. split; [exact E|]. split; [exact Hlt|].
        split; [intros e [] | exact Hall].
      * exists (d :: pre), d', post.
        split; [reflexivity|]. split; [exact E|]. split; [lra|].
        split; [|exact Hpost].
        intros e [<-|Hin]; [exact Hlt' | now apply Hpre].
    + destruct (IH a best)
        as [[E Hall]|(pre & d' & post & -> & E & Hlt' & Hpre & Hpost)].
      * left. split; [exact E|].
        intros e [<-|Hin]; [lra | now apply Hall].
      * right. exists (d :: pre), d', post.
        split; [reflexivity|]. split; [exact E|]. split; [exact Hlt'|].
        split; [|exact Hpost].
        intros e [<-|Hin]; [lra | now apply Hpre].
Qed.

Lemma calipers_fold (hull edges : list Vector2.t) :
  edges <> [] ->
  exists pre d post,
    edges = pre ++ d :: post
    /\ snd (fold_left (calipersStep hull) edges (Infinity, None))
       = Some (snd (candidate hull d))
    /\ (forall e, In e pre -> fst (candidate hull d) < fst (candidate hull e))
    /\ (forall e, In e post -> fst (candidate hull d) <= fst (candidate hull e)).
Proof.
  destruct edges as [|d edges]; [congruence|]. intros _.
  cbn [fold_left]. rewrite calipersStep_Infinity.
  destruct (calipers_fold_from hull edges (fst (candidate hull d))
              (Some (snd (candidate hull d))))
    as [[E Hall]|(pre & d' & post & -> & E & Hlt' & Hpre & Hpost)].
  - exists [], d, edges. rewrite E. cbn [fst snd app].
    split; [reflexivity|]. split; [reflexivity|].
    split; [intros e [] | exact Hall].
  - exists (d :: pre), d', post. rewrite E. cbn [snd].
    split; [reflexivity|]. split; [reflexivity|]. split; [|exact Hpost].
    intros e [<-|Hin]; [exact Hlt' | now apply Hpre].
Qed.

(** *** The unique-direction list *)

Lemma directions_fold_app (hull : list Vector2.t) (idx : list nat)
    (dirs : list Vector2.t) :
  exists more,
    fold_left (directionStep hull) idx dirs = dirs ++ more
    /\ (forall d, In d more -> exists i, In i idx /\ d = edgeDirection hull i)
    /\ (forall i, In i idx ->
          isDuplicateDirection (dirs ++ more) (edgeDirection hull i) = true
          \/ In (edgeDirection hull i) more).
Proof.
  revert dirs; induction idx as [|i idx IH]; intros dirs.
  - exists []. rewrite app_nil_r. repeat split; intros ? [].
  - cbn [fold_left]. unfold directionStep at 2. cbv zeta.
    destruct (isDuplicateDirection dirs (edgeDirection hull i)) eqn:E.
    + destruct (IH dirs) as (more & -> & Hfrom & Hcov). exists more.
      split; [reflexivity|]. split.
      * intros d Hd. destruct (Hfrom d Hd) as (j & Hj & ->). exists j. split; [now right | reflexivity].
      * intros j [<-|Hj]; [|now apply Hcov]. left.
        unfold isDuplicateDirection in *. rewrite existsb_app, E. reflexivity.
    + destruct (IH (dirs ++ [edgeDirection hull i])) as (more & -> & Hfrom & Hcov).
      exists (edgeDirection hull i :: more). rewrite <- app_assoc. cbn [app].
      split; [reflexivity|]. split.
      * intros d [<-|Hd]; [exists i; split; [now left | reflexivity]|].
        destruct (Hfrom d Hd) as (j & Hj & ->). exists j. split; [now right | reflexivity].
      * intros j [<-|Hj]; [right; now left|].
        destruct (Hcov j Hj) as [Hdup|Hin]; [left | right; now right].
        now rewrite <- app_assoc in Hdup.
Qed.

Lemma getUniqueEdgeDirections_spec (hull : list Vector2.t) :
  (forall d, In d (getUniqueEdgeDirections hull) ->
     exists i, (i < length hull)%nat /\ d = edgeDirection hull i)
  /\ (forall i, (i < length hull)%nat ->
        In (edgeDirection hull i) (getUniqueEdgeDirections hull)
        \/ exists d, In d (getUniqueEdgeDirections hull)
             /\ Rabs (Vector2.dot (edgeDirection hull i) d - 1) < 1 / 10 ^ 10).
Proof.
  unfold getUniqueEdgeDirections.
  destruct (directions_fold_app hull (seq 0 (length hull)) [])
    as (more & -> & Hfrom & Hcov). cbn [app] in *. split.
  - intros d Hd. destruct (Hfrom d Hd) as (i & Hi & ->).
    apply in_seq in Hi. exists i. split; [lia | reflexivity].
  - intros i Hi. destruct (Hcov i) as [Hdup|Hin]; [apply in_seq; lia | | now left].
    right. unfold isDuplicateDirection in Hdup.
    apply existsb_exists in Hdup as (d & Hd & Hclose). exists d. split; [exact Hd|].
    unfold Math.abs in Hclose. now destruct Rlt_dec.
Qed.

Lemma getUniqueEdgeDirections_nonempty (hull : list Vector2.t) :
  hull <> [] -> getUniqueEdgeDirections hull <> [].
Proof.
  destruct hull as [|p hull]; [congruence|]. intros _.
  unfold getUniqueEdgeDirections. cbn [length seq fold_left].
  unfold directionStep at 2. cbn [isDuplicateDirection existsb app].
  destruct (directions_fold_app (p :: hull) (seq 1 (length hull))
              [edgeDirection (p :: hull) 0]) as (more & E & _).
  cbn [length] in E. rewrite E. discriminate.
Qed.

(** The rectangle returned for a hull of at least three vertices. *)
Lemma enhancedRotatingCalipers_first_minimum (hull : list Vector2.t) :
  (3 <= length hull)%nat ->
  exists pre d post,
    getUniqueEdgeDirections hull = pre ++ d :: post
    /\ enhancedRotatingCalipers hull = snd (candidate hull d)
    /\ (forall e, In e pre -> fst (candidate hull d) < fst (candidate hull e))
    /\ (forall e, In e post -> fst (candidate hull d) <= fst (candidate hull e)).
Proof.
  intros H3. assert (Hne : hull <> []) by (destruct hull; simpl in *; [lia | discriminate]).
  destruct (calipers_fold hull (getUniqueEdgeDirections hull)
              (getUniqueEdgeDirections_nonempty hull Hne))
    as (pre & d & post & E & Hres & Hpre & Hpost).
  exists pre, d, post. repeat split; auto.
  unfold enhancedRotatingCalipers.
  destruct (Nat.ltb_spec (length hull) 3); [lia|]. cbv zeta. now rewrite Hres.
Qed.


(** ** Box3.setFromPoints *)

Lemma expand_fold (l : list Vector3.t) (mn mx : Vector3.t) :
  fold_left Box3.expandByPoint l (Box3.box mn mx)
  = Box3.box (fold_left Vector3.min l mn) (fold_left Vector3.max l mx).
Proof. revert mn mx; induction l as [|p l IH]; intros; simpl; auto. Qed.

Lemma fold_min_x (l : list Vector3.t) (a : Vector3.t) :
  Vector3.x (fold_left Vector3.min l a)
  = fold_left Rmin (map Vector3.x l) (Vector3.x a).
Proof. revert a; induction l as [|p l IH]; intros; simpl; [|rewrite IH]; auto. Qed.

Lemma fold_min_y (l : list Vector3.t) (a : Vector3.t) :
  Vector3.y (fold_left Vector3.min l a)
  = fold_left Rmin (map Vector3.y l) (Vector3.y a).
Proof. revert a; induction l as [|p l IH]; intros; simpl; [|rewrite IH]; auto. Qed.

Lemma fold_min_z (l : list Vector3.t) (a : Vector3.t) :
  Vector3.z (fold_left Vector3.min l a)
  = fold_left Rmin (map Vector3.z l) (Vector3.z a).
Proof. revert a; induction l as [|p l IH]; intros; simpl; [|rewrite IH]; auto. Qed.

Lemma fold_max_x (l : list Vector3.t) (a : Vector3.t) :
  Vector3.x (fold_left Vector3.max l a)
  = fold_left Rmax (map Vector3.x l) (Vector3.x a).
Proof. revert a; induction l as [|p l IH]; intros; simpl; [|rewrite IH]; auto. Qed.

Lemma fold_max_y (l : list Vector3.t) (a : Vector3.t) :
  Vector3.y (fold_left Vector3.max l a)
  = fold_left Rmax (map Vector3.y l) (Vector3.y a).
Proof. revert a; induction l as [|p l IH]; intros; simpl; [|rewrite IH]; auto. Qed.

Lemma fold_max_z (l : list Vector3.t) (a : Vector3.t) :
  Vector3.z (fold_left Vector3.max l a)
  = fold_left Rmax (map Vector3.z l) (Vector3.z a).
Proof. revert a; induction l as [|p l IH]; intros; simpl; [|rewrite IH]; auto. Qed.

(** For one coordinate [f]: the folds bound it on the whole list and are
    attained in the list. *)
Lemma coordinate_extent (f : Vector3.t -> R) (p : Vector3.t)
    (l : list Vector3.t) :
  let lo := fold_left Rmin (map f l) (f p) in
  let hi := fold_left Rmax (map f l) (f p) in
  (forall q, In q (p :: l) -> lo <= f q <= hi)
  /\ (exists q, In q (p :: l) /\ f q = lo)
  /\ (exists q, In q (p :: l) /\ f q = hi).
Proof.
  cbv zeta. split; [|split].
  - intros q [<-|Hin].
    + split; [apply fold_Rmin_le | apply fold_Rmax_ge].
    + split; [apply fold_Rmin_lower | apply fold_Rmax_upper];
        now apply (in_map f).
  - destruct (fold_Rmin_attained (map f l) (f p)) as [E|Hin].
    + exists p. split; [now left | now rewrite E].
    + apply in_map_iff in Hin as (q & Eq & Hq). exists q. split; [now right | exact Eq].
  - destruct (fold_Rmax_attained (map f l) (f p)) as [E|Hin].
    + exists p. split; [now left | now rewrite E].
    + apply in_map_iff in Hin as (q & Eq & Hq). exists q. split; [now right | exact Eq].
Qed.

Lemma worldCorners_orientedCorner (this : MinimumBoundingRectangle)
    (c : Vector3.t) :
  In c (worldCorners this) <-> exists sx sy sz, c = orientedCorner this sx sy sz.
Proof.
  assert (E : worldCorners this
              = [ orientedCorner this false false false;
                  orientedCorner this true false false;
                  orientedCorner this true true false;
                  orientedCorner this false true false;
                  orientedCorner this false false true;
                  orientedCorner this true false true;
                  orientedCorner this true true true;
                  orientedCorner this false true true ]) by reflexivity.
  rewrite E. split.
  - intros H. repeat (destruct H as [<-|H]; [eexists _, _, _; reflexivity|]).
    destruct H.
  - intros (sx & sy & sz & ->). destruct sx, sy, sz; simpl; tauto.
Qed.

(** ** The scan keeps the pivot at the bottom of the stack *)

Lemma popWhile_bottom (l : list Vector2.t) (s0 p : Vector2.t) :
  exists l', popWhile (l ++ [s0]) p = l' ++ [s0].
Proof.
  induction l as [|top l IH].
  - exists []. reflexivity.
  - destruct l as [|second l].
    + cbn [app popWhile].
      destruct (Rle_dec (crossProduct s0 top p) 0); [exists [] | exists [top]]; reflexivity.
    + cbn [app popWhile] in *.
      destruct (Rle_dec (crossProduct second top p) 0).
      * exact IH.
      * exists (top :: second :: l). reflexivity.
Qed.

Lemma scan_bottom (rest l : list Vector2.t) (s0 : Vector2.t) :
  exists l', fold_left scanStep rest (l ++ [s0]) = l' ++ [s0].
Proof.
  revert l; induction rest as [|p rest IH]; intros l.
  - exists l. reflexivity.
  - cbn [fold_left]. unfold scanStep at 2.
    destruct (popWhile_bottom l s0 p) as (l' & ->).
    apply (IH (p :: l')).
Qed.

(** With at least three points the returned sequence starts at the pivot
    chosen by the first loop. *)
Lemma grahamScan_starts_at_pivot (p0 : Vector2.t) (rest : list Vector2.t) :
  (2 <= length rest)%nat ->
  exists hull,
    grahamScan (p0 :: rest) = fst (findBottom rest 1 p0 0) :: hull.
Proof.
  intros H. unfold grahamScan.
  destruct (Nat.ltb_spec (length (p0 :: rest)) 3); [simpl in *; lia|].
  unfold sortedPoints. destruct (findBottom rest 1 p0 0) as [bp bi]. cbn [fst].
  destruct (Array_sort _ _) as [|s1 more].
  - exists []. reflexivity.
  - destruct (scan_bottom more [s1] bp) as (l' & E). cbn [app] in E.
    rewrite E, rev_app_distr. cbn [rev app]. eexists. reflexivity.
Qed.

(** ** Bounds on the arctangent *)

Lemma sin_lower (t : R) : 0 <= t <= 4 -> t - t ^ 3 / 6 <= sin t.
Proof.
  intros [H0 H4].
  destruct (pre_sin_bound t 0 H0 H4) as [H _].
  unfold sin_approx, sin_term in H. simpl in H.
  lra.
Qed.

Lemma cos_upper (t : R) : -2 <= t <= 2 -> cos t <= 1 - t ^ 2 / 2 + t ^ 4 / 24.
Proof.
  intros [H0 H4].
  destruct (pre_cos_bound t 0 H0 H4) as [_ H].
  unfold cos_approx, cos_term in H. simpl in H.
  lra.
Qed.

Lemma tan_gt_id (t : R) : 0 < t < PI / 2 -> t < tan t.
Proof.
  intros [H0 H2]. pose proof PI_4 as Hpi.
  assert (Hc : 0 < cos t) by (apply cos_gt_0; lra).
  pose proof (sin_lower t) as Hs. pose proof (cos_upper t) as Hu.
  unfold tan. apply Rmult_lt_reg_r with (cos t); [assumption|].
  replace (sin t / cos t * cos t) with (sin t) by (field; lra).
  assert (t * cos t <= t * (1 - t ^ 2 / 2 + t ^ 4 / 24))
    by (apply Rmult_le_compat_l; lra).
  assert (t * (1 - t ^ 2 / 2 + t ^ 4 / 24) < t - t ^ 3 / 6).
  { assert (t ^ 2 < 8) by nra.
    assert (0 < t ^ 3) by (apply pow_lt; lra).
    replace (t - t ^ 3 / 6 - t * (1 - t ^ 2 / 2 + t ^ 4 / 24))
      with (t ^ 3 * (8 - t ^ 2) / 24) in * by field.
    assert (0 < t ^ 3 * (8 - t ^ 2) / 24).
    { apply Rdiv_lt_0_compat; [|lra]. apply Rmult_lt_0_compat; lra. }
    replace (t - t ^ 3 / 6) with (t * (1 - t ^ 2 / 2 + t ^ 4 / 24) + t ^ 3 * (8 - t ^ 2) / 24) by field.
    lra. }
  lra.
Qed.

Lemma atan_lt_id (x : R) : 0 < x -> atan x < x.
Proof.
  intros Hx. pose proof (atan_bound x) as [_ Hb].
  assert (H0 : 0 < atan x).
  { rewrite <- atan_0. now apply atan_increasing. }
  pose proof (tan_gt_id (atan x) (conj H0 Hb)) as H.
  now rewrite tan_atan in H.
Qed.

(** ** Polar angles and turns *)

Lemma atan_lt_inv (a b : R) : atan a < atan b -> a < b.
Proof.
  intros H. destruct (Rlt_le_dec a b) as [|Hle]; [assumption|].
  destruct Hle as [Hlt|E]; [|subst; lra].
  apply atan_increasing in Hlt. lra.
Qed.

Lemma atan_inj (a b : R) : atan a = atan b -> a = b.
Proof.
  intros H. destruct (Rtotal_order a b) as [Hlt|[E|Hgt]]; [|assumption|];
    [apply atan_increasing in Hlt | apply atan_increasing in Hgt]; lra.
Qed.

Lemma atan_nonneg (a : R) : 0 <= a -> 0 <= atan a.
Proof.
  intros [H|<-]; [|rewrite atan_0; lra].
  apply atan_increasing in H. rewrite atan_0 in H. lra.
Qed.

Lemma atan_neg (a : R) : a < 0 -> atan a < 0.
Proof. intros H. apply atan_increasing in H. now rewrite atan_0 in H. Qed.

(** [Math.atan2] on the upper half plane, the positive x axis included. *)
Lemma atan2_right (y x : R) : 0 < x -> Math.atan2 y x = atan (y / x).
Proof. intros H. unfold Math.atan2. destruct (Rlt_dec 0 x); [reflexivity | lra]. Qed.

Lemma atan2_up (y : R) : 0 < y -> Math.atan2 y 0 = PI / 2.
Proof.
  intros H. unfold Math.atan2.
  destruct (Rlt_dec 0 0); [lra|]. destruct (Rlt_dec 0 y); [reflexivity | lra].
Qed.

Lemma atan2_left (y x : R) : x < 0 -> 0 <= y -> Math.atan2 y x = atan (y / x) + PI.
Proof.
  intros H Hy. unfold Math.atan2.
  destruct (Rlt_dec 0 x); [lra|]. destruct (Rlt_dec x 0); [|lra].
  destruct (Rle_dec 0 y); [reflexivity | lra].
Qed.

Lemma div_sign_pos (y x : R) : 0 < x -> 0 <= y -> 0 <= y / x.
Proof.
  intros Hx Hy. unfold Rdiv. apply Rmult_le_pos; [assumption|].
  left. now apply Rinv_0_lt_compat.
Qed.

Lemma div_sign_neg (y x : R) : x < 0 -> 0 < y -> y / x < 0.
Proof.
  intros Hx Hy. replace (y / x) with (- (y / - x)) by (field; lra).
  assert (0 < y / - x).
  { unfold Rdiv. apply Rmult_lt_0_compat; [assumption|]. apply Rinv_0_lt_compat. lra. }
  lra.
Qed.

(** Classification of a vector of the half plane by its angle. *)
Lemma atan2_half_plane (y x : R) :
  0 < y \/ (y = 0 /\ 0 < x) ->
  (0 < x /\ Math.atan2 y x = atan (y / x) /\ 0 <= Math.atan2 y x < PI / 2)
  \/ (x = 0 /\ 0 < y /\ Math.atan2 y x = PI / 2)
  \/ (x < 0 /\ 0 < y /\ Math.atan2 y x = atan (y / x) + PI
      /\ PI / 2 < Math.atan2 y x < PI).
Proof.
  intros H. destruct (Rtotal_order 0 x) as [Hx|[<-|Hx]].
  - left. rewrite atan2_right by assumption. split; [assumption|]. split; [reflexivity|].
    pose proof (atan_bound (y / x)).
    assert (0 <= y / x) by (apply div_sign_pos; lra).
    pose proof (atan_nonneg _ H1). lra.
  - right; left. assert (0 < y) by lra. rewrite atan2_up by assumption. auto.
  - right; right. assert (Hy : 0 < y) by lra.
    rewrite atan2_left by lra. split; [assumption|]. split; [assumption|].
    split; [reflexivity|].
    pose proof (atan_bound (y / x)).
    pose proof (atan_neg _ (div_sign_neg y x Hx Hy)). lra.
Qed.

Lemma cross_vectors (p a b : Vector2.t) :
  crossProduct p a b
  = (Vector2.x a - Vector2.x p) * (Vector2.y b - Vector2.y p)
    - (Vector2.y a - Vector2.y p) * (Vector2.x b - Vector2.x p).
Proof. reflexivity. Qed.

Lemma div_lt_cross (uy ux vy vx : R) :
  0 < ux * vx -> uy / ux < vy / vx -> 0 < ux * vy - uy * vx.
Proof.
  intros Hp Hlt.
  assert (ux <> 0) by (intros ->; lra).
  assert (vx <> 0) by (intros ->; lra).
  assert (E : ux * vy - uy * vx = (vy / vx - uy / ux) * (ux * vx)) by (field; auto).
  rewrite E. apply Rmult_lt_0_compat; lra.
Qed.

Lemma div_eq_cross (uy ux vy vx : R) :
  ux <> 0 -> vx <> 0 -> uy / ux = vy / vx -> ux * vy - uy * vx = 0.
Proof.
  intros Hu Hv E.
  replace (ux * vy - uy * vx) with ((vy / vx - uy / ux) * (ux * vx)) by (field; auto).
  rewrite E. ring.
Qed.

Lemma polarAngle_lt_cross (p a b : Vector2.t) :
  above p a -> above p b ->
  polarAngle p a < polarAngle p b -> 0 < crossProduct p a b.
Proof.
  unfold above, polarAngle. rewrite cross_vectors.
  set (ux := Vector2.x a - Vector2.x p). set (uy := Vector2.y a - Vector2.y p).
  set (vx := Vector2.x b - Vector2.x p). set (vy := Vector2.y b - Vector2.y p).
  intros Ha Hb.
  assert (Hu : 0 < uy \/ (uy = 0 /\ 0 < ux)) by (unfold ux, uy; lra).
  assert (Hv : 0 < vy \/ (vy = 0 /\ 0 < vx)) by (unfold vx, vy; lra).
  clearbody ux uy vx vy. clear Ha Hb.
  destruct (atan2_half_plane uy ux Hu) as [(Hux & Eu & Bu)|[(Hux & Huy & Eu)|(Hux & Huy & Eu & Bu)]];
  destruct (atan2_half_plane vy vx Hv) as [(Hvx & Ev & Bv)|[(Hvx & Hvy & Ev)|(Hvx & Hvy & Ev & Bv)]];
  intros Hlt; try lra.
  - rewrite Eu, Ev in Hlt. apply atan_lt_inv in Hlt.
    apply div_lt_cross; [nra | assumption].
  - subst vx. nra.
  - assert (0 <= uy) by lra. nra.
  - subst ux. nra.
  - rewrite Eu, Ev in Hlt. assert (Hlt' : atan (uy / ux) < atan (vy / vx)) by lra.
    apply atan_lt_inv in Hlt'. apply div_lt_cross; [nra | assumption].
Qed.

Lemma polarAngle_eq_cross (p a b : Vector2.t) :
  above p a -> above p b ->
  polarAngle p a = polarAngle p b ->
  crossProduct p a b = 0
  /\ 0 < (Vector2.x a - Vector2.x p) * (Vector2.x b - Vector2.x p)
         + (Vector2.y a - Vector2.y p) * (Vector2.y b - Vector2.y p).
Proof.
  unfold above, polarAngle. rewrite cross_vectors.
  set (ux := Vector2.x a - Vector2.x p). set (uy := Vector2.y a - Vector2.y p).
  set (vx := Vector2.x b - Vector2.x p). set (vy := Vector2.y b - Vector2.y p).
  intros Ha Hb.
  assert (Hu : 0 < uy \/ (uy = 0 /\ 0 < ux)) by (unfold ux, uy; lra).
  assert (Hv : 0 < vy \/ (vy = 0 /\ 0 < vx)) by (unfold vx, vy; lra).
  clearbody ux uy vx vy. clear Ha Hb.
  destruct (atan2_half_plane uy ux Hu) as [(Hux & Eu & Bu)|[(Hux & Huy & Eu)|(Hux & Huy & Eu & Bu)]];
  destruct (atan2_half_plane vy vx Hv) as [(Hvx & Ev & Bv)|[(Hvx & Hvy & Ev)|(Hvx & Hvy & Ev & Bv)]];
  intros Heq; try lra.
  - rewrite Eu, Ev in Heq. apply atan_inj in Heq.
    split; [apply div_eq_cross; lra|].
    assert (0 <= uy) by lra. assert (0 <= vy) by lra. nra.
  - subst ux vx. split; [ring | nra].
  - rewrite Eu, Ev in Heq. assert (Heq' : atan (uy / ux) = atan (vy / vx)) by lra.
    apply atan_inj in Heq'. split; [apply div_eq_cross; lra | nra].
Qed.

(** ** Sorting by polar angle *)

Section SortLemmas.
Context {A : Type}.
Variable cmp : A -> A -> R.

Lemma insert_perm (a : A) (l : list A) : Permutation (insert cmp a l) (a :: l).
Proof.
  induction l as [|b l IH]; simpl; [reflexivity|].
  destruct (Rle_dec (cmp a b) 0); [reflexivity|].
  rewrite IH. apply perm_swap.
Qed.

Lemma Array_sort_perm (l : list A) : Permutation (Array_sort cmp l) l.
Proof.
  induction l as [|a l IH]; simpl; [reflexivity|].
  rewrite insert_perm. now constructor.
Qed.

Variable le : A -> A -> Prop.

Lemma insert_sorted (a : A) (l : list A) :
  (forall b, In b l -> (cmp a b <= 0 -> le a b) /\ (~ cmp a b <= 0 -> le b a)) ->
  (forall b c, In b l -> In c l -> le a b -> le b c -> le a c) ->
  StronglySorted le l -> StronglySorted le (insert cmp a l).
Proof.
  intros Hcmp Htrans Hs. induction Hs as [|b l Hs IH Hall]; simpl.
  - repeat constructor.
  - destruct (Rle_dec (cmp a b) 0) as [Hle|Hgt].
    + constructor; [now constructor|].
      assert (Hab : le a b) by (apply Hcmp; [now left | assumption]).
      constructor; [assumption|].
      rewrite Forall_forall in *. intros c Hc.
      apply (Htrans b c); [now left | now right | assumption | now apply Hall].
    + constructor.
      * apply IH.
        -- intros c Hc. apply Hcmp. now right.
        -- intros c c' Hc Hc'. apply Htrans; now right.
      * rewrite Forall_forall in *. intros c Hc.
        apply (Permutation_in _ (insert_perm a l)) in Hc.
        destruct Hc as [<-|Hc]; [|now apply Hall].
        apply Hcmp; [now left | assumption].
Qed.

Lemma Array_sort_sorted (l : list A) :
  (forall a b, In a l -> In b l ->
     (cmp a b <= 0 -> le a b) /\ (~ cmp a b <= 0 -> le b a)) ->
  (forall a b c, In a l -> In b l -> In c l -> le a b -> le b c -> le a c) ->
  StronglySorted le (Array_sort cmp l).
Proof.
  intros Hcmp Htrans. induction l as [|a l IH]; simpl; [constructor|].
  apply insert_sorted.
  - intros b Hb. apply (Permutation_in _ (Array_sort_perm l)) in Hb.
    apply Hcmp; [now left | now right].
  - intros b c Hb Hc.
    apply (Permutation_in _ (Array_sort_perm l)) in Hb.
    apply (Permutation_in _ (Array_sort_perm l)) in Hc.
    apply Htrans; [now left | now right | now right].
  - apply IH.
    + intros b c Hb Hc. apply Hcmp; now right.
    + intros b c e Hb Hc He. apply Htrans; now right.
Qed.
End SortLemmas.


Lemma tolerance_pos : 0 < 1 / 10 ^ 10.
Proof. apply Rdiv_lt_0_compat; [lra | apply pow_lt; lra]. Qed.

Lemma polarCompare_le (p a b : Vector2.t) :
  polarAngle p a = polarAngle p b
  \/ 1 / 10 ^ 10 <= Rabs (polarAngle p a - polarAngle p b) ->
  (polarCompare p a b <= 0 -> polarLe p a b)
  /\ (~ polarCompare p a b <= 0 -> polarLe p b a).
Proof.
  intros Hsep. pose proof tolerance_pos as Htol.
  unfold polarCompare, polarLe, Math.abs. fold (polarAngle p a) (polarAngle p b).
  destruct (Rlt_dec (Rabs (polarAngle p a - polarAngle p b)) (1 / 10 ^ 10)) as [Hclose|Hfar].
  - destruct Hsep as [E|Hsep]; [|lra]. split; intros H; right; split; auto; lra.
  - assert (Hne : polarAngle p a <> polarAngle p b).
    { intros E. rewrite E, Rminus_diag, Rabs_R0 in Hfar. lra. }
    split; intros H; left; lra.
Qed.

Lemma polarLe_trans (p a b c : Vector2.t) :
  polarLe p a b -> polarLe p b c -> polarLe p a c.
Proof.
  unfold polarLe. intros [H1|[E1 D1]] [H2|[E2 D2]].
  - left; lra.
  - left; lra.
  - left; lra.
  - right. split; lra.
Qed.

Lemma sorted_by_polarLe (p : Vector2.t) (l : list Vector2.t) :
  angleSeparated p l ->
  StronglySorted (polarLe p) (Array_sort (polarCompare p) l).
Proof.
  intros Hsep. apply Array_sort_sorted.
  - intros a b Ha Hb. apply polarCompare_le. now apply Hsep.
  - intros a b c _ _ _. apply polarLe_trans.
Qed.

(** ** The pivot *)

Lemma isLower_true (p b : Vector2.t) :
  isLower p b = true ->
  Vector2.y p < Vector2.y b
  \/ (Vector2.y p = Vector2.y b /\ Vector2.x p < Vector2.x b).
Proof.
  unfold isLower. destruct (Rlt_dec (Vector2.y p) (Vector2.y b)); [auto|].
  destruct (Req_dec_T (Vector2.y p) (Vector2.y b)); [|discriminate].
  destruct (Rlt_dec (Vector2.x p) (Vector2.x b)); [auto | discriminate].
Qed.

Lemma isLower_false (p b : Vector2.t) : isLower p b = false -> lowerEq b p.
Proof.
  unfold isLower, lowerEq. destruct (Rlt_dec (Vector2.y p) (Vector2.y b)); [discriminate|].
  destruct (Req_dec_T (Vector2.y p) (Vector2.y b)) as [E|Hne]; [|intros _; lra].
  destruct (Rlt_dec (Vector2.x p) (Vector2.x b)); [discriminate|]. intros _. lra.
Qed.

Lemma lowerEq_refl (p : Vector2.t) : lowerEq p p.
Proof. unfold lowerEq. lra. Qed.

Lemma lowerEq_trans (p q r : Vector2.t) : lowerEq p q -> lowerEq q r -> lowerEq p r.
Proof. unfold lowerEq. lra. Qed.

Lemma findBottom_spec (l : list Vector2.t) (i : nat) (bp : Vector2.t) (bi : nat) :
  lowerEq (fst (findBottom l i bp bi)) bp
  /\ (forall q, In q l -> lowerEq (fst (findBottom l i bp bi)) q)
  /\ (findBottom l i bp bi = (bp, bi)
      \/ exists k, nth_error l k = Some (fst (findBottom l i bp bi))
                   /\ snd (findBottom l i bp bi) = (i + k)%nat).
Proof.
  revert i bp bi; induction l as [|p l IH]; intros i bp bi; simpl.
  - split; [apply lowerEq_refl|]. split; [intros q []|]. now left.
  - destruct (isLower p bp) eqn:E.
    + destruct (IH (S i) p i) as (H1 & H2 & H3).
      assert (Hp : lowerEq p bp).
      { apply isLower_true in E. unfold lowerEq. lra. }
      split; [eapply lowerEq_trans; eauto|]. split.
      * intros q [<-|Hq]; [assumption | now apply H2].
      * right. destruct H3 as [->|(k & Hk & Ek)].
        -- exists 0%nat. simpl. split; [reflexivity | lia].
        -- exists (S k). simpl. split; [assumption | lia].
    + destruct (IH (S i) bp bi) as (H1 & H2 & H3).
      split; [assumption|]. split.
      * intros q [<-|Hq]; [|now apply H2].
        apply isLower_false in E. eapply lowerEq_trans; eauto.
      * destruct H3 as [->|(k & Hk & Ek)]; [now left|].
        right. exists (S k). simpl. split; [assumption | lia].
Qed.

Lemma filter_index_all {A : Type} (keep : nat -> bool) (i : nat) (l : list A) :
  (forall j, (i <= j)%nat -> keep j = true) -> filter_index keep i l = l.
Proof.
  revert i; induction l as [|a l IH]; intros i H; simpl; [reflexivity|].
  rewrite H by lia. f_equal. apply IH. intros j Hj. apply H. lia.
Qed.

Lemma filter_index_remove {A : Type} (l : list A) (k i : nat) (a : A) :
  nth_error l k = Some a ->
  Permutation l (a :: filter_index (fun j => negb (Nat.eqb j (i + k))) i l).
Proof.
  revert k i; induction l as [|b l IH]; intros k i; [destruct k; discriminate|].
  destruct k as [|k]; simpl.
  - intros [= ->]. rewrite Nat.add_0_r, Nat.eqb_refl. simpl.
    rewrite filter_index_all; [reflexivity|].
    intros j Hj. apply negb_true_iff, Nat.eqb_neq. lia.
  - intros Hk. destruct (Nat.eqb_spec i (i + S k)) as [|_]; [lia|]. simpl.
    rewrite perm_swap. constructor.
    replace (i + S k)%nat with (S i + k)%nat by lia. now apply IH.
Qed.

(** The array handed to the scan: the pivot, then the other points. *)
Lemma sortedPoints_spec (points : list Vector2.t) :
  points <> [] ->
  exists others,
    sortedPoints points
    = pivot points :: Array_sort (polarCompare (pivot points)) others
    /\ Permutation points (pivot points :: others)
    /\ forall q, In q points -> lowerEq (pivot points) q.
Proof.
  destruct points as [|p0 rest]; [congruence|]. intros _.
  unfold sortedPoints, pivot.
  destruct (findBottom_spec rest 1 p0 0) as (H1 & H2 & H3).
  destruct (findBottom rest 1 p0 0) as [bp bi] eqn:E. cbn [fst snd] in *.
  eexists. split; [reflexivity|]. split.
  - destruct H3 as [[= -> ->]|(k & Hk & ->)].
    + apply (filter_index_remove (p0 :: rest) 0 0). reflexivity.
    + apply (filter_index_remove (p0 :: rest) (S k) 0). exact Hk.
  - intros q [<-|Hq]; [assumption | now apply H2].
Qed.

Lemma lowerEq_above (p q : Vector2.t) : lowerEq p q -> q <> p -> above p q.
Proof.
  unfold lowerEq, above. intros [H|[Ey [Hx|Ex]]] Hne; [lra | lra |].
  exfalso. apply Hne. destruct p, q. simpl in *. now subst.
Qed.

(** ** Plane geometry on coordinates *)

(** In this section [a], [u], [v] are vectors from the pivot, given by
    their coordinates. *)

Lemma collinear_longer (u1 u2 v1 v2 : R) :
  u1 * v2 - u2 * v1 = 0 ->
  0 < u1 * v1 + u2 * v2 ->
  u1 * u1 + u2 * u2 <= v1 * v1 + v2 * v2 ->
  u1 * u1 + u2 * u2 <= u1 * v1 + u2 * v2
  /\ u1 * v1 + u2 * v2 <= v1 * v1 + v2 * v2.
Proof.
  intros Hc Hd Hn.
  assert (L : (u1 * v1 + u2 * v2) * (u1 * v1 + u2 * v2)
              = (u1 * u1 + u2 * u2) * (v1 * v1 + v2 * v2)).
  { replace ((u1 * u1 + u2 * u2) * (v1 * v1 + v2 * v2))
      with ((u1 * v1 + u2 * v2) * (u1 * v1 + u2 * v2)
            + (u1 * v2 - u2 * v1) * (u1 * v2 - u2 * v1)) by ring.
    rewrite Hc. ring. }
  assert (0 <= u1 * u1 + u2 * u2) by nra.
  split; nra.
Qed.

Lemma same_ray_turn (a1 a2 u1 u2 v1 v2 : R) :
  0 < a1 * u2 - a2 * u1 ->
  u1 * v2 - u2 * v1 = 0 ->
  0 < u1 * v1 + u2 * v2 ->
  u1 * u1 + u2 * u2 <= v1 * v1 + v2 * v2 ->
  (u1 - a1) * (v2 - a2) - (u2 - a2) * (v1 - a1) <= 0.
Proof.
  intros Hau Hc Hd Hn.
  destruct (collinear_longer u1 u2 v1 v2 Hc Hd Hn) as [H1 H2].
  assert (Hu : 0 < u1 * u1 + u2 * u2).
  { destruct (Req_dec u1 0) as [->|]; destruct (Req_dec u2 0) as [->|]; nra. }
  assert (I : (a1 * v2 - a2 * v1) * (u1 * u1 + u2 * u2)
              = (a1 * u2 - a2 * u1) * (u1 * v1 + u2 * v2)
                + (a1 * u1 + a2 * u2) * (u1 * v2 - u2 * v1)) by ring.
  rewrite Hc, Rmult_0_r, Rplus_0_r in I.
  assert (K : (a1 * u2 - a2 * u1) * (u1 * u1 + u2 * u2)
              <= (a1 * v2 - a2 * v1) * (u1 * u1 + u2 * u2)).
  { rewrite I. apply Rmult_le_compat_l; lra. }
  assert (a1 * u2 - a2 * u1 <= a1 * v2 - a2 * v1).
  { apply Rmult_le_reg_r with (u1 * u1 + u2 * u2); assumption. }
  lra.
Qed.

Lemma in_triangle (a1 a2 u1 u2 v1 v2 d1 d2 : R) :
  0 <= a1 * u2 - a2 * u1 ->
  0 <= u1 * v2 - u2 * v1 ->
  0 < a1 * v2 - a2 * v1 ->
  (u1 - a1) * (v2 - a2) - (u2 - a2) * (v1 - a1) <= 0 ->
  u1 * d1 + u2 * d2 <= 0
  \/ u1 * d1 + u2 * d2 <= a1 * d1 + a2 * d2
  \/ u1 * d1 + u2 * d2 <= v1 * d1 + v2 * d2.
Proof.
  intros Hau Huv Hav Hturn.
  set (W := a1 * v2 - a2 * v1) in *.
  set (al := u1 * v2 - u2 * v1) in *.
  set (be := a1 * u2 - a2 * u1) in *.
  assert (Hsum : al + be <= W) by (unfold al, be, W; lra).
  set (ud := u1 * d1 + u2 * d2). set (ad := a1 * d1 + a2 * d2).
  set (vd := v1 * d1 + v2 * d2).
  assert (I : W * ud = al * ad + be * vd) by (unfold W, al, be, ud, ad, vd; ring).
  destruct (Rle_dec ud 0); [now left|].
  destruct (Rle_dec ud ad); [now right; left|].
  destruct (Rle_dec ud vd); [now right; right|].
  exfalso. clearbody W al be ud ad vd.
  assert (al * ad <= al * ud) by (apply Rmult_le_compat_l; lra).
  assert (be * vd <= be * ud) by (apply Rmult_le_compat_l; lra).
  destruct Huv as [Hal|<-].
  - assert (al * ad < al * ud) by (apply Rmult_lt_compat_l; lra). nra.
  - destruct Hau as [Hbe|<-].
    + assert (be * vd < be * ud) by (apply Rmult_lt_compat_l; lra). nra.
    + nra.
Qed.

Lemma in_segment (u1 u2 v1 v2 d1 d2 : R) :
  u1 * v2 - u2 * v1 = 0 ->
  0 < u1 * v1 + u2 * v2 ->
  u1 * u1 + u2 * u2 <= v1 * v1 + v2 * v2 ->
  u1 * d1 + u2 * d2 <= 0 \/ u1 * d1 + u2 * d2 <= v1 * d1 + v2 * d2.
Proof.
  intros Hc Hd Hn.
  destruct (collinear_longer u1 u2 v1 v2 Hc Hd Hn) as [H1 H2].
  set (ud := u1 * d1 + u2 * d2). set (vd := v1 * d1 + v2 * d2).
  set (uv := u1 * v1 + u2 * v2) in *. set (vv := v1 * v1 + v2 * v2) in *.
  assert (I : ud * vv = uv * vd + (u1 * v2 - u2 * v1) * (d1 * v2 - d2 * v1))
    by (unfold ud, vv, uv, vd; ring).
  rewrite Hc, Rmult_0_l, Rplus_0_r in I.
  destruct (Rle_dec ud 0); [now left|].
  destruct (Rle_dec ud vd); [now right|].
  exfalso. clearbody ud vd uv vv.
  assert (0 < vv) by lra.
  destruct (Rle_dec vd 0).
  - assert (uv * vd <= 0) by nra. nra.
  - assert (uv * vd <= vv * vd) by (apply Rmult_le_compat_r; lra). nra.
Qed.

(** Points dominated by two points lie on their line. *)
Lemma between_collinear (q1 q2 x1 x2 : R) :
  (forall d1 d2 : R, x1 * d1 + x2 * d2 <= 0 \/ x1 * d1 + x2 * d2 <= q1 * d1 + q2 * d2) ->
  q1 * x2 - q2 * x1 = 0.
Proof.
  intros H.
  pose proof (H (- q2) q1) as Ha. pose proof (H q2 (- q1)) as Hb.
  destruct Ha as [Ha|Ha]; destruct Hb as [Hb|Hb]; lra.
Qed.

(** ** Invariants of the scan *)

Lemma dominated_in (hull : list Vector2.t) (q : Vector2.t) :
  In q hull -> dominated hull q.
Proof. intros H d. exists q. split; [assumption | lra]. Qed.

Lemma dominated_trans (h1 h2 : list Vector2.t) (q : Vector2.t) :
  (forall s, In s h1 -> dominated h2 s) -> dominated h1 q -> dominated h2 q.
Proof.
  intros H12 H1 d. destruct (H1 d) as (s & Hs & Hle).
  destruct (H12 s Hs d) as (s' & Hs' & Hle'). exists s'. split; [assumption | lra].
Qed.

Lemma stackConvex_tail (c : Vector2.t) (rest : list Vector2.t) :
  stackConvex (c :: rest) -> stackConvex rest.
Proof.
  destruct rest as [|b [|a rest]]; simpl; auto. tauto.
Qed.

Lemma distanceTo_le_sq (a b p : Vector2.t) :
  Vector2.distanceTo a p <= Vector2.distanceTo b p ->
  (Vector2.x a - Vector2.x p) * (Vector2.x a - Vector2.x p)
  + (Vector2.y a - Vector2.y p) * (Vector2.y a - Vector2.y p)
  <= (Vector2.x b - Vector2.x p) * (Vector2.x b - Vector2.x p)
     + (Vector2.y b - Vector2.y p) * (Vector2.y b - Vector2.y p).
Proof.
  unfold Vector2.distanceTo. intros H.
  apply sqrt_le_0; [| |exact H];
    apply Rplus_le_le_0_compat; apply Rle_0_sqr.
Qed.

(** What [polarLe] says about the turn at the pivot. *)
Lemma polarLe_cross (p a b : Vector2.t) :
  above p a -> above p b -> polarLe p a b -> 0 <= crossProduct p a b.
Proof.
  intros Ha Hb [Hlt|[Heq _]].
  - left. now apply polarAngle_lt_cross.
  - right. symmetry. now apply polarAngle_eq_cross.
Qed.

Lemma pop_same_ray (p s t q : Vector2.t) :
  above p s -> above p t -> above p q ->
  polarAngle p s < polarAngle p t ->
  polarAngle p t = polarAngle p q ->
  Vector2.distanceTo t p <= Vector2.distanceTo q p ->
  crossProduct s t q <= 0.
Proof.
  intros Hs Ht Hq Hst Htq Hd.
  pose proof (polarAngle_lt_cross p s t Hs Ht Hst) as H1.
  destruct (polarAngle_eq_cross p t q Ht Hq Htq) as [H2 H3].
  apply distanceTo_le_sq in Hd.
  unfold crossProduct in *.
  pose proof (same_ray_turn
                (Vector2.x s - Vector2.x p) (Vector2.y s - Vector2.y p)
                (Vector2.x t - Vector2.x p) (Vector2.y t - Vector2.y p)
                (Vector2.x q - Vector2.x p) (Vector2.y q - Vector2.y p)
                H1 H2 H3 Hd) as H.
  lra.
Qed.

Lemma dominated_triangle (p s t q : Vector2.t) :
  0 <= crossProduct p s t -> 0 <= crossProduct p t q ->
  0 < crossProduct p s q -> crossProduct s t q <= 0 ->
  dominated [p; s; q] t.
Proof.
  unfold crossProduct. intros H1 H2 H3 H4 d.
  assert (H4' : (Vector2.x t - Vector2.x p - (Vector2.x s - Vector2.x p))
                * (Vector2.y q - Vector2.y p - (Vector2.y s - Vector2.y p))
                - (Vector2.y t - Vector2.y p - (Vector2.y s - Vector2.y p))
                  * (Vector2.x q - Vector2.x p - (Vector2.x s - Vector2.x p)) <= 0)
    by lra.
  destruct (in_triangle _ _ _ _ _ _ (Vector2.x d) (Vector2.y d) H1 H2 H3 H4')
    as [H|[H|H]]; unfold Vector2.dot.
  - exists p. split; [simpl; tauto | lra].
  - exists s. split; [simpl; tauto | lra].
  - exists q. split; [simpl; tauto | lra].
Qed.

Lemma dominated_segment (p t q : Vector2.t) :
  above p t -> above p q ->
  polarAngle p t = polarAngle p q ->
  Vector2.distanceTo t p <= Vector2.distanceTo q p ->
  dominated [p; q] t.
Proof.
  intros Ht Hq Heq Hd d.
  destruct (polarAngle_eq_cross p t q Ht Hq Heq) as [H2 H3].
  apply distanceTo_le_sq in Hd. unfold crossProduct in H2.
  destruct (in_segment _ _ _ _ (Vector2.x d) (Vector2.y d) H2 H3 Hd) as [H|H];
    unfold Vector2.dot.
  - exists p. split; [simpl; tauto | lra].
  - exists q. split; [simpl; tauto | lra].
Qed.

(** The inner loop on a stack that obeys the invariants. *)
Lemma popWhile_scan (p q : Vector2.t) (l : list Vector2.t) :
  (forall s, In s l -> above p s) ->
  StronglySorted (steeper p) l ->
  stackConvex (l ++ [p]) ->
  above p q ->
  (forall s, In s l -> polarLe p s q) ->
  exists l',
    popWhile (l ++ [p]) q = l' ++ [p]
    /\ (exists popped, l = popped ++ l')
    /\ (forall s, In s l' -> polarAngle p s < polarAngle p q)
    /\ stackConvex (q :: l' ++ [p])
    /\ (forall x, In x (l ++ [p]) -> dominated (q :: l' ++ [p]) x).
Proof.
  intros Habove Hsorted Hconvex Hq Hle.
  induction l as [|t l IH].
  - exists []. cbn [app popWhile]. split; [reflexivity|]. split; [now exists []|].
    split; [intros s []|]. split; [exact I|].
    intros x Hx. apply dominated_in. now right.
  - assert (Ht : above p t) by (apply Habove; now left).
    assert (Htq : polarLe p t q) by (apply Hle; now left).
    apply StronglySorted_inv in Hsorted as [Hsorted Hall].
    rewrite Forall_forall in Hall.
    destruct l as [|s l].
    + cbn [app popWhile].
      destruct (Rle_dec (crossProduct p t q) 0) as [Hpop|Hkeep].
      * exists []. cbn [app]. split; [reflexivity|]. split; [now exists [t]|].
        split; [intros s []|]. split; [exact I|].
        intros x [<-|[<-|[]]]; [|apply dominated_in; simpl; tauto].
        destruct Htq as [Hlt|[Heq Hd]].
        -- pose proof (polarAngle_lt_cross p t q Ht Hq Hlt). lra.
        -- apply (dominated_trans [p; q]); [|now apply dominated_segment].
           intros s Hs. apply dominated_in. simpl in *. tauto.
      * exists [t]. cbn [app]. split; [reflexivity|]. split; [now exists []|].
        assert (Hlt : polarAngle p t < polarAngle p q).
        { destruct Htq as [Hlt|[Heq Hd]]; [assumption|].
          destruct (polarAngle_eq_cross p t q Ht Hq Heq) as [E _]. lra. }
        split; [intros s [<-|[]]; assumption|].
        split; [simpl; split; [lra | exact I]|].
        intros x Hx. apply dominated_in. now right.
    + assert (Hs : above p s) by (apply Habove; right; now left).
      assert (Hst : polarAngle p s < polarAngle p t) by (apply Hall; now left).
      cbn [app popWhile].
      destruct (Rle_dec (crossProduct s t q) 0) as [Hpop|Hkeep].
      * destruct IH as (l' & E & (popped & Epop) & Hlt & Hcv & Hdom).
        -- intros x Hx. apply Habove. now right.
        -- assumption.
        -- now apply stackConvex_tail in Hconvex.
        -- intros x Hx. apply Hle. now right.
        -- exists l'. cbn [app] in E. split; [exact E|].
           split; [exists (t :: popped); rewrite Epop; reflexivity|].
           split; [assumption|]. split; [assumption|].
           intros x [<-|Hx]; [|now apply Hdom].
           apply (dominated_trans [p; s; q]).
           ++ intros y [<-|[<-|[<-|[]]]].
              ** apply Hdom. apply in_or_app. right. now left.
              ** apply Hdom. now left.
              ** apply dominated_in. now left.
           ++ apply dominated_triangle.
              ** left. now apply polarAngle_lt_cross.
              ** now apply polarLe_cross.
              ** apply polarAngle_lt_cross; [assumption | assumption|].
                 destruct Htq as [H|[H _]]; lra.
              ** assumption.
      * exists (t :: s :: l). cbn [app]. split; [reflexivity|]. split; [now exists []|].
        assert (Hlt : polarAngle p t < polarAngle p q).
        { destruct Htq as [Hlt|[Heq Hd]]; [assumption|].
          pose proof (pop_same_ray p s t q Hs Ht Hq Hst Heq Hd). lra. }
        split.
        { intros x [<-|Hx]; [assumption|]. specialize (Hall x Hx). unfold steeper in Hall. lra. }
        split.
        { change (0 < crossProduct s t q /\ stackConvex (t :: s :: l ++ [p])).
          split; [lra | assumption]. }
        intros x Hx. apply dominated_in. now right.
Qed.

Lemma StronglySorted_suffix {A : Type} (R : A -> A -> Prop) (l1 l2 : list A) :
  StronglySorted R (l1 ++ l2) -> StronglySorted R l2.
Proof.
  induction l1 as [|a l1 IH]; simpl; [auto|].
  intros H. apply StronglySorted_inv in H as [H _]. auto.
Qed.

(** The scan loop on a stack that obeys the invariants. *)
Lemma scan_invariant (p : Vector2.t) (rest l : list Vector2.t) :
  l <> [] ->
  (forall s, In s l -> above p s) ->
  StronglySorted (steeper p) l ->
  stackConvex (l ++ [p]) ->
  (forall q, In q rest -> above p q) ->
  StronglySorted (polarLe p) rest ->
  (forall s q, In s l -> In q rest -> polarLe p s q) ->
  exists l',
    fold_left scanStep rest (l ++ [p]) = l' ++ [p]
    /\ l' <> []
    /\ (forall s, In s l' -> above p s /\ (In s l \/ In s rest))
    /\ StronglySorted (steeper p) l'
    /\ stackConvex (l' ++ [p])
    /\ (forall x, In x ((l ++ [p]) ++ rest) -> dominated (l' ++ [p]) x).
Proof.
  revert l; induction rest as [|q rest IH]; intros l Hne Habove Hsorted Hconvex Hrest Hrs Hle.
  - exists l. cbn [fold_left]. rewrite app_nil_r.
    split; [reflexivity|]. split; [assumption|].
    split; [intros s Hs; split; [now apply Habove | now left]|].
    split; [assumption|]. split; [assumption|].
    intros x Hx. now apply dominated_in.
  - cbn [fold_left]. unfold scanStep at 2.
    assert (Hq : above p q) by (apply Hrest; now left).
    destruct (popWhile_scan p q l Habove Hsorted Hconvex Hq)
      as (l1 & E & (popped & Epop) & Hlt & Hcv & Hdom).
    { intros s Hs. apply Hle; [assumption | now left]. }
    rewrite E.
    apply StronglySorted_inv in Hrs as [Hrs Hq_le]. rewrite Forall_forall in Hq_le.
    assert (Hsub : forall s, In s l1 -> In s l).
    { intros s Hs. rewrite Epop. apply in_or_app. now right. }
    destruct (IH (q :: l1)) as (l' & E' & Hne' & Hin' & Hs' & Hcv' & Hdom').
    + discriminate.
    + intros s [<-|Hs]; [assumption | apply Habove; auto].
    + constructor.
      * rewrite Epop in Hsorted. now apply StronglySorted_suffix in Hsorted.
      * rewrite Forall_forall. intros s Hs. now apply Hlt.
    + exact Hcv.
    + intros x Hx. apply Hrest. now right.
    + assumption.
    + intros s x [<-|Hs] Hx; [now apply Hq_le|]. apply Hle; [auto | now right].
    + exists l'. split; [exact E'|]. split; [assumption|]. split.
      { intros s Hs. destruct (Hin' s Hs) as [Ha [[<-|Hl]|Hr]].
        - split; [assumption|]. right. now left.
        - split; [assumption|]. left. auto.
        - split; [assumption|]. right. now right. }
      split; [assumption|]. split; [assumption|].
      intros x Hx. apply in_app_or in Hx as [Hx|[<-|Hx]].
      * apply (dominated_trans (q :: l1 ++ [p])); [|now apply Hdom].
        intros y Hy. apply Hdom'. apply in_or_app. now left.
      * apply Hdom'. apply in_or_app. left. now left.
      * apply Hdom'. apply in_or_app. now right.
Qed.

(** The hull of at least three distinct points whose polar angles are
    separated: the stack of the scan. *)
Lemma grahamScan_stack (points : list Vector2.t) :
  (3 <= length points)%nat ->
  NoDup points ->
  separatedAroundPivot points ->
  exists l,
    grahamScan points = rev (l ++ [pivot points])
    /\ l <> []
    /\ (forall s, In s l -> above (pivot points) s /\ In s points)
    /\ StronglySorted (steeper (pivot points)) l
    /\ stackConvex (l ++ [pivot points])
    /\ (forall x, In x points -> dominated (l ++ [pivot points]) x).
Proof.
  intros H3 Hnd Hsep.
  assert (Hne : points <> []) by (destruct points; simpl in *; [lia | discriminate]).
  destruct (sortedPoints_spec points Hne) as (others & Esort & Hperm & Hlow).
  set (p := pivot points) in *.
  assert (Hothers : forall q, In q others -> In q points /\ above p q).
  { intros q Hq.
    assert (Hin : In q points) by (apply (Permutation_in _ (Permutation_sym Hperm)); now right).
    split; [assumption|]. apply lowerEq_above; [now apply Hlow|].
    apply (Permutation_NoDup Hperm) in Hnd. apply NoDup_cons_iff in Hnd as [Hnotin _].
    intros ->. contradiction. }
  assert (Hsorted : StronglySorted (polarLe p) (Array_sort (polarCompare p) others)).
  { apply sorted_by_polarLe. intros a b Ha Hb.
    destruct (Hothers a Ha) as [Hina Haa]. destruct (Hothers b Hb) as [Hinb Hab].
    apply Hsep; try assumption.
    - intros E. rewrite E in Haa. unfold above, p in Haa. lra.
    - intros E. rewrite E in Hab. unfold above, p in Hab. lra. }
  pose proof (Array_sort_perm (polarCompare p) others) as Hps.
  unfold grahamScan. destruct (Nat.ltb_spec (length points) 3); [lia|].
  rewrite Esort.
  destruct (Array_sort (polarCompare p) others) as [|s1 rest] eqn:Es.
  { exfalso. apply Permutation_length in Hperm, Hps. simpl in *. lia. }
  assert (Hmem : forall q, In q (s1 :: rest) -> In q points /\ above p q).
  { intros q Hq. apply Hothers. now apply (Permutation_in _ Hps). }
  apply StronglySorted_inv in Hsorted as [Hsorted Hs1]. rewrite Forall_forall in Hs1.
  destruct (scan_invariant p rest [s1]) as (l & E & Hl & Hin & Hs & Hcv & Hdom).
  - discriminate.
  - intros s [<-|[]]. apply Hmem. now left.
  - repeat constructor.
  - exact I.
  - intros q Hq. apply Hmem. now right.
  - assumption.
  - intros s q [<-|[]] Hq. now apply Hs1.
  - cbn [app] in E. exists l. rewrite E. split; [reflexivity|]. split; [assumption|].
    split.
    { intros s Hs'. destruct (Hin s Hs') as [Ha Hor]. split; [assumption|].
      apply Hmem. destruct Hor as [[<-|[]]|Hr]; [now left | now right]. }
    split; [assumption|]. split; [assumption|].
    intros x Hx. apply Hdom.
    apply (Permutation_in _ Hperm) in Hx. destruct Hx as [<-|Hx].
    + apply in_or_app. left. right. now left.
    + apply (Permutation_in _ (Permutation_sym Hps)) in Hx.
      destruct Hx as [<-|Hx]; [apply in_or_app; left; now left|].
      apply in_or_app. now right.
Qed.

(** ** Convexity of the hull *)

Lemma crossProduct_cycle (a b c : Vector2.t) :
  crossProduct a b c = crossProduct c a b.
Proof. unfold crossProduct. ring. Qed.

Lemma stackConvex_nth (stack : list Vector2.t) (j : nat) :
  stackConvex stack -> (j + 2 < length stack)%nat ->
  0 < crossProduct (nth (j + 2) stack Vector2.zero)
                   (nth (j + 1) stack Vector2.zero)
                   (nth j stack Vector2.zero).
Proof.
  revert j; induction stack as [|c stack IH]; intros j Hcv Hj; [simpl in Hj; lia|].
  destruct j as [|j].
  - destruct stack as [|b [|a stack]]; simpl in *; try lia. tauto.
  - apply stackConvex_tail in Hcv. simpl in Hj.
    replace (S j + 2)%nat with (S (j + 2)) by lia.
    replace (S j + 1)%nat with (S (j + 1)) by lia.
    cbn [nth]. apply IH; [assumption | lia].
Qed.

Lemma StronglySorted_nth {A : Type} (R : A -> A -> Prop) (l : list A) (d : A)
    (i j : nat) :
  StronglySorted R l -> (i < j < length l)%nat -> R (nth i l d) (nth j l d).
Proof.
  intros Hs. revert i j; induction Hs as [|a l Hs IH Hall]; intros i j Hij;
    [simpl in Hij; lia|].
  destruct j as [|j]; [lia|]. destruct i as [|i]; cbn [nth].
  - rewrite Forall_forall in Hall. apply Hall. apply nth_In. simpl in Hij. lia.
  - apply IH. simpl in Hij. lia.
Qed.

(** Points squeezed between two points are all on one line. *)
Lemma dominated_pair_collinear (p t : Vector2.t) (points : list Vector2.t) :
  t <> p ->
  (forall x, In x points -> dominated [t; p] x) ->
  forall a b c, In a points -> In b points -> In c points ->
    crossProduct a b c = 0.
Proof.
  intros Hne Hdom.
  assert (Hline : forall x, In x points -> crossProduct p t x = 0).
  { intros x Hx. unfold crossProduct.
    apply between_collinear. intros d1 d2.
    destruct (Hdom x Hx (Vector2.mk d1 d2)) as (s & [<-|[<-|[]]] & Hle);
      unfold Vector2.dot in Hle; simpl in Hle; [right | left]; lra. }
  intros a b c Ha Hb Hc.
  pose proof (Hline a Ha) as La. pose proof (Hline b Hb) as Lb.
  pose proof (Hline c Hc) as Lc. unfold crossProduct in *.
  set (w1 := Vector2.x t - Vector2.x p) in *.
  set (w2 := Vector2.y t - Vector2.y p) in *.
  assert (Hw : 0 < w1 * w1 + w2 * w2).
  { destruct (Req_dec w1 0) as [E1|]; destruct (Req_dec w2 0) as [E2|]; try nra.
    exfalso. apply Hne. unfold w1, w2 in *. destruct t, p. simpl in *.
    f_equal; lra. }
  set (X1 := Vector2.x b - Vector2.x a). set (X2 := Vector2.y b - Vector2.y a).
  set (Y1 := Vector2.x c - Vector2.x a). set (Y2 := Vector2.y c - Vector2.y a).
  assert (HX : w1 * X2 - w2 * X1 = 0) by (unfold X1, X2; lra).
  assert (HY : w1 * Y2 - w2 * Y1 = 0) by (unfold Y1, Y2; lra).
  assert (I : (w1 * w1 + w2 * w2) * (X1 * Y2 - X2 * Y1)
              = (w1 * X1 + w2 * X2) * (w1 * Y2 - w2 * Y1)
                - (w1 * Y1 + w2 * Y2) * (w1 * X2 - w2 * X1)) by ring.
  rewrite HX, HY in I.
  clearbody X1 X2 Y1 Y2 w1 w2. nra.
Qed.

Lemma above_neq (p q : Vector2.t) : above p q -> q <> p.
Proof. intros H ->. unfold above in H. lra. Qed.

(** The hull of at least three distinct, non-collinear points with
    separated polar angles has at least three vertices and turns strictly
    left at every vertex, the wrap-around included. *)
Lemma grahamScan_convex (points : list Vector2.t) :
  (3 <= length points)%nat ->
  NoDup points ->
  nonCollinear points ->
  separatedAroundPivot points ->
  (3 <= length (grahamScan points))%nat
  /\ strictlyConvexCCW (grahamScan points).
Proof.
  intros H3 Hnd (a & b & c & Ha & Hb & Hc & Hncol) Hsep.
  destruct (grahamScan_stack points H3 Hnd Hsep)
    as (l & E & Hl & Hin & Hs & Hcv & Hdom).
  set (p := pivot points) in *.
  destruct l as [|t0 l]; [congruence|].
  destruct l as [|t1 l].
  { exfalso. apply Hncol.
    apply (dominated_pair_collinear p t0 points); try assumption.
    apply above_neq. apply Hin. now left. }
  rewrite E. set (stack := (t0 :: t1 :: l) ++ [p]).
  assert (Hn : length stack = (length l + 3)%nat)
    by (unfold stack; rewrite length_app; simpl; lia).
  split; [rewrite length_rev; lia|].
  assert (Htop : forall j, (0 < j < length (t0 :: t1 :: l))%nat ->
            0 < crossProduct p (nth j (t0 :: t1 :: l) Vector2.zero) t0).
  { intros j Hj. apply polarAngle_lt_cross.
    - apply Hin. apply nth_In. lia.
    - apply Hin. now left.
    - apply (StronglySorted_nth _ _ Vector2.zero 0 j Hs). lia. }
  assert (Hnth : forall i, (i < length stack)%nat ->
            nth i (rev stack) Vector2.zero = nth (length stack - S i) stack Vector2.zero).
  { intros i Hi. now apply rev_nth. }
  intros i Hi. rewrite length_rev in *. rewrite Hn in Hi.
  destruct (Nat.lt_ge_cases (i + 2) (length stack)) as [Hlow|Hhigh].
  - rewrite !Nat.mod_small by lia. rewrite !Hnth by lia.
    pose proof (stackConvex_nth stack (length stack - 3 - i) Hcv) as H.
    replace (length stack - 3 - i + 2)%nat with (length stack - S i)%nat in H by lia.
    replace (length stack - 3 - i + 1)%nat with (length stack - S (S i))%nat in H by lia.
    replace (length stack - 3 - i)%nat with (length stack - S (S (S i)))%nat in H by lia.
    apply H. lia.
  - assert (Hi' : (i = length l + 1 \/ i = length l + 2)%nat) by lia.
    destruct Hi' as [-> | ->].
    + replace (S (length l + 1) mod length stack)%nat with (length l + 2)%nat
        by (rewrite Nat.mod_small; lia).
      replace (S (S (length l + 1)) mod length stack)%nat with 0%nat
        by (replace (S (S (length l + 1))) with (length stack) by lia;
            now rewrite Nat.Div0.mod_same).
      rewrite !Hnth by lia. rewrite Hn.
      replace (length l + 3 - S (length l + 1))%nat with 1%nat by lia.
      replace (length l + 3 - S (length l + 2))%nat with 0%nat by lia.
      replace (length l + 3 - 1)%nat with (length (t0 :: t1 :: l)) by (simpl; lia).
      unfold stack. rewrite nth_middle. cbn [nth app].
      rewrite crossProduct_cycle. apply (Htop 1%nat). simpl. lia.
    + replace (S (length l + 2) mod length stack)%nat with 0%nat
        by (replace (S (length l + 2)) with (length stack) by lia;
            now rewrite Nat.Div0.mod_same).
      replace (S (S (length l + 2)) mod length stack)%nat with 1%nat.
      2:{ replace (S (S (length l + 2))) with (1 + 1 * length stack)%nat by lia.
          rewrite Nat.Div0.mod_add, Nat.mod_small; lia. }
      rewrite !Hnth by lia. rewrite Hn.
      replace (length l + 3 - S (length l + 2))%nat with 0%nat by lia.
      replace (length l + 3 - 1)%nat with (length (t0 :: t1 :: l)) by (simpl; lia).
      replace (length l + 3 - 2)%nat with (S (length l)) by lia.
      unfold stack. rewrite nth_middle.
      change (nth 0 ((t0 :: t1 :: l) ++ [p]) Vector2.zero) with t0.
      replace (nth (S (length l)) ((t0 :: t1 :: l) ++ [p]) Vector2.zero)
        with (nth (S (length l)) (t0 :: t1 :: l) Vector2.zero)
        by (symmetry; apply app_nth1; simpl; lia).
      rewrite 2 crossProduct_cycle. apply Htop. simpl. lia.
Qed.

(** ** Concrete runs of grahamScan *)

(** Decide the comparisons of a concrete run. *)
Ltac case_R :=
  match goal with
  | |- context [Rlt_dec ?a ?b] => destruct (Rlt_dec a b); try (exfalso; lra)
  | |- context [Rle_dec ?a ?b] => destruct (Rle_dec a b); try (exfalso; lra)
  | |- context [Req_dec_T ?a ?b] => destruct (Req_dec_T a b); try (exfalso; lra)
  end.

Lemma pivot_nearlyCollinear :
  findBottom (tl nearlyCollinear) 1 (Vector2.mk (-1) (- (1 / 10 ^ 11))) 0
  = (Vector2.mk (-1) (- (1 / 10 ^ 11)), 0%nat).
Proof.
  unfold nearlyCollinear. cbn [tl findBottom].
  unfold isLower. cbn [Vector2.x Vector2.y]. repeat case_R. reflexivity.
Qed.

Lemma atan_small (x : R) : 0 < x -> 0 < atan x < x.
Proof.
  intros H. split; [|now apply atan_lt_id].
  rewrite <- atan_0. now apply atan_increasing.
Qed.

(** The comparator puts the nearer point first although its angle is the
    larger one: the two angles differ by less than the tolerance. *)
Lemma polarCompare_nearlyCollinear :
  polarCompare (Vector2.mk (-1) (- (1 / 10 ^ 11)))
    (Vector2.mk 0 (2 / 10 ^ 11)) (Vector2.mk 1 (- (1 / 10 ^ 11))) <= 0.
Proof.
  unfold polarCompare. cbn [Vector2.x Vector2.y].
  rewrite !atan2_right by lra.
  replace ((- (1 / 10 ^ 11) - - (1 / 10 ^ 11)) / (1 - -1)) with 0 by (field; lra).
  rewrite atan_0.
  assert (Hpos : 0 < (2 / 10 ^ 11 - - (1 / 10 ^ 11)) / (0 - -1)) by lra.
  pose proof (atan_small _ Hpos) as [H0 H1].
  unfold Math.abs. rewrite Rminus_0_r, Rabs_pos_eq by lra.
  destruct (Rlt_dec _ _) as [_|Hfar]; [|exfalso; lra].
  unfold Vector2.distanceTo. cbn [Vector2.x Vector2.y].
  apply Rle_minus. apply sqrt_le_1_alt. lra.
Qed.

Lemma grahamScan_nearlyCollinear :
  grahamScan nearlyCollinear
  = [Vector2.mk (-1) (- (1 / 10 ^ 11)); Vector2.mk 1 (- (1 / 10 ^ 11))].
Proof.
  pose proof pivot_nearlyCollinear as Hp.
  unfold grahamScan, sortedPoints, nearlyCollinear in *.
  cbn [length Nat.ltb Nat.leb tl] in *. rewrite Hp.
  cbn [filter_index Nat.eqb negb Array_sort fold_right insert].
  destruct (Rle_dec _ 0) as [_|H]; [|exfalso; apply H, polarCompare_nearlyCollinear].
  cbn [fold_left]. unfold scanStep. cbn [popWhile].
  unfold crossProduct. cbn [Vector2.x Vector2.y].
  destruct (Rle_dec _ 0) as [_|H]; [|exfalso; lra].
  reflexivity.
Qed.

Lemma pivot_centredTriangle : pivot centredTriangle = Vector2.mk (0 - 1) (0 - 1).
Proof.
  unfold pivot, centredTriangle. cbn [findBottom].
  unfold isLower. cbn [Vector2.x Vector2.y]. repeat case_R. reflexivity.
Qed.

Lemma polarAngle_centredTriangle :
  polarAngle (Vector2.mk (0 - 1) (0 - 1)) (Vector2.mk (3 - 1) (0 - 1)) = 0
  /\ polarAngle (Vector2.mk (0 - 1) (0 - 1)) (Vector2.mk (0 - 1) (3 - 1)) = PI / 2.
Proof.
  unfold polarAngle, Math.atan2. cbn [Vector2.x Vector2.y]. split.
  - repeat case_R.
    replace ((0 - 1 - (0 - 1)) / (3 - 1 - (0 - 1))) with 0 by (field; lra).
    apply atan_0.
  - repeat case_R. reflexivity.
Qed.

Lemma centredTriangle_separated : separatedAroundPivot centredTriangle.
Proof.
  unfold separatedAroundPivot. rewrite pivot_centredTriangle.
  destruct polarAngle_centredTriangle as [E0 E1].
  pose proof PI2_1 as Hpi. pose proof tolerance_pos as Htol.
  assert (Hsmall : 1 / 10 ^ 10 <= 1) by lra.
  intros a b [<-|[<-|[<-|[]]]] [<-|[<-|[<-|[]]]] Ha Hb;
    try congruence; try (now left); right; rewrite ?E0, ?E1.
  - rewrite Rabs_left by lra. lra.
  - rewrite Rabs_pos_eq by lra. lra.
Qed.

Lemma centredTriangle_nonCollinear : nonCollinear centredTriangle.
Proof.
  exists (Vector2.mk (0 - 1) (0 - 1)), (Vector2.mk (3 - 1) (0 - 1)),
         (Vector2.mk (0 - 1) (3 - 1)).
  unfold centredTriangle, crossProduct. simpl. repeat split; auto; lra.
Qed.

Lemma centredTriangle_NoDup : NoDup centredTriangle.
Proof.
  unfold centredTriangle. repeat constructor; simpl; intros H;
    repeat (destruct H as [H|H]; [injection H; intros; lra|]); assumption.
Qed.

Lemma nearlyCollinear_NoDup : NoDup nearlyCollinear.
Proof.
  unfold nearlyCollinear. repeat constructor; simpl; intros H;
    repeat (destruct H as [H|H]; [injection H; intros; lra|]); assumption.
Qed.

Lemma nearlyCollinear_nonCollinear : nonCollinear nearlyCollinear.
Proof.
  exists (Vector2.mk (-1) (- (1 / 10 ^ 11))), (Vector2.mk 0 (2 / 10 ^ 11)),
         (Vector2.mk 1 (- (1 / 10 ^ 11))).
  unfold nearlyCollinear, crossProduct. simpl. repeat split; auto; lra.
Qed.

(** ** Unit directions and the rotation *)

Lemma sqrt_one_plus_sqr (x y : R) :
  x <> 0 -> x * x + y * y = 1 -> sqrt (1 + (y / x)²) = / Rabs x.
Proof.
  intros Hx Hu. assert (Ha : 0 < Rabs x) by now apply Rabs_pos_lt.
  apply sqrt_lem_1.
  - unfold Rsqr. pose proof (Rle_0_sqr (y / x)) as H. unfold Rsqr in H. lra.
  - left. now apply Rinv_0_lt_compat.
  - unfold Rsqr.
    assert (Hxx : Rabs x * Rabs x = x * x).
    { unfold Rabs. destruct (Rcase_abs x); ring. }
    replace (/ Rabs x * / Rabs x) with (/ (x * x))
      by (rewrite <- Hxx; field; lra).
    replace (1 + y / x * (y / x)) with ((x * x + y * y) / (x * x)) by (field; lra).
    rewrite Hu. field. lra.
Qed.

(** The angle [Math.atan2] returns for a unit vector has that vector as
    its cosine and sine. *)
Lemma unit_cos_sin (x y : R) :
  x * x + y * y = 1 ->
  cos (Math.atan2 y x) = x /\ sin (Math.atan2 y x) = y.
Proof.
  intros Hu. unfold Math.atan2.
  destruct (Rlt_dec 0 x) as [Hpos|Hnpos].
  - rewrite cos_atan, sin_atan, sqrt_one_plus_sqr by lra.
    rewrite Rabs_pos_eq by lra. split; field; lra.
  - destruct (Rlt_dec x 0) as [Hneg|Hnneg].
    + assert (Hc : cos (atan (y / x)) = - x).
      { rewrite cos_atan, sqrt_one_plus_sqr by lra.
        rewrite Rabs_left by lra. field. lra. }
      assert (Hs : sin (atan (y / x)) = - y).
      { rewrite sin_atan, sqrt_one_plus_sqr by lra.
        rewrite Rabs_left by lra. field. lra. }
      destruct (Rle_dec 0 y).
      * rewrite cos_plus, sin_plus, Hc, Hs, cos_PI, sin_PI. split; ring.
      * rewrite cos_minus, sin_minus, Hc, Hs, cos_PI, sin_PI. split; ring.
    + assert (Hx : x = 0) by lra. subst x.
      destruct (Rlt_dec 0 y).
      * rewrite cos_PI2, sin_PI2. split; nra.
      * destruct (Rlt_dec y 0); [|nra].
        rewrite cos_neg, sin_neg, cos_PI2, sin_PI2. split; nra.
Qed.

Lemma normalize_unit (e : Vector2.t) :
  e <> Vector2.zero ->
  Vector2.x (Vector2.normalize e) * Vector2.x (Vector2.normalize e)
  + Vector2.y (Vector2.normalize e) * Vector2.y (Vector2.normalize e) = 1.
Proof.
  intros Hne. destruct e as [ex ey].
  assert (Hpos : 0 < ex * ex + ey * ey).
  { destruct (Req_dec ex 0) as [->|]; destruct (Req_dec ey 0) as [->|]; try nra.
    exfalso. now apply Hne. }
  unfold Vector2.normalize, Vector2.divideScalar, Vector2.length.
  cbn [Vector2.x Vector2.y].
  pose proof (sqrt_lt_R0 _ Hpos) as HL.
  pose proof (sqrt_sqrt (ex * ex + ey * ey) (Rlt_le _ _ Hpos)) as HLL.
  set (L := sqrt (ex * ex + ey * ey)) in *.
  destruct (Req_dec_T L 0); [lra|].
  replace (ex / L * (ex / L) + ey / L * (ey / L))
    with ((ex * ex + ey * ey) / (L * L)) by (field; lra).
  rewrite HLL. field. lra.
Qed.

(** [toLocal] undoes the map from local to world coordinates that
    [toBox3] applies to the corners: rotate, then add the centre. *)
Lemma toLocal_inverse (c h w : Vector3.t) (theta : R) :
  let this := mkMBR c h (Matrix4.makeRotationY theta) in
  Vector3.add (Vector3.applyMatrix4 (toLocal this w) (rotation this))
              (center this) = w.
Proof.
  destruct w as [wx wy wz], c as [cx cy cz].
  unfold toLocal, Vector3.applyMatrix4, Vector3.add, Matrix4.makeRotationY.
  cbn [rotation center Vector3.x Vector3.y Vector3.z
       Matrix4.n11 Matrix4.n12 Matrix4.n13 Matrix4.n14
       Matrix4.n21 Matrix4.n22 Matrix4.n23 Matrix4.n24
       Matrix4.n31 Matrix4.n32 Matrix4.n33 Matrix4.n34
       Matrix4.n41 Matrix4.n42 Matrix4.n43 Matrix4.n44].
  pose proof (sin2_cos2 theta) as H. unfold Rsqr in H.
  set (s := sin theta) in *. set (c := cos theta) in *.
  replace (1 / (0 * (c * (wx - cx) + 0 * (wy - cy) + - s * (wz - cz))
                + 0 * (0 * (wx - cx) + 1 * (wy - cy) + 0 * (wz - cz))
                + 0 * (s * (wx - cx) + 0 * (wy - cy) + c * (wz - cz)) + 1))
    with 1 by (field; lra).
  f_equal.
  - transitivity ((s * s + c * c) * (wx - cx) + cx); [ring | rewrite H; ring].
  - ring.
  - transitivity ((s * s + c * c) * (wz - cz) + cz); [ring | rewrite H; ring].
Qed.

(** ** The box contains the stored points *)

Lemma keptTriples_first (cx cz : R) (ts : list Vector3.t) (seen : list (Z * Z))
    (i : nat) (p : Vector3.t) :
  nth_error ts i = Some p ->
  ~ In (keyOf cx cz p) seen ->
  (forall j q, (j < i)%nat -> nth_error ts j = Some q ->
     keyOf cx cz q <> keyOf cx cz p) ->
  In p (keptTriples cx cz seen ts).
Proof.
  revert seen i; induction ts as [|q ts IH]; intros seen i Hi Hseen Hfirst;
    [destruct i; discriminate|].
  cbn [keptTriples]. destruct i as [|i].
  - injection Hi as ->.
    destruct (existsb (key_eqb (keyOf cx cz p)) seen) eqn:E; [|now left].
    apply seen_In in E. contradiction.
  - cbn [nth_error] in Hi.
    assert (Hq : keyOf cx cz q <> keyOf cx cz p) by (apply (Hfirst 0%nat); [lia | reflexivity]).
    assert (Hrest : forall j r, (j < i)%nat -> nth_error ts j = Some r ->
                      keyOf cx cz r <> keyOf cx cz p).
    { intros j r Hj Hr. apply (Hfirst (S j)); [lia | exact Hr]. }
    destruct (existsb (key_eqb (keyOf cx cz q)) seen).
    + now apply (IH seen i).
    + right. apply (IH _ i); try assumption.
      intros [E|Hin]; [now apply Hq | contradiction].
Qed.

Lemma keptTriples_keys (cx cz : R) (ts : list Vector3.t) (seen : list (Z * Z)) :
  NoDup (map (keyOf cx cz) (keptTriples cx cz seen ts))
  /\ forall p, In p (keptTriples cx cz seen ts) -> ~ In (keyOf cx cz p) seen.
Proof.
  revert seen; induction ts as [|q ts IH]; intros seen; cbn [keptTriples].
  - split; [constructor | intros p []].
  - destruct (existsb (key_eqb (keyOf cx cz q)) seen) eqn:E; [apply IH|].
    destruct (IH (keyOf cx cz q :: seen)) as [Hnd Hnot]. split.
    + cbn [map]. constructor; [|assumption].
      intros Hin. apply in_map_iff in Hin as (p & Ep & Hp).
      apply (Hnot p Hp). left. now symmetry.
    + intros p [<-|Hp].
      * intros Hin. apply seen_In in Hin. congruence.
      * intros Hin. apply (Hnot p Hp). now right.
Qed.

(** Every triple shares its key with the first triple of that key. *)
Lemma first_of_key_exists (cx cz : R) (ts : list Vector3.t) (p : Vector3.t) :
  In p ts ->
  exists i q,
    nth_error ts i = Some q
    /\ keyOf cx cz q = keyOf cx cz p
    /\ forall j r, (j < i)%nat -> nth_error ts j = Some r ->
         keyOf cx cz r <> keyOf cx cz q.
Proof.
  induction ts as [|a ts IH]; intros Hin; [destruct Hin|].
  destruct (key_eqb (keyOf cx cz a) (keyOf cx cz p)) eqn:E.
  - apply key_eqb_eq in E. exists 0%nat, a.
    split; [reflexivity|]. split; [exact E|]. intros j r Hj. lia.
  - assert (Hne : keyOf cx cz a <> keyOf cx cz p).
    { intros Heq. apply key_eqb_eq in Heq. congruence. }
    destruct Hin as [->|Hin]; [congruence|].
    destruct (IH Hin) as (i & q & Hi & Hq & Hfirst).
    exists (S i), q. split; [exact Hi|]. split; [exact Hq|].
    intros [|j] r Hj Hr.
    + injection Hr as <-. congruence.
    + apply (Hfirst j); [lia | exact Hr].
Qed.

(** Deduplication leaves pairwise distinct projections. *)
Lemma points2D_NoDup (points : list R) : NoDup (points2D (dedup points)).
Proof.
  rewrite dedup_kept. cbn [points2D].
  set (cx := fst (centroid points)). set (cz := snd (centroid points)).
  destruct (keptTriples_keys cx cz (triples points) []) as [Hnd _].
  apply (NoDup_map_inv (fun v => key (Vector2.x v) (Vector2.y v))).
  rewrite map_map. exact Hnd.
Qed.

Lemma kept_in_points2D (points : list R) (p : Vector3.t) :
  In p (keptTriples (fst (centroid points)) (snd (centroid points)) []
          (triples points)) ->
  In (project (fst (centroid points)) (snd (centroid points)) p)
     (points2D (dedup points)).
Proof. rewrite dedup_kept. cbn [points2D]. apply in_map. Qed.

Lemma dominated_projection (hull : list Vector2.t) (v dir : Vector2.t)
    (lo hi : R) :
  (forall h, In h hull -> lo <= Vector2.dot h dir <= hi) ->
  dominated hull v -> lo <= Vector2.dot v dir <= hi.
Proof.
  intros Hb Hdom. split.
  - destruct (Hdom (Vector2.mk (- Vector2.x dir) (- Vector2.y dir)))
      as (s & Hs & Hle).
    specialize (Hb s Hs). unfold Vector2.dot in *. simpl in Hle. lra.
  - destruct (Hdom dir) as (s & Hs & Hle). specialize (Hb s Hs). lra.
Qed.

Lemma convex_edge_unit (hull : list Vector2.t) (i : nat) :
  strictlyConvexCCW hull -> (i < length hull)%nat ->
  Vector2.x (edgeDirection hull i) * Vector2.x (edgeDirection hull i)
  + Vector2.y (edgeDirection hull i) * Vector2.y (edgeDirection hull i) = 1.
Proof.
  intros Hcv Hi. unfold edgeDirection. apply normalize_unit.
  specialize (Hcv i Hi). unfold crossProduct in Hcv.
  intros E. injection E as E1 E2. rewrite E1, E2 in Hcv. lra.
Qed.

(** The local coordinates of a point with respect to the rectangle of a
    unit direction. *)
Lemma inside_candidate (dir v : Vector2.t) (left right bottom top X Z cX cZ : R) :
  Vector2.x dir * Vector2.x dir + Vector2.y dir * Vector2.y dir = 1 ->
  left <= Vector2.dot v dir <= right ->
  bottom <= Vector2.dot v (Vector2.mk (- Vector2.y dir) (Vector2.x dir)) <= top ->
  Vector2.x v = X - cX -> Vector2.y v = Z - cZ ->
  let m := Matrix4.makeRotationY (- Math.atan2 (Vector2.y dir) (Vector2.x dir)) in
  let dx := X - ((left + right) * Vector2.x dir / 2
                 + (bottom + top) * (- Vector2.y dir) / 2 + cX) in
  let dz := Z - ((left + right) * Vector2.y dir / 2
                 + (bottom + top) * Vector2.x dir / 2 + cZ) in
  forall dy,
  Rabs (Matrix4.n11 m * dx + Matrix4.n21 m * dy + Matrix4.n31 m * dz)
    <= (right - left) * (1 / 2)
  /\ Rabs (Matrix4.n13 m * dx + Matrix4.n23 m * dy + Matrix4.n33 m * dz)
    <= (top - bottom) * (1 / 2).
Proof.
  intros Hu Hd Hp Hx Hz m dx dz dy.
  destruct (unit_cos_sin _ _ Hu) as [Hc Hs].
  unfold m, Matrix4.makeRotationY.
  cbn [Matrix4.n11 Matrix4.n21 Matrix4.n31 Matrix4.n13 Matrix4.n23 Matrix4.n33].
  rewrite cos_neg, sin_neg, Hc, Hs.
  destruct dir as [d1 d2], v as [v1 v2]. unfold Vector2.dot in *.
  cbn [Vector2.x Vector2.y] in *. subst v1 v2. unfold dx, dz.
  split; apply Rabs_le.
  - replace (d1 * (X - ((left + right) * d1 / 2 + (bottom + top) * - d2 / 2 + cX))
             + 0 * dy
             + - - d2 * (Z - ((left + right) * d2 / 2 + (bottom + top) * d1 / 2 + cZ)))
      with ((X - cX) * d1 + (Z - cZ) * d2 - (left + right) / 2 * (d1 * d1 + d2 * d2))
      by field.
    rewrite Hu. lra.
  - replace (- d2 * (X - ((left + right) * d1 / 2 + (bottom + top) * - d2 / 2 + cX))
             + 0 * dy
             + d1 * (Z - ((left + right) * d2 / 2 + (bottom + top) * d1 / 2 + cZ)))
      with ((X - cX) * - d2 + (Z - cZ) * d1 - (bottom + top) / 2 * (d1 * d1 + d2 * d2))
      by field.
    rewrite Hu. lra.
Qed.

(** The rectangle of a unit direction, with its finite extents. *)
Lemma candidate_extents (hull : list Vector2.t) (dir : Vector2.t) :
  hull <> [] ->
  exists left right bottom top,
    (forall h, In h hull -> left <= Vector2.dot h dir <= right)
    /\ (forall h, In h hull ->
          bottom <= Vector2.dot h (Vector2.mk (- Vector2.y dir) (Vector2.x dir)) <= top)
    /\ snd (candidate hull dir)
       = mkRect
           (Vector2.mk
              ((left + right) * Vector2.x dir / 2
               + (bottom + top) * (- Vector2.y dir) / 2)
              ((left + right) * Vector2.y dir / 2
               + (bottom + top) * Vector2.x dir / 2))
           (right - left) (top - bottom)
           (Math.atan2 (Vector2.y dir) (Vector2.x dir)).
Proof.
  intros Hne. unfold candidate.
  destruct (getExtremeProjections_spec hull dir Hne) as (lo & hi & -> & Hb & _).
  destruct (getExtremeProjections_spec hull
              (Vector2.mk (- Vector2.y dir) (Vector2.x dir)) Hne)
    as (lo' & hi' & -> & Hb' & _).
  exists lo, hi, lo', hi'. split; [assumption|]. split; [assumption|].
  reflexivity.
Qed.

Lemma fromPoints_contains (this : MinimumBoundingRectangle) (points : list R)
    (i : nat) (p : Vector3.t) :
  (9 <= length points)%nat ->
  (3 <= length (points2D (dedup points)))%nat ->
  nonCollinear (points2D (dedup points)) ->
  separatedAroundPivot (points2D (dedup points)) ->
  firstOfKey points i p ->
  insideBox (fromPoints this points) p.
Proof.
  intros H9 H3 Hnc Hsep [Hi Hfirst].
  pose proof (points2D_NoDup points) as Hnd.
  destruct (grahamScan_convex _ H3 Hnd Hnc Hsep) as [Hlen Hcv].
  destruct (grahamScan_stack _ H3 Hnd Hsep) as (l & Ehull & _ & _ & _ & _ & Hdom).
  set (hull := grahamScan (points2D (dedup points))) in *.
  assert (Hne : hull <> []) by (destruct hull; simpl in *; [lia | discriminate]).
  destruct (enhancedRotatingCalipers_first_minimum hull Hlen)
    as (pre & dir & post & Edirs & Eres & _).
  assert (Hunit : Vector2.x dir * Vector2.x dir + Vector2.y dir * Vector2.y dir = 1).
  { destruct (getUniqueEdgeDirections_spec hull) as [Hfrom _].
    destruct (Hfrom dir) as (k & Hk & ->).
    - rewrite Edirs. apply in_or_app. right. now left.
    - now apply convex_edge_unit. }
  destruct (candidate_extents hull dir Hne)
    as (left & right & bottom & top & Hb & Hb' & Ecand).
  set (cx := fst (centroid points)) in *. set (cz := snd (centroid points)) in *.
  assert (Hkept : In p (keptTriples cx cz [] (triples points))).
  { apply (keptTriples_first cx cz _ [] i); auto. }
  assert (Hv : dominated hull (project cx cz p)).
  { apply (dominated_trans (l ++ [pivot (points2D (dedup points))])).
    - intros s Hs. apply dominated_in. rewrite Ehull. now apply in_rev in Hs.
    - apply Hdom. now apply kept_in_points2D. }
  pose proof (dominated_projection hull _ dir left right Hb Hv) as Hd.
  pose proof (dominated_projection hull _ _ bottom top Hb' Hv) as Hp.
  destruct (dedup_extent points) as (lo & hi & Elo & Ehi & Hle & Hy).
  { destruct (points2D (dedup points)); simpl in *; [lia | discriminate]. }
  specialize (Hy p Hkept).
  rewrite fromPoints_success by assumption.
  fold hull. rewrite Eres, Ecand, Elo, Ehi.
  unfold insideBox, toLocal.
  cbn [center halfSizes rotation rcenter width height angle toR
       Vector3.x Vector3.y Vector3.z Vector2.x Vector2.y].
  fold cx cz.
  destruct (inside_candidate dir (project cx cz p) left right bottom top
              (Vector3.x p) (Vector3.z p) cx cz Hunit Hd Hp eq_refl eq_refl
              (Vector3.y p - (lo + hi) * (1 / 2))) as [Hx Hz].
  split; [exact Hx|]. split; [|exact Hz].
  unfold Matrix4.makeRotationY.
  cbn [Matrix4.n12 Matrix4.n22 Matrix4.n32].
  apply Rabs_le. lra.
Qed.

(** ** Concrete runs of fromPoints *)

Lemma centroid_nearlyCollinear3 : centroid (flat nearlyCollinear3) = (0, 0).
Proof. unfold centroid. simpl. f_equal; lra. Qed.

Lemma points2D_nearlyCollinear3 :
  points2D (dedup (flat nearlyCollinear3)) = nearlyCollinear
  /\ minY (dedup (flat nearlyCollinear3)) = Num (Rmin (Rmin 0 0) 0)
  /\ maxY (dedup (flat nearlyCollinear3)) = Num (Rmax (Rmax 0 0) 0).
Proof.
  unfold dedup. rewrite centroid_nearlyCollinear3.
  cbn [flat nearlyCollinear3 flat_map triples app Vector3.x Vector3.y Vector3.z].
  dedup_fresh (-1000000)%Z 0%Z.
  dedup_fresh 0%Z 0%Z.
  dedup_fresh 1000000%Z 0%Z.
  cbn [fold_left points2D minY maxY]. unfold nearlyCollinear.
  repeat split.
  repeat (f_equal; try lra).
Qed.

Lemma points2D_sampleTriangle :
  points2D (dedup (flat sampleTriangle)) = centredTriangle.
Proof. rewrite dedup_sampleTriangle. reflexivity. Qed.

(** ** The scan without an order on the points *)

(** The scan without any assumption on the order of the points: left turns
    are kept, the pivot stays at the bottom and nothing foreign enters the
    stack. *)
Lemma popWhile_convex (stack : list Vector2.t) (q : Vector2.t) :
  stackConvex stack -> stackConvex (q :: popWhile stack q).
Proof.
  induction stack as [|top stack IH]; intros Hcv; [exact I|].
  destruct stack as [|second stack]; [exact I|].
  cbn [popWhile].
  destruct (Rle_dec (crossProduct second top q) 0) as [Hpop|Hkeep].
  - apply IH. now apply stackConvex_tail in Hcv.
  - change (0 < crossProduct second top q /\ stackConvex (top :: second :: stack)).
    split; [lra | assumption].
Qed.



Lemma crossProduct_distinct (a b c : Vector2.t) :
  0 < crossProduct a b c -> a <> b /\ b <> c.
Proof.
  unfold crossProduct. intros H. split; intros ->; lra.
Qed.



Lemma hull_triple (stack : list Vector2.t) (i : nat) :
  stackConvex stack -> (i + 2 < length stack)%nat ->
  0 < crossProduct (nth i (rev stack) Vector2.zero)
                   (nth (S i) (rev stack) Vector2.zero)
                   (nth (S (S i)) (rev stack) Vector2.zero).
Proof.
  intros Hcv Hi. rewrite !rev_nth by lia.
  pose proof (stackConvex_nth stack (length stack - 3 - i) Hcv) as H.
  replace (length stack - 3 - i + 2)%nat with (length stack - S i)%nat in H by lia.
  replace (length stack - 3 - i + 1)%nat with (length stack - S (S i))%nat in H by lia.
  replace (length stack - 3 - i)%nat with (length stack - S (S (S i)))%nat in H by lia.
  apply H. lia.
Qed.



(** ** A concrete run of the calipers search *)

Lemma normalize_eval (ex ey L : R) :
  0 < L -> L * L = ex * ex + ey * ey ->
  Vector2.normalize (Vector2.mk ex ey) = Vector2.mk (ex / L) (ey / L).
Proof.
  intros HL HLL. unfold Vector2.normalize, Vector2.length, Vector2.divideScalar.
  cbn [Vector2.x Vector2.y].
  rewrite (sqrt_lem_1 (ex * ex + ey * ey) L); [| rewrite <- HLL; nra | lra | lra].
  destruct (Req_dec_T L 0); [lra | reflexivity].
Qed.

(** The extreme projections are determined by bounds that are attained. *)
Lemma extreme_values (hull : list Vector2.t) (d : Vector2.t) (lo hi : R) :
  (forall p, In p hull -> lo <= Vector2.dot p d <= hi) ->
  (exists p, In p hull /\ Vector2.dot p d = lo) ->
  (exists p, In p hull /\ Vector2.dot p d = hi) ->
  getExtremeProjections hull d = mkProj (Num lo) (Num hi).
Proof.
  intros Hb (pl & Hpl & El) (ph & Hph & Eh).
  assert (Hne : hull <> []) by (intros ->; contradiction).
  destruct (getExtremeProjections_spec hull d Hne)
    as (lo' & hi' & -> & Hb' & (ql & Hql & El') & (qh & Hqh & Eh')).
  pose proof (Hb ql Hql). pose proof (Hb qh Hqh).
  pose proof (Hb' pl Hpl). pose proof (Hb' ph Hph).
  f_equal; f_equal; lra.
Qed.

Lemma close_true (v : R) :
  - (1 / 10 ^ 10) < v - 1 < 1 / 10 ^ 10 ->
  (if Rlt_dec (Math.abs (v - 1)) (1 / 10 ^ 10) then true else false) = true.
Proof.
  intros [H1 H2]. unfold Math.abs.
  destruct (Rlt_dec _ _) as [_|H]; [reflexivity|].
  exfalso. apply H. now apply Rabs_def1.
Qed.

Lemma close_false (v : R) :
  v - 1 <= - (1 / 10 ^ 10) ->
  (if Rlt_dec (Math.abs (v - 1)) (1 / 10 ^ 10) then true else false) = false.
Proof.
  intros H1. unfold Math.abs.
  destruct (Rlt_dec _ _) as [H|_]; [|reflexivity].
  apply Rabs_def2 in H. lra.
Qed.

Lemma edges_bentBase :
  edgeDirection bentBase 0 = Vector2.mk ((1 - 0) / 1) ((0 - 0) / 1)
  /\ edgeDirection bentBase 1
     = Vector2.mk ((90000000000 - 1) / 90000000001) ((600000 - 0) / 90000000001)
  /\ edgeDirection bentBase 2
     = Vector2.mk ((45000400000 - 90000000000) / 56249500000)
                  ((33750300000 - 600000) / 56249500000)
  /\ edgeDirection bentBase 3
     = Vector2.mk ((0 - 45000400000) / 56250500000)
                  ((0 - 33750300000) / 56250500000).
Proof.
  unfold edgeDirection, bentBase.
  cbn [length nth Nat.modulo Nat.divmod fst snd Nat.sub Vector2.x Vector2.y].
  repeat split; apply normalize_eval; lra.
Qed.

Lemma directionStep_new (hull dirs : list Vector2.t) (i : nat) :
  isDuplicateDirection dirs (edgeDirection hull i) = false ->
  directionStep hull dirs i = dirs ++ [edgeDirection hull i].
Proof. intros H. unfold directionStep. now rewrite H. Qed.

Lemma directionStep_dup (hull dirs : list Vector2.t) (i : nat) :
  isDuplicateDirection dirs (edgeDirection hull i) = true ->
  directionStep hull dirs i = dirs.
Proof. intros H. unfold directionStep. now rewrite H. Qed.

(** The second edge direction is dropped as a duplicate of the first. *)
Lemma getUniqueEdgeDirections_bentBase :
  getUniqueEdgeDirections bentBase
  = [edgeDirection bentBase 0; edgeDirection bentBase 2; edgeDirection bentBase 3].
Proof.
  destruct edges_bentBase as (E0 & E1 & E2 & E3).
  unfold getUniqueEdgeDirections.
  change (seq 0 (length bentBase)) with [0; 1; 2; 3]%nat.
  loop_step. rewrite directionStep_new by reflexivity. cbn [app].
  loop_step. rewrite directionStep_dup.
  2:{ rewrite E0, E1. cbn [isDuplicateDirection existsb].
      unfold Vector2.dot. cbn [Vector2.x Vector2.y].
      rewrite close_true by lra. reflexivity. }
  loop_step. rewrite directionStep_new.
  2:{ rewrite E0, E2. cbn [isDuplicateDirection existsb].
      unfold Vector2.dot. cbn [Vector2.x Vector2.y].
      rewrite close_false by lra. reflexivity. }
  cbn [app].
  loop_step. rewrite directionStep_new.
  2:{ rewrite E0, E2, E3. cbn [isDuplicateDirection existsb].
      unfold Vector2.dot. cbn [Vector2.x Vector2.y].
      rewrite !close_false by lra. reflexivity. }
  reflexivity.
Qed.

Ltac attained p := exists p; split; [simpl; tauto | unfold Vector2.dot; simpl; lra].

Ltac bounds :=
  intros ? [<-|[<-|[<-|[<-|[]]]]]; unfold Vector2.dot; simpl; lra.

(** Areas of the four edge-aligned rectangles. *)
Lemma area_bentBase_0 :
  fst (candidate bentBase (edgeDirection bentBase 0)) = 3037527000000000000000.
Proof.
  destruct edges_bentBase as (-> & _). unfold candidate.
  cbn [Vector2.x Vector2.y].
  rewrite (extreme_values bentBase _ 0 90000000000);
    [ | bounds | attained (Vector2.mk 0 0) | attained (Vector2.mk 90000000000 600000) ].
  rewrite (extreme_values bentBase _ 0 33750300000);
    [ | bounds | attained (Vector2.mk 0 0)
      | attained (Vector2.mk 45000400000 33750300000) ].
  cbn [fst minProj maxProj toR]. lra.
Qed.

Lemma area_bentBase_1 :
  fst (candidate bentBase (edgeDirection bentBase 1))
  = 24603749998602752429926087581000000000000000 / 8100000000180000000001.
Proof.
  destruct edges_bentBase as (_ & -> & _). unfold candidate.
  cbn [Vector2.x Vector2.y].
  rewrite (extreme_values bentBase _ 0 (8100000000270000000000 / 90000000001));
    [ | bounds | attained (Vector2.mk 0 0) | attained (Vector2.mk 90000000000 600000) ].
  rewrite (extreme_values bentBase _ (- 600000 / 90000000001)
             (3037499999726249700000 / 90000000001));
    [ | bounds | attained (Vector2.mk 1 0)
      | attained (Vector2.mk 45000400000 33750300000) ].
  cbn [fst minProj maxProj toR]. lra.
Qed.

Lemma area_bentBase_2 :
  fst (candidate bentBase (edgeDirection bentBase 2)) = 3888015119827200000000.
Proof.
  destruct edges_bentBase as (_ & _ & -> & _). unfold candidate.
  cbn [Vector2.x Vector2.y].
  rewrite (extreme_values bentBase _ (- 71999640000) 0);
    [ | bounds | attained (Vector2.mk 90000000000 600000) | attained (Vector2.mk 0 0) ].
  rewrite (extreme_values bentBase _ (- 54000480000) 0);
    [ | bounds | attained (Vector2.mk 90000000000 600000) | attained (Vector2.mk 0 0) ].
  cbn [fst minProj maxProj toR]. lra.
Qed.

Lemma area_bentBase_3 :
  fst (candidate bentBase (edgeDirection bentBase 3)) = 3887984879827200000000.
Proof.
  destruct edges_bentBase as (_ & _ & _ & ->). unfold candidate.
  cbn [Vector2.x Vector2.y].
  rewrite (extreme_values bentBase _ (- 72000360000) 0);
    [ | bounds | attained (Vector2.mk 90000000000 600000) | attained (Vector2.mk 0 0) ].
  rewrite (extreme_values bentBase _ 0 53999520000);
    [ | bounds | attained (Vector2.mk 0 0) | attained (Vector2.mk 90000000000 600000) ].
  cbn [fst minProj maxProj toR]. lra.
Qed.

Lemma bentBase_convex : strictlyConvexCCW bentBase.
Proof.
  intros i Hi. unfold bentBase in *. cbn [length] in *.
  destruct i as [|[|[|[|i]]]]; [| | | |lia];
    cbn [nth Nat.modulo Nat.divmod fst snd Nat.sub];
    unfold crossProduct; cbn [Vector2.x Vector2.y]; lra.
Qed.

(** * The claims *)

(** ** C1: the rectangle returned by the calipers search *)

(** C1, as stated, fails: [bentBase] is a strictly convex hull of four
    vertices whose second edge direction is within 1e-10 (as a dot product)
    of the first one and is therefore never tried; the rectangle aligned
    with that edge has a smaller area than the rectangle returned. *)
Lemma calipers_misses_merged_direction :
  (3 <= length bentBase)%nat
  /\ strictlyConvexCCW bentBase
  /\ (1 < length bentBase)%nat
  /\ fst (candidate bentBase (edgeDirection bentBase 1))
     < width (enhancedRotatingCalipers bentBase)
       * height (enhancedRotatingCalipers bentBase).
Proof.
  assert (H3 : (3 <= length bentBase)%nat) by (simpl; lia).
  split; [exact H3|]. split; [apply bentBase_convex|]. split; [simpl; lia|].
  destruct (enhancedRotatingCalipers_first_minimum bentBase H3)
    as (pre & d & post & E & -> & _).
  rewrite <- candidate_area, area_bentBase_1.
  assert (Hd : In d (getUniqueEdgeDirections bentBase))
    by (rewrite E; apply in_or_app; right; now left).
  rewrite getUniqueEdgeDirections_bentBase in Hd.
  destruct Hd as [<-|[<-|[<-|[]]]].
  - rewrite area_bentBase_0. lra.
  - rewrite area_bentBase_2. lra.
  - rewrite area_bentBase_3. lra.
Qed.

(** C1, amended.  For every hull of at least 3 vertices the rectangle
    returned is the one computed for a direction [d] of the
    unique-direction list; its area is at most the area of the rectangle of
    every direction of that list, and strictly less than the area for
    every direction that comes before [d] in the list, so among directions
    of equal least area the first one wins.  The list holds edge
    directions of the hull only, and every edge direction of the hull is in
    the list or has a dot product within 1e-10 of 1 with a listed one. *)
Theorem calipers_first_minimum_over_unique_directions (hull : list Vector2.t) :
  (3 <= length hull)%nat ->
  let result := enhancedRotatingCalipers hull in
  let directions := getUniqueEdgeDirections hull in
  exists pre d post,
    directions = pre ++ d :: post
    /\ result = snd (candidate hull d)
    /\ width result * height result = fst (candidate hull d)
    /\ (forall e, In e pre ->
          width result * height result < fst (candidate hull e))
    /\ (forall e, In e post ->
          width result * height result <= fst (candidate hull e))
    /\ (forall e, In e directions ->
          exists i, (i < length hull)%nat /\ e = edgeDirection hull i)
    /\ (forall i, (i < length hull)%nat ->
          In (edgeDirection hull i) directions
          \/ exists e, In e directions
               /\ Rabs (Vector2.dot (edgeDirection hull i) e - 1) < 1 / 10 ^ 10).
Proof.
  intros H3 result directions.
  destruct (enhancedRotatingCalipers_first_minimum hull H3)
    as (pre & d & post & E & Eres & Hpre & Hpost).
  destruct (getUniqueEdgeDirections_spec hull) as [Hfrom Hcover].
  exists pre, d, post. unfold result. rewrite Eres, <- candidate_area.
  repeat (split; [assumption || reflexivity|]). assumption.
Qed.

Lemma calipers_first_minimum_over_unique_directions_witness :
  (3 <= length bentBase)%nat
  /\ exists d,
       In d (getUniqueEdgeDirections bentBase)
       /\ enhancedRotatingCalipers bentBase = snd (candidate bentBase d).
Proof.
  assert (H3 : (3 <= length bentBase)%nat) by (simpl; lia).
  split; [exact H3|].
  destruct (calipers_first_minimum_over_unique_directions bentBase H3)
    as (pre & d & post & E & Eres & _).
  exists d. split; [|exact Eres].
  rewrite E. apply in_or_app. right. now left.
Defined.

(** ** C2: the box contains the input points *)

(** C2, as stated, fails: the three points of [nearlyCollinear3] have
    three distinct projections that are not on one line, yet the hull has
    two vertices, the rectangle is the zero rectangle at the centroid, and
    the first point is at distance 1 from a box of zero width. *)
Lemma fromPoints_nearly_collinear_point_outside :
  let p := Vector3.mk (-1) 0 (- (1 / 10 ^ 11)) in
  (9 <= length (flat nearlyCollinear3))%nat
  /\ (3 <= length (points2D (dedup (flat nearlyCollinear3))))%nat
  /\ NoDup (points2D (dedup (flat nearlyCollinear3)))
  /\ nonCollinear (points2D (dedup (flat nearlyCollinear3)))
  /\ In p (triples (flat nearlyCollinear3))
  /\ ~ insideBox (fromPoints new_MinimumBoundingRectangle (flat nearlyCollinear3)) p.
Proof.
  intros p. destruct points2D_nearlyCollinear3 as (E & Elo & Ehi).
  assert (H9 : (9 <= length (flat nearlyCollinear3))%nat) by (simpl; lia).
  assert (H3 : (3 <= length (points2D (dedup (flat nearlyCollinear3))))%nat)
    by (rewrite E; simpl; lia).
  split; [exact H9|]. split; [exact H3|].
  split; [rewrite E; apply nearlyCollinear_NoDup|].
  split; [rewrite E; apply nearlyCollinear_nonCollinear|].
  split; [simpl; tauto|].
  rewrite fromPoints_success by assumption.
  rewrite E, grahamScan_nearlyCollinear, centroid_nearlyCollinear3.
  unfold enhancedRotatingCalipers. cbn [length Nat.ltb Nat.leb].
  intros [Hx _]. revert Hx. unfold toLocal, p.
  cbn [center halfSizes rotation zeroRect rcenter width height angle fst snd
       Vector2.x Vector2.y Vector2.zero Vector3.x Vector3.y Vector3.z].
  unfold Matrix4.makeRotationY. cbn [Matrix4.n11 Matrix4.n21 Matrix4.n31].
  rewrite Ropp_0, cos_0, sin_0.
  match goal with |- Rabs ?e <= _ -> _ => replace e with (-1) by lra end.
  rewrite Rabs_left by lra. lra.
Qed.

(** C2, amended.  On the success path, when the stored projections are
    not all on one line and their polar angles about the pivot are pairwise
    equal or at least 1e-10 apart, every input triple that is the first of
    its deduplication key lies inside the box or on its boundary: in the
    rotated local frame of the box each coordinate of its offset from the
    centre is, in absolute value, at most the corresponding half-size.
    Every other input triple shares its key, hence its horizontal grid
    cell of side 1e-6, with such a triple. *)
Theorem fromPoints_box_contains_stored_points
    (this : MinimumBoundingRectangle) (points : list R) :
  (9 <= length points)%nat ->
  (3 <= length (points2D (dedup points)))%nat ->
  nonCollinear (points2D (dedup points)) ->
  separatedAroundPivot (points2D (dedup points)) ->
  (forall i p, firstOfKey points i p -> insideBox (fromPoints this points) p)
  /\ (forall p, In p (triples points) ->
        exists i q,
          firstOfKey points i q
          /\ keyOf (fst (centroid points)) (snd (centroid points)) q
             = keyOf (fst (centroid points)) (snd (centroid points)) p).
Proof.
  intros H9 H3 Hnc Hsep. split.
  - intros i p. now apply fromPoints_contains.
  - intros p Hp.
    destruct (first_of_key_exists (fst (centroid points)) (snd (centroid points))
                (triples points) p Hp) as (i & q & Hi & Hq & Hfirst).
    exists i, q. split; [split; assumption | exact Hq].
Qed.

Lemma fromPoints_box_contains_stored_points_witness :
  (9 <= length (flat sampleTriangle))%nat
  /\ (3 <= length (points2D (dedup (flat sampleTriangle))))%nat
  /\ nonCollinear (points2D (dedup (flat sampleTriangle)))
  /\ separatedAroundPivot (points2D (dedup (flat sampleTriangle)))
  /\ firstOfKey (flat sampleTriangle) 0 (Vector3.mk 0 0 0)
  /\ insideBox (fromPoints new_MinimumBoundingRectangle (flat sampleTriangle))
               (Vector3.mk 0 0 0).
Proof.
  assert (H9 : (9 <= length (flat sampleTriangle))%nat) by (simpl; lia).
  assert (H3 : (3 <= length (points2D (dedup (flat sampleTriangle))))%nat)
    by (rewrite points2D_sampleTriangle; simpl; lia).
  assert (Hnc : nonCollinear (points2D (dedup (flat sampleTriangle))))
    by (rewrite points2D_sampleTriangle; apply centredTriangle_nonCollinear).
  assert (Hsep : separatedAroundPivot (points2D (dedup (flat sampleTriangle))))
    by (rewrite points2D_sampleTriangle; apply centredTriangle_separated).
  assert (Hfirst : firstOfKey (flat sampleTriangle) 0 (Vector3.mk 0 0 0))
    by (split; [reflexivity | intros j q Hj; lia]).
  repeat (split; [assumption|]).
  exact (proj1 (fromPoints_box_contains_stored_points _ _ H9 H3 Hnc Hsep)
           _ _ Hfirst).
Defined.

(** ** C4: convexity of the hull *)

(** C4, as stated, fails: the three points of [nearlyCollinear] are
    pairwise distinct and not collinear, yet [grahamScan] returns only two
    of them, and a two-vertex sequence has no strict left turn. *)
Lemma grahamScan_nearly_collinear_not_convex :
  (3 <= length nearlyCollinear)%nat
  /\ NoDup nearlyCollinear
  /\ nonCollinear nearlyCollinear
  /\ ~ strictlyConvexCCW (grahamScan nearlyCollinear).
Proof.
  split; [simpl; lia|]. split; [apply nearlyCollinear_NoDup|].
  split; [apply nearlyCollinear_nonCollinear|].
  rewrite grahamScan_nearlyCollinear. intros H.
  assert (H0 : (0 < 2)%nat) by lia. specialize (H 0%nat H0).
  cbn [length Nat.modulo Nat.divmod fst snd Nat.sub nth] in H.
  unfold crossProduct in H. cbn [Vector2.x Vector2.y] in H. lra.
Qed.

(** C4, amended.  For at least 3 pairwise distinct points that are not all
    on one line and whose polar angles about the pivot (the [Math.atan2]
    values the comparator computes, for the points other than the pivot)
    are pairwise equal or at least 1e-10 apart, [grahamScan] returns at
    least 3 vertices and every cyclically consecutive triple of them,
    wrap-around included, has a strictly positive cross product. *)
Theorem grahamScan_strictly_convex (points : list Vector2.t) :
  (3 <= length points)%nat ->
  NoDup points ->
  nonCollinear points ->
  separatedAroundPivot points ->
  (3 <= length (grahamScan points))%nat
  /\ strictlyConvexCCW (grahamScan points).
Proof. exact (grahamScan_convex points). Qed.

Lemma grahamScan_strictly_convex_witness :
  (3 <= length centredTriangle)%nat
  /\ NoDup centredTriangle
  /\ nonCollinear centredTriangle
  /\ separatedAroundPivot centredTriangle
  /\ (3 <= length (grahamScan centredTriangle))%nat
  /\ strictlyConvexCCW (grahamScan centredTriangle).
Proof.
  assert (H3 : (3 <= length centredTriangle)%nat) by (simpl; lia).
  pose proof centredTriangle_NoDup as Hnd.
  pose proof centredTriangle_nonCollinear as Hnc.
  pose proof centredTriangle_separated as Hsep.
  repeat (split; [assumption|]).
  exact (grahamScan_strictly_convex centredTriangle H3 Hnd Hnc Hsep).
Defined.

(** ** C10: the error paths leave the receiver untouched *)

(** C10.  When the array has fewer than 9 scalars, or when deduplication
    stores fewer than 3 points, [fromPoints] returns the receiver with
    [center], [halfSizes] and [rotation] exactly as they were before the
    call. *)
Theorem fromPoints_error_paths_return_receiver
    (this : MinimumBoundingRectangle) (points : list R) :
  (length points < 9)%nat \/ (length (points2D (dedup points)) < 3)%nat ->
  fromPoints this points = this
  /\ center (fromPoints this points) = center this
  /\ halfSizes (fromPoints this points) = halfSizes this
  /\ rotation (fromPoints this points) = rotation this.
Proof.
  intros H.
  assert (E : fromPoints this points = this)
    by (destruct H; [now apply fromPoints_short | now apply fromPoints_few_unique]).
  rewrite E. auto.
Qed.

(** An instance that holds the box of [sampleTriangle] keeps it when it is
    next given an empty array. *)
Lemma fromPoints_error_paths_return_receiver_witness :
  let this := fromPoints new_MinimumBoundingRectangle (flat sampleTriangle) in
  ((length (@nil R) < 9)%nat \/ (length (points2D (dedup [])) < 3)%nat)
  /\ fromPoints this [] = this.
Proof.
  intros this.
  assert (H : (length (@nil R) < 9)%nat \/ (length (points2D (dedup [])) < 3)%nat)
    by (left; simpl; lia).
  split; [exact H|].
  exact (proj1 (fromPoints_error_paths_return_receiver this [] H)).
Defined.

(** ** C6: what the error paths return *)

(** C6, as stated, fails: an instance that already holds a box and is then
    given too few points still has non-zero half-sizes. *)
Lemma fromPoints_error_path_not_zero_sized :
  let this := fromPoints new_MinimumBoundingRectangle (flat sampleTriangle) in
  (length (@nil R) < 9)%nat
  /\ halfSizes (fromPoints this []) <> Vector3.zero.
Proof.
  intros this. split; [simpl; lia|].
  rewrite fromPoints_short by (simpl; lia).
  intros E. apply (f_equal Vector3.y) in E. unfold this in E.
  rewrite halfSizes_sampleTriangle in E. simpl in E. lra.
Qed.

(** C6, amended.  [fromPoints] is total; on its two error paths the result
    is the receiver itself, so the half-sizes are zero when the receiver
    is a freshly constructed instance. *)
Theorem fromPoints_error_paths_zero_on_fresh_instance (points : list R) :
  (length points < 9)%nat \/ (length (points2D (dedup points)) < 3)%nat ->
  fromPoints new_MinimumBoundingRectangle points = new_MinimumBoundingRectangle
  /\ halfSizes (fromPoints new_MinimumBoundingRectangle points) = Vector3.zero.
Proof.
  intros H.
  assert (E : fromPoints new_MinimumBoundingRectangle points
              = new_MinimumBoundingRectangle)
    by (destruct H; [now apply fromPoints_short | now apply fromPoints_few_unique]).
  rewrite E. auto.
Qed.

Lemma fromPoints_error_paths_zero_on_fresh_instance_witness :
  ((length twoPoints < 9)%nat
   \/ (length (points2D (dedup twoPoints)) < 3)%nat)
  /\ halfSizes (fromPoints new_MinimumBoundingRectangle twoPoints)
     = Vector3.zero.
Proof.
  assert (H : (length twoPoints < 9)%nat
              \/ (length (points2D (dedup twoPoints)) < 3)%nat)
    by (left; simpl; lia).
  split; [exact H|].
  exact (proj2 (fromPoints_error_paths_zero_on_fresh_instance _ H)).
Defined.

(** ** C5: reconstruction of the oriented box *)

(** C5.  On the success path (at least 9 scalars, at least 3 stored
    points) the vertical extent [lo, hi] is finite and the fields are
    center = (candidate center x + centroid x, (lo + hi) / 2, candidate
    center y + centroid z), halfSizes = (width / 2, (hi - lo) / 2,
    height / 2) and rotation = the rotation about Y by minus the angle of
    the winning rectangle. *)
Theorem fromPoints_reconstruction
    (this : MinimumBoundingRectangle) (points : list R) :
  (9 <= length points)%nat ->
  (3 <= length (points2D (dedup points)))%nat ->
  let result := enhancedRotatingCalipers (grahamScan (points2D (dedup points))) in
  exists lo hi,
    minY (dedup points) = Num lo /\ maxY (dedup points) = Num hi
    /\ center (fromPoints this points)
       = Vector3.mk (Vector2.x (rcenter result) + fst (centroid points))
                    ((lo + hi) / 2)
                    (Vector2.y (rcenter result) + snd (centroid points))
    /\ halfSizes (fromPoints this points)
       = Vector3.mk (width result / 2) ((hi - lo) / 2) (height result / 2)
    /\ rotation (fromPoints this points)
       = Matrix4.makeRotationY (- angle result).
Proof.
  intros H9 H3 result.
  destruct (dedup_extent points) as (lo & hi & Elo & Ehi & _).
  { destruct (points2D (dedup points)); simpl in *; [lia | discriminate]. }
  exists lo, hi. rewrite fromPoints_success by assumption.
  rewrite Elo, Ehi. cbn [center halfSizes rotation toR]. fold result.
  repeat split; try reflexivity; f_equal; lra.
Qed.

Lemma fromPoints_reconstruction_witness :
  (9 <= length (flat sampleTriangle))%nat
  /\ (3 <= length (points2D (dedup (flat sampleTriangle))))%nat
  /\ rotation (fromPoints new_MinimumBoundingRectangle (flat sampleTriangle))
     = Matrix4.makeRotationY
         (- angle (enhancedRotatingCalipers
                     (grahamScan (points2D (dedup (flat sampleTriangle)))))).
Proof.
  assert (H9 : (9 <= length (flat sampleTriangle))%nat) by (simpl; lia).
  assert (H3 : (3 <= length (points2D (dedup (flat sampleTriangle))))%nat)
    by (rewrite dedup_sampleTriangle; simpl; lia).
  split; [exact H9|]. split; [exact H3|].
  destruct (fromPoints_reconstruction new_MinimumBoundingRectangle
              (flat sampleTriangle) H9 H3) as (lo & hi & _ & _ & _ & _ & E).
  exact E.
Defined.

(** ** C3: the vertical extent *)

(** C3: the code disagrees with the claim on [stackedPoints].  The fourth
    triple (0, 5, 0) projects onto the same key as the first one, the loop
    skips it, and the vertical extent stays [0, 0]: the box is flat although
    a supplied point lies 5 above it. *)
Theorem vertical_extent_ignores_skipped_triples :
  In (Vector3.mk 0 5 0) (triples (flat stackedPoints))
  /\ minY (dedup (flat stackedPoints)) = Num 0
  /\ maxY (dedup (flat stackedPoints)) = Num 0
  /\ Vector3.y (center (fromPoints new_MinimumBoundingRectangle
                          (flat stackedPoints))) = 0
  /\ Vector3.y (halfSizes (fromPoints new_MinimumBoundingRectangle
                             (flat stackedPoints))) = 0.
Proof.
  split; [simpl; tauto|].
  rewrite fromPoints_success;
    [ | simpl; lia | rewrite dedup_stackedPoints; simpl; lia ].
  rewrite dedup_stackedPoints. cbn [minY maxY center halfSizes Vector3.y toR].
  rewrite !Rmin_same, !Rmax_same. repeat split; lra.
Qed.

(** ** C7: toBox3 *)

(** C7.  [toBox3] returns a non-empty box whose [min] and [max] are, on each
    axis, the least and the greatest coordinate among the eight oriented
    corners (local offsets of plus or minus the half-sizes, rotated, then
    translated by the centre): they bound every corner and each of the six
    bounds is attained by a corner. *)
Theorem toBox3_extent_of_oriented_corners (this : MinimumBoundingRectangle) :
  exists mn mx,
    toBox3 this = Box3.box mn mx
    /\ (forall sx sy sz,
          Vector3.x mn <= Vector3.x (orientedCorner this sx sy sz) <= Vector3.x mx
          /\ Vector3.y mn <= Vector3.y (orientedCorner this sx sy sz) <= Vector3.y mx
          /\ Vector3.z mn <= Vector3.z (orientedCorner this sx sy sz) <= Vector3.z mx)
    /\ (exists sx sy sz, Vector3.x (orientedCorner this sx sy sz) = Vector3.x mn)
    /\ (exists sx sy sz, Vector3.y (orientedCorner this sx sy sz) = Vector3.y mn)
    /\ (exists sx sy sz, Vector3.z (orientedCorner this sx sy sz) = Vector3.z mn)
    /\ (exists sx sy sz, Vector3.x (orientedCorner this sx sy sz) = Vector3.x mx)
    /\ (exists sx sy sz, Vector3.y (orientedCorner this sx sy sz) = Vector3.y mx)
    /\ (exists sx sy sz, Vector3.z (orientedCorner this sx sy sz) = Vector3.z mx).
Proof.
  unfold toBox3, Box3.setFromPoints.
  pose proof (worldCorners_orientedCorner this) as Hc.
  destruct (worldCorners this) as [|p l] eqn:E.
  { exfalso. destruct (proj2 (Hc (orientedCorner this true true true))); eauto. }
  cbn [fold_left Box3.expandByPoint]. rewrite expand_fold.
  eexists _, _. split; [reflexivity|].
  rewrite fold_min_x, fold_min_y, fold_min_z, fold_max_x, fold_max_y, fold_max_z.
  destruct (coordinate_extent Vector3.x p l) as (Bx & (qx & Hqx & Ex) & (qx' & Hqx' & Ex')).
  destruct (coordinate_extent Vector3.y p l) as (By & (qy & Hqy & Ey) & (qy' & Hqy' & Ey')).
  destruct (coordinate_extent Vector3.z p l) as (Bz & (qz & Hqz & Ez) & (qz' & Hqz' & Ez')).
  split.
  { intros sx sy sz.
    assert (Hin : In (orientedCorner this sx sy sz) (p :: l))
      by (apply Hc; eauto).
    auto. }
  repeat split.
  - apply Hc in Hqx as (sx & sy & sz & ->). eauto.
  - apply Hc in Hqy as (sx & sy & sz & ->). eauto.
  - apply Hc in Hqz as (sx & sy & sz & ->). eauto.
  - apply Hc in Hqx' as (sx & sy & sz & ->). eauto.
  - apply Hc in Hqy' as (sx & sy & sz & ->). eauto.
  - apply Hc in Hqz' as (sx & sy & sz & ->). eauto.
Qed.

(** ** C8: determinism *)

(** C8, as stated, fails: the same array given to a fresh instance and to
    an instance that already holds a box yields two different results,
    because the error paths return the receiver as it is. *)
Lemma fromPoints_result_depends_on_receiver :
  let this := fromPoints new_MinimumBoundingRectangle (flat sampleTriangle) in
  (length twoPoints < 9)%nat
  /\ halfSizes (fromPoints new_MinimumBoundingRectangle twoPoints)
     <> halfSizes (fromPoints this twoPoints).
Proof.
  intros this. split; [simpl; lia|].
  rewrite !fromPoints_short by (simpl; lia).
  intros E. apply (f_equal Vector3.y) in E. unfold this in E.
  rewrite halfSizes_sampleTriangle in E. simpl in E. lra.
Qed.

(** C8, amended.  For arrays of whole triples: two invocations of
    [fromPoints] on identical input and on receivers in the same state
    give identical results; on the success path the result is the same
    whatever the two receivers held; on the error paths each invocation
    returns its own receiver as it was, which is why the results can
    differ there; and a second invocation on the result of the first
    changes nothing.  [grahamScan] reads no state: identical point lists
    give identical vertex sequences, which for three or more points start
    at the lowest, then leftmost, point, so that the sequence and not only
    the polygon is fixed. *)
Theorem kernel_deterministic_given_receiver
    (this other : MinimumBoundingRectangle) (ts ts' : list Vector3.t)
    (planar planar' : list Vector2.t) :
  ts = ts' -> planar = planar' ->
  let points := flat ts in
  let points' := flat ts' in
  fromPoints this points = fromPoints this points'
  /\ ((9 <= length points)%nat ->
      (3 <= length (points2D (dedup points)))%nat ->
      fromPoints this points = fromPoints other points')
  /\ ((length points < 9)%nat \/ (length (points2D (dedup points)) < 3)%nat ->
      fromPoints this points = this /\ fromPoints other points' = other)
  /\ fromPoints (fromPoints this points) points' = fromPoints this points
  /\ grahamScan planar = grahamScan planar'
  /\ ((3 <= length planar)%nat ->
      exists rest, grahamScan planar' = pivot planar :: rest).
Proof.
  intros <- <-. cbn zeta. set (points := flat ts).
  split; [reflexivity|]. split; [|split; [|split; [|split]]].
  - intros H9 H3. now rewrite !fromPoints_success.
  - intros [H9|H3].
    + split; now apply fromPoints_short.
    + split; now apply fromPoints_few_unique.
  - destruct (fromPoints_cases this points) as [E|[H9 H3]].
    + now rewrite !E.
    + now rewrite !fromPoints_success.
  - reflexivity.
  - intros Hlen. destruct planar as [|p0 rest]; [simpl in Hlen; lia|].
    apply grahamScan_starts_at_pivot. simpl in Hlen. lia.
Qed.

Lemma kernel_deterministic_given_receiver_witness :
  sampleTriangle = sampleTriangle
  /\ centredTriangle = centredTriangle
  /\ fromPoints new_MinimumBoundingRectangle (flat sampleTriangle)
     = fromPoints negativeBox (flat sampleTriangle).
Proof.
  assert (H9 : (9 <= length (flat sampleTriangle))%nat) by (simpl; lia).
  assert (H3 : (3 <= length (points2D (dedup (flat sampleTriangle))))%nat)
    by (rewrite points2D_sampleTriangle; simpl; lia).
  split; [reflexivity|]. split; [reflexivity|].
  exact (proj1 (proj2 (kernel_deterministic_given_receiver
                         new_MinimumBoundingRectangle negativeBox
                         sampleTriangle sampleTriangle
                         centredTriangle centredTriangle eq_refl eq_refl))
           H9 H3).
Defined.

(** ** C9: sign of the half-sizes *)





(** * Further properties of the kernel *)

(** ** The scan only drops points *)

Lemma popWhile_split (stack : list Vector2.t) (q : Vector2.t) :
  exists popped, stack = popped ++ popWhile stack q.
Proof.
  induction stack as [|top rest IH]; [now exists []|].
  destruct rest as [|second rest']; [now exists []|].
  cbn [popWhile]. destruct (Rle_dec (crossProduct second top q) 0).
  - destruct IH as (popped & E). exists (top :: popped). cbn [app]. f_equal. exact E.
  - now exists [].
Qed.

Lemma scan_drops_step {A : Type} (q : A) (kept rest popped : list A) :
  Permutation (((q :: kept) ++ rest) ++ popped) ((popped ++ kept) ++ q :: rest).
Proof.
  cbn [app]. rewrite <- Permutation_middle. apply perm_skip.
  rewrite (Permutation_app_comm popped kept), <- !app_assoc.
  apply Permutation_app_head. apply Permutation_app_comm.
Qed.

Lemma scan_drops (rest stack : list Vector2.t) :
  exists dropped,
    Permutation (fold_left scanStep rest stack ++ dropped) (stack ++ rest).
Proof.
  revert stack; induction rest as [|q rest IH]; intros stack.
  - exists []. simpl. now rewrite !app_nil_r.
  - simpl. destruct (IH (scanStep stack q)) as (dropped & Hp).
    destruct (popWhile_split stack q) as (popped & E).
    exists (dropped ++ popped).
    rewrite app_assoc, Hp. unfold scanStep. rewrite E at 2.
    apply scan_drops_step.
Qed.

Lemma sortedPoints_long (points : list Vector2.t) :
  (3 <= length points)%nat ->
  exists s1 rest,
    sortedPoints points = pivot points :: s1 :: rest
    /\ Permutation points (pivot points :: s1 :: rest)
    /\ forall q, In q points -> lowerEq (pivot points) q.
Proof.
  intros Hlen.
  destruct (sortedPoints_spec points) as (others & Hs & Hperm & Hlow).
  { intros ->. simpl in Hlen. lia. }
  pose proof (Array_sort_perm (polarCompare (pivot points)) others) as Hsort.
  remember (Array_sort (polarCompare (pivot points)) others) as sorted eqn:Es.
  pose proof (Permutation_length Hperm) as Hl1.
  pose proof (Permutation_length Hsort) as Hl2. simpl in Hl1.
  destruct sorted as [|s1 rest]; [simpl in Hl2; lia|].
  exists s1, rest. split; [exact Hs|]. split; [|exact Hlow].
  apply (Permutation_trans Hperm). apply perm_skip. now symmetry.
Qed.

Lemma grahamScan_long (points : list Vector2.t) :
  (3 <= length points)%nat ->
  exists s1 rest,
    sortedPoints points = pivot points :: s1 :: rest
    /\ grahamScan points = rev (fold_left scanStep rest [s1; pivot points]).
Proof.
  intros Hlen. destruct (sortedPoints_long points Hlen) as (s1 & rest & Hs & _).
  exists s1, rest. split; [exact Hs|].
  unfold grahamScan. destruct (Nat.ltb_spec (length points) 3); [lia|].
  now rewrite Hs.
Qed.

Lemma grahamScan_drops (points : list Vector2.t) :
  exists dropped, Permutation (grahamScan points ++ dropped) points.
Proof.
  destruct (Nat.lt_ge_cases (length points) 3) as [Hshort|Hlong].
  - exists []. rewrite app_nil_r. unfold grahamScan.
    destruct (Nat.ltb_spec (length points) 3); [reflexivity | lia].
  - destruct (sortedPoints_long points Hlong) as (s1 & rest & Hs & Hperm & _).
    destruct (grahamScan_long points Hlong) as (s1' & rest' & Hs' & ->).
    rewrite Hs in Hs'. injection Hs' as <- <-.
    destruct (scan_drops rest [s1; pivot points]) as (dropped & Hd).
    exists dropped. rewrite <- Permutation_rev, Hd. symmetry.
    apply (Permutation_trans Hperm). simpl. apply perm_swap.
Qed.


(** X1.  For three or more points the sequence returned by [grahamScan]
    starts with the pivot, which is one of the input points and the lowest
    of them, the leftmost among the lowest: no input point has a smaller y,
    and none with the same y has a smaller x. *)
Theorem grahamScan_starts_at_lowest_point (points : list Vector2.t) :
  (3 <= length points)%nat ->
  exists hull,
    grahamScan points = pivot points :: hull
    /\ In (pivot points) points
    /\ forall q, In q points -> lowerEq (pivot points) q.
Proof.
  intros Hlen.
  destruct (sortedPoints_long points Hlen) as (s1 & rest & Hs & Hperm & Hlow).
  destruct (grahamScan_long points Hlen) as (s1' & rest' & Hs' & Hg).
  rewrite Hs in Hs'. injection Hs' as <- <-.
  destruct (scan_bottom rest [s1] (pivot points)) as (l' & El).
  simpl in El. rewrite Hg, El, rev_app_distr. simpl.
  exists (rev l'). split; [reflexivity|]. split; [|exact Hlow].
  apply (Permutation_in _ (Permutation_sym Hperm)). now left.
Qed.

Lemma grahamScan_starts_at_lowest_point_witness :
  (3 <= length centredTriangle)%nat
  /\ exists hull, grahamScan centredTriangle = pivot centredTriangle :: hull.
Proof.
  split; [simpl; lia|].
  destruct (grahamScan_starts_at_lowest_point centredTriangle) as (hull & E & _);
    [simpl; lia|].
  now exists hull.
Defined.

(** X2.  [grahamScan] only drops points: the returned vertices together
    with the dropped points are a rearrangement of the input.  So every
    vertex is an input point, the result is no longer than the input, and
    pairwise distinct input points give pairwise distinct vertices. *)
Theorem grahamScan_vertices_are_input_points (points : list Vector2.t) :
  (exists dropped, Permutation (grahamScan points ++ dropped) points)
  /\ incl (grahamScan points) points
  /\ (length (grahamScan points) <= length points)%nat
  /\ (NoDup points -> NoDup (grahamScan points)).
Proof.
  destruct (grahamScan_drops points) as (dropped & Hp).
  split; [now exists dropped|]. split; [|split].
  - intros q Hq. apply (Permutation_in _ Hp). apply in_or_app. now left.
  - rewrite <- (Permutation_length Hp), length_app. lia.
  - intros Hnd. apply (Permutation_NoDup (Permutation_sym Hp)) in Hnd.
    now apply NoDup_app_remove_r in Hnd.
Qed.

(** ** Left turns along the returned sequence *)

Lemma scan_convex (rest stack : list Vector2.t) :
  stackConvex stack -> stackConvex (fold_left scanStep rest stack).
Proof.
  revert stack; induction rest as [|q rest IH]; intros stack Hc; [exact Hc|].
  simpl. apply IH. unfold scanStep. now apply popWhile_convex.
Qed.

(** X3.  For every input of three or more points, repeated and collinear
    points included, any three consecutive entries of the sequence returned
    by [grahamScan], read without wrapping around, make a strict left
    turn. *)
Theorem grahamScan_consecutive_left_turns (points : list Vector2.t) (i : nat) :
  (3 <= length points)%nat ->
  (i + 2 < length (grahamScan points))%nat ->
  0 < crossProduct (nth i (grahamScan points) Vector2.zero)
                   (nth (S i) (grahamScan points) Vector2.zero)
                   (nth (S (S i)) (grahamScan points) Vector2.zero).
Proof.
  intros Hlen Hi.
  destruct (grahamScan_long points Hlen) as (s1 & rest & _ & Hg).
  rewrite Hg in Hi |- *. rewrite length_rev in Hi.
  apply hull_triple; [|exact Hi].
  apply scan_convex. simpl. exact I.
Qed.

Lemma grahamScan_consecutive_left_turns_witness :
  (3 <= length centredTriangle)%nat
  /\ (0 + 2 < length (grahamScan centredTriangle))%nat
  /\ 0 < crossProduct (nth 0 (grahamScan centredTriangle) Vector2.zero)
                      (nth 1 (grahamScan centredTriangle) Vector2.zero)
                      (nth 2 (grahamScan centredTriangle) Vector2.zero).
Proof.
  assert (H3 : (3 <= length centredTriangle)%nat) by (simpl; lia).
  assert (Hl : (0 + 2 < length (grahamScan centredTriangle))%nat).
  { destruct (grahamScan_convex centredTriangle H3 centredTriangle_NoDup
                centredTriangle_nonCollinear centredTriangle_separated) as [H _].
    lia. }
  split; [exact H3|]. split; [exact Hl|].
  exact (grahamScan_consecutive_left_turns centredTriangle 0 H3 Hl).
Defined.

(** ** The hull has the extents of the point set *)

Lemma dominated_rev (hull : list Vector2.t) (q : Vector2.t) :
  dominated hull q -> dominated (rev hull) q.
Proof.
  intros H d. destruct (H d) as (s & Hs & Hle). exists s. split; [|exact Hle].
  now apply in_rev in Hs.
Qed.

Lemma grahamScan_dominates (points : list Vector2.t) (q : Vector2.t) :
  (3 <= length points)%nat ->
  NoDup points ->
  separatedAroundPivot points ->
  In q points -> dominated (grahamScan points) q.
Proof.
  intros Hlen Hnd Hsep Hq.
  destruct (grahamScan_stack points Hlen Hnd Hsep) as (l & -> & _ & _ & _ & _ & Hdom).
  apply dominated_rev. now apply Hdom.
Qed.

Lemma dot_opp (p d : Vector2.t) :
  Vector2.dot p (Vector2.mk (- Vector2.x d) (- Vector2.y d)) = - Vector2.dot p d.
Proof. unfold Vector2.dot; simpl; ring. Qed.

(** X4.  For three or more pairwise distinct points whose polar angles
    around the pivot are equal or at least the tolerance of the comparator
    apart, the hull has the extent of the whole point set in every
    direction: [getExtremeProjections] returns the same pair on the hull
    and on the input. *)
Theorem grahamScan_keeps_extreme_projections
    (points : list Vector2.t) (direction : Vector2.t) :
  (3 <= length points)%nat ->
  NoDup points ->
  separatedAroundPivot points ->
  getExtremeProjections (grahamScan points) direction
  = getExtremeProjections points direction.
Proof.
  intros Hlen Hnd Hsep.
  destruct (getExtremeProjections_spec points direction)
    as (lo & hi & -> & Hb & (pl & Hpl & El) & (ph & Hph & Eh)).
  { intros ->. simpl in Hlen. lia. }
  destruct (grahamScan_drops points) as (dropped & Hperm).
  assert (Hsub : forall s, In s (grahamScan points) -> In s points).
  { intros s Hs. apply (Permutation_in _ Hperm). apply in_or_app. now left. }
  apply extreme_values.
  - intros p Hp. apply Hb. now apply Hsub.
  - destruct (grahamScan_dominates points pl Hlen Hnd Hsep Hpl
                (Vector2.mk (- Vector2.x direction) (- Vector2.y direction)))
      as (s & Hs & Hle).
    rewrite !dot_opp in Hle. exists s. split; [exact Hs|].
    pose proof (Hb s (Hsub s Hs)). lra.
  - destruct (grahamScan_dominates points ph Hlen Hnd Hsep Hph direction)
      as (s & Hs & Hle).
    exists s. split; [exact Hs|]. pose proof (Hb s (Hsub s Hs)). lra.
Qed.

Lemma grahamScan_keeps_extreme_projections_witness :
  (3 <= length centredTriangle)%nat
  /\ NoDup centredTriangle
  /\ separatedAroundPivot centredTriangle
  /\ getExtremeProjections (grahamScan centredTriangle) (Vector2.mk 1 0)
     = getExtremeProjections centredTriangle (Vector2.mk 1 0).
Proof.
  assert (H3 : (3 <= length centredTriangle)%nat) by (simpl; lia).
  split; [exact H3|]. split; [exact centredTriangle_NoDup|].
  split; [exact centredTriangle_separated|].
  exact (grahamScan_keeps_extreme_projections centredTriangle (Vector2.mk 1 0)
           H3 centredTriangle_NoDup centredTriangle_separated).
Defined.

(** ** getExtremeProjections *)

(** X5.  On the empty list [getExtremeProjections] returns its seeds,
    [Infinity] and [-Infinity].  On a non-empty list it returns two finite
    numbers, the least and the greatest projection on the direction: they
    bound the projection of every point and each is the projection of some
    point. *)
Theorem getExtremeProjections_extent (points : list Vector2.t) (direction : Vector2.t) :
  (points = [] ->
   getExtremeProjections points direction = mkProj Infinity NegInfinity)
  /\ (points <> [] ->
      exists lo hi,
        getExtremeProjections points direction = mkProj (Num lo) (Num hi)
        /\ lo <= hi
        /\ (forall p, In p points -> lo <= Vector2.dot p direction <= hi)
        /\ (exists p, In p points /\ Vector2.dot p direction = lo)
        /\ (exists p, In p points /\ Vector2.dot p direction = hi)).
Proof.
  split; [intros ->; reflexivity|].
  intros Hne.
  destruct (getExtremeProjections_spec points direction Hne)
    as (lo & hi & E & Hb & Hl & Hh).
  exists lo, hi. split; [exact E|]. split; [|tauto].
  destruct Hl as (p & Hp & _). specialize (Hb p Hp). lra.
Qed.

(** ** The list of unique directions *)

Lemma isDuplicateDirection_false (dirs : list Vector2.t) (e : Vector2.t) :
  isDuplicateDirection dirs e = false ->
  forall d, In d dirs -> 1 / 10 ^ 10 <= Rabs (Vector2.dot e d - 1).
Proof.
  unfold isDuplicateDirection. intros H d Hd.
  destruct (Rle_dec (1 / 10 ^ 10) (Rabs (Vector2.dot e d - 1))) as [Hge|Hlt];
    [exact Hge|].
  exfalso. assert (Ht : existsb
    (fun dir => if Rlt_dec (Math.abs (Vector2.dot e dir - 1)) (1 / 10 ^ 10)
                then true else false) dirs = true).
  { apply existsb_exists. exists d. split; [exact Hd|].
    unfold Math.abs. destruct (Rlt_dec (Rabs (Vector2.dot e d - 1)) (1 / 10 ^ 10));
      [reflexivity | lra]. }
  congruence.
Qed.

Lemma directions_fold_apart (hull : list Vector2.t) (idx : list nat)
    (dirs : list Vector2.t) :
  (forall i j, (i < j < length dirs)%nat ->
     1 / 10 ^ 10 <= Rabs (Vector2.dot (nth j dirs Vector2.zero)
                                      (nth i dirs Vector2.zero) - 1)) ->
  let out := fold_left (directionStep hull) idx dirs in
  (forall i j, (i < j < length out)%nat ->
     1 / 10 ^ 10 <= Rabs (Vector2.dot (nth j out Vector2.zero)
                                      (nth i out Vector2.zero) - 1))
  /\ (length out <= length dirs + length idx)%nat.
Proof.
  revert dirs; induction idx as [|k idx IH]; intros dirs Hinv; cbn zeta.
  - simpl. split; [exact Hinv | lia].
  - cbn [fold_left].
    assert (Hstep : forall i j, (i < j < length (directionStep hull dirs k))%nat ->
              1 / 10 ^ 10 <= Rabs (Vector2.dot
                (nth j (directionStep hull dirs k) Vector2.zero)
                (nth i (directionStep hull dirs k) Vector2.zero) - 1)).
    { unfold directionStep.
      destruct (isDuplicateDirection dirs (edgeDirection hull k)) eqn:Hdup;
        [exact Hinv|].
      intros i j Hij. rewrite length_app in Hij. simpl in Hij.
      destruct (Nat.eq_dec j (length dirs)) as [->|Hj].
      - rewrite nth_middle. rewrite app_nth1 by lia.
        apply (isDuplicateDirection_false _ _ Hdup). apply nth_In. lia.
      - rewrite !app_nth1 by lia. apply Hinv. lia. }
    destruct (IH _ Hstep) as (H1 & H2). split; [exact H1|].
    cbn zeta in H2.
    assert (Hl : (length (directionStep hull dirs k) <= S (length dirs))%nat).
    { unfold directionStep.
      destruct (isDuplicateDirection dirs (edgeDirection hull k));
        [lia | rewrite length_app; simpl; lia]. }
    simpl. lia.
Qed.

Lemma directions_first (hull : list Vector2.t) (idx : list nat)
    (d : Vector2.t) (dirs : list Vector2.t) :
  exists more, fold_left (directionStep hull) idx (d :: dirs) = d :: more.
Proof.
  revert dirs; induction idx as [|k idx IH]; intros dirs; [now exists dirs|].
  cbn [fold_left]. unfold directionStep at 2.
  destruct (isDuplicateDirection (d :: dirs) (edgeDirection hull k)).
  - apply IH.
  - cbn [app]. apply IH.
Qed.

(** X6.  [getUniqueEdgeDirections] returns at most one direction per edge,
    the direction of the first edge comes first, and every kept direction
    failed the similarity test against each direction kept before it: for
    entries [i < j] of the result, [|d_j . d_i - 1|] is at least 1e-10. *)
Theorem getUniqueEdgeDirections_pairwise_apart (hull : list Vector2.t) :
  let directions := getUniqueEdgeDirections hull in
  (length directions <= length hull)%nat
  /\ (hull <> [] -> exists more, directions = edgeDirection hull 0 :: more)
  /\ (forall i j, (i < j < length directions)%nat ->
        1 / 10 ^ 10
        <= Rabs (Vector2.dot (nth j directions Vector2.zero)
                             (nth i directions Vector2.zero) - 1)).
Proof.
  cbn zeta. unfold getUniqueEdgeDirections.
  destruct (directions_fold_apart hull (seq 0 (length hull)) []) as (H1 & H2).
  { intros i j Hij. simpl in Hij. lia. }
  cbn zeta in H1, H2. rewrite length_seq in H2. simpl in H2.
  split; [exact H2|]. split; [|exact H1].
  intros Hne. destruct hull as [|p hull']; [congruence|].
  cbn [length seq fold_left]. unfold directionStep at 2.
  cbn [isDuplicateDirection existsb app]. apply directions_first.
Qed.

(** ** The rectangle of a direction encloses the hull *)

Lemma candidate_tight (hull : list Vector2.t) (dir : Vector2.t) :
  hull <> [] ->
  Vector2.x dir * Vector2.x dir + Vector2.y dir * Vector2.y dir = 1 ->
  let r := snd (candidate hull dir) in
  (forall h, In h hull ->
     Rabs (along r h) <= width r / 2 /\ Rabs (across r h) <= height r / 2)
  /\ (exists h, In h hull /\ along r h = - (width r / 2))
  /\ (exists h, In h hull /\ along r h = width r / 2)
  /\ (exists h, In h hull /\ across r h = - (height r / 2))
  /\ (exists h, In h hull /\ across r h = height r / 2).
Proof.
  intros Hne Hu. cbn zeta. unfold candidate.
  destruct (getExtremeProjections_spec hull dir Hne)
    as (lo & hi & -> & Hb & (pl & Hpl & El) & (ph & Hph & Eh)).
  destruct (getExtremeProjections_spec hull
              (Vector2.mk (- Vector2.y dir) (Vector2.x dir)) Hne)
    as (lo' & hi' & -> & Hb' & (ql & Hql & El') & (qh & Hqh & Eh')).
  cbn [snd minProj maxProj toR].
  destruct (unit_cos_sin _ _ Hu) as [Hc Hs].
  unfold along, across. cbn [rcenter width height angle Vector2.x Vector2.y].
  rewrite Hc, Hs. destruct dir as [d1 d2]. cbn [Vector2.x Vector2.y] in *.
  assert (Ha : forall h : Vector2.t,
    (Vector2.x h - ((lo + hi) * d1 / 2 + (lo' + hi') * - d2 / 2)) * d1
    + (Vector2.y h - ((lo + hi) * d2 / 2 + (lo' + hi') * d1 / 2)) * d2
    = Vector2.dot h (Vector2.mk d1 d2) - (lo + hi) / 2).
  { intros h. unfold Vector2.dot. cbn [Vector2.x Vector2.y].
    transitivity (Vector2.x h * d1 + Vector2.y h * d2
                  - (lo + hi) / 2 * (d1 * d1 + d2 * d2)); [field | rewrite Hu; ring]. }
  assert (Hc' : forall h : Vector2.t,
    (Vector2.x h - ((lo + hi) * d1 / 2 + (lo' + hi') * - d2 / 2)) * - d2
    + (Vector2.y h - ((lo + hi) * d2 / 2 + (lo' + hi') * d1 / 2)) * d1
    = Vector2.dot h (Vector2.mk (- d2) d1) - (lo' + hi') / 2).
  { intros h. unfold Vector2.dot. cbn [Vector2.x Vector2.y].
    transitivity (Vector2.x h * - d2 + Vector2.y h * d1
                  - (lo' + hi') / 2 * (d1 * d1 + d2 * d2)); [field | rewrite Hu; ring]. }
  split; [|split; [|split; [|split]]].
  - intros h Hh. rewrite Ha, Hc'. specialize (Hb h Hh). specialize (Hb' h Hh).
    split; apply Rabs_le; lra.
  - exists pl. split; [exact Hpl|]. rewrite Ha, El. lra.
  - exists ph. split; [exact Hph|]. rewrite Ha, Eh. lra.
  - exists ql. split; [exact Hql|]. rewrite Hc', El'. lra.
  - exists qh. split; [exact Hqh|]. rewrite Hc', Eh'. lra.
Qed.

Lemma proper_edge_unit (hull : list Vector2.t) (i : nat) :
  properEdges hull -> (i < length hull)%nat ->
  Vector2.x (edgeDirection hull i) * Vector2.x (edgeDirection hull i)
  + Vector2.y (edgeDirection hull i) * Vector2.y (edgeDirection hull i) = 1.
Proof.
  intros Hp Hi. unfold edgeDirection. apply normalize_unit.
  specialize (Hp i Hi). intros E. injection E as E1 E2. apply Hp.
  destruct (nth i hull Vector2.zero) as [a1 a2],
           (nth (S i mod length hull) hull Vector2.zero) as [b1 b2].
  cbn [Vector2.x Vector2.y] in *. f_equal; lra.
Qed.

(** X7.  For a hull of three or more vertices whose cyclically consecutive
    vertices differ, the rectangle returned by [enhancedRotatingCalipers]
    encloses the hull and touches it on all four sides: measured from the
    returned centre along the returned angle and across it, every vertex is
    within half the width and half the height, and each of the four bounds
    is attained by a vertex. *)
Theorem enhancedRotatingCalipers_encloses_hull (hull : list Vector2.t) :
  (3 <= length hull)%nat ->
  properEdges hull ->
  let r := enhancedRotatingCalipers hull in
  (forall h, In h hull ->
     Rabs (along r h) <= width r / 2 /\ Rabs (across r h) <= height r / 2)
  /\ (exists h, In h hull /\ along r h = - (width r / 2))
  /\ (exists h, In h hull /\ along r h = width r / 2)
  /\ (exists h, In h hull /\ across r h = - (height r / 2))
  /\ (exists h, In h hull /\ across r h = height r / 2).
Proof.
  intros Hlen Hp. cbn zeta.
  destruct (enhancedRotatingCalipers_first_minimum hull Hlen)
    as (pre & d & post & Hd & -> & _).
  destruct (getUniqueEdgeDirections_spec hull) as (Hfrom & _).
  destruct (Hfrom d) as (i & Hi & ->).
  { rewrite Hd. apply in_or_app. right. now left. }
  apply candidate_tight.
  - intros ->. simpl in Hlen. lia.
  - now apply proper_edge_unit.
Qed.

Lemma bentBase_properEdges : properEdges bentBase.
Proof.
  intros i Hi. pose proof (bentBase_convex i Hi) as H.
  apply crossProduct_distinct in H. tauto.
Qed.

Lemma enhancedRotatingCalipers_encloses_hull_witness :
  (3 <= length bentBase)%nat
  /\ properEdges bentBase
  /\ exists h, In h bentBase
       /\ along (enhancedRotatingCalipers bentBase) h
          = width (enhancedRotatingCalipers bentBase) / 2.
Proof.
  assert (H3 : (3 <= length bentBase)%nat) by (simpl; lia).
  split; [exact H3|]. split; [exact bentBase_properEdges|].
  exact (proj1 (proj2 (proj2
    (enhancedRotatingCalipers_encloses_hull bentBase H3 bentBase_properEdges)))).
Defined.

(** ** A hull with a repeated vertex *)

Lemma normalize_zero : Vector2.normalize (Vector2.mk 0 0) = Vector2.zero.
Proof.
  unfold Vector2.normalize, Vector2.divideScalar, Vector2.length, Vector2.zero.
  cbn [Vector2.x Vector2.y].
  destruct (Req_dec_T (sqrt (0 * 0 + 0 * 0)) 0) as [_|Hn].
  - f_equal; field.
  - exfalso. apply Hn. replace (0 * 0 + 0 * 0) with 0 by ring. apply sqrt_0.
Qed.

Lemma candidate_zero (hull : list Vector2.t) :
  hull <> [] -> fst (candidate hull Vector2.zero) = 0.
Proof.
  intros Hne. unfold candidate.
  rewrite (extreme_values hull Vector2.zero 0 0).
  - cbn [fst minProj maxProj toR]. ring.
  - intros p _. unfold Vector2.dot, Vector2.zero. simpl. lra.
  - destruct hull as [|p hull']; [congruence|]. exists p. split; [now left|].
    unfold Vector2.dot, Vector2.zero. simpl. lra.
  - destruct hull as [|p hull']; [congruence|]. exists p. split; [now left|].
    unfold Vector2.dot, Vector2.zero. simpl. lra.
Qed.

(** X8.  When two cyclically consecutive vertices of a hull of three or
    more vertices coincide, [enhancedRotatingCalipers] returns a rectangle
    of area 0: the edge between them normalises to the zero vector, which
    the direction loop never merges with another direction and whose
    rectangle has no extent. *)
Theorem enhancedRotatingCalipers_repeated_vertex (hull : list Vector2.t) (i : nat) :
  (3 <= length hull)%nat ->
  (i < length hull)%nat ->
  nth i hull Vector2.zero = nth (S i mod length hull) hull Vector2.zero ->
  width (enhancedRotatingCalipers hull) * height (enhancedRotatingCalipers hull) = 0.
Proof.
  intros Hlen Hi Heq.
  assert (Hne : hull <> []) by (intros ->; simpl in Hlen; lia).
  assert (Hz : edgeDirection hull i = Vector2.zero).
  { unfold edgeDirection. rewrite <- Heq.
    replace (Vector2.x (nth i hull Vector2.zero) - Vector2.x (nth i hull Vector2.zero))
      with 0 by ring.
    replace (Vector2.y (nth i hull Vector2.zero) - Vector2.y (nth i hull Vector2.zero))
      with 0 by ring.
    apply normalize_zero. }
  destruct (enhancedRotatingCalipers_first_minimum hull Hlen)
    as (pre & d & post & Hd & -> & Hpre & Hpost).
  rewrite <- candidate_area.
  destruct (getUniqueEdgeDirections_spec hull) as (_ & Hcover).
  assert (Hin : In Vector2.zero (getUniqueEdgeDirections hull)).
  { destruct (Hcover i Hi) as [Hin|(e & _ & Hclose)]; [now rewrite <- Hz|].
    exfalso. rewrite Hz in Hclose. unfold Vector2.dot, Vector2.zero in Hclose.
    cbn [Vector2.x Vector2.y] in Hclose.
    replace (0 * Vector2.x e + 0 * Vector2.y e - 1) with (-1) in Hclose by ring.
    rewrite Rabs_left in Hclose by lra. lra. }
  pose proof (candidate_nonneg hull d Hne) as [Hw Hh].
  pose proof (candidate_area hull d) as Ha.
  assert (H0 : 0 <= fst (candidate hull d)) by (rewrite Ha; now apply Rmult_le_pos).
  rewrite Hd in Hin. apply in_app_or in Hin.
  destruct Hin as [Hin|[E|Hin]].
  - specialize (Hpre _ Hin). rewrite candidate_zero in Hpre by assumption. lra.
  - rewrite E. now apply candidate_zero.
  - specialize (Hpost _ Hin). rewrite candidate_zero in Hpost by assumption. lra.
Qed.

Lemma enhancedRotatingCalipers_repeated_vertex_witness :
  (3 <= length repeatedVertex)%nat
  /\ (0 < length repeatedVertex)%nat
  /\ nth 0 repeatedVertex Vector2.zero
     = nth (1 mod length repeatedVertex) repeatedVertex Vector2.zero
  /\ width (enhancedRotatingCalipers repeatedVertex)
     * height (enhancedRotatingCalipers repeatedVertex) = 0.
Proof.
  assert (H3 : (3 <= length repeatedVertex)%nat) by (simpl; lia).
  assert (H0 : (0 < length repeatedVertex)%nat) by (simpl; lia).
  assert (E : nth 0 repeatedVertex Vector2.zero
              = nth (1 mod length repeatedVertex) repeatedVertex Vector2.zero)
    by reflexivity.
  split; [exact H3|]. split; [exact H0|]. split; [exact E|].
  exact (enhancedRotatingCalipers_repeated_vertex repeatedVertex 0 H3 H0 E).
Defined.

(** ** What the deduplication loop stores *)

Lemma keptTriples_only_first (cx cz : R) (ts : list Vector3.t)
    (seen : list (Z * Z)) (p : Vector3.t) :
  In p (keptTriples cx cz seen ts) ->
  exists i,
    nth_error ts i = Some p
    /\ ~ In (keyOf cx cz p) seen
    /\ forall j q, (j < i)%nat -> nth_error ts j = Some q ->
         keyOf cx cz q <> keyOf cx cz p.
Proof.
  revert seen; induction ts as [|a ts IH]; intros seen; simpl; [tauto|].
  destruct (existsb (key_eqb (keyOf cx cz a)) seen) eqn:Hseen.
  - intros Hin. destruct (IH seen Hin) as (i & Hi & Hns & Hfirst).
    exists (S i). split; [exact Hi|]. split; [exact Hns|].
    intros [|j] q Hj Hq.
    + injection Hq as <-. apply seen_In in Hseen. congruence.
    + apply (Hfirst j); [lia | exact Hq].
  - intros [<-|Hin].
    + exists 0%nat. split; [reflexivity|]. split.
      * intros Hin. apply seen_In in Hin. congruence.
      * intros j q Hj. lia.
    + destruct (IH _ Hin) as (i & Hi & Hns & Hfirst).
      exists (S i). split; [exact Hi|]. split.
      * intros Hs. apply Hns. now right.
      * intros [|j] q Hj Hq.
        -- injection Hq as <-. intros E. apply Hns. left. exact E.
        -- apply (Hfirst j); [lia | exact Hq].
Qed.

Lemma keptTriples_length (cx cz : R) (ts : list Vector3.t) (seen : list (Z * Z)) :
  (length (keptTriples cx cz seen ts) <= length ts)%nat.
Proof.
  revert seen; induction ts as [|a ts IH]; intros seen; simpl; [lia|].
  destruct (existsb (key_eqb (keyOf cx cz a)) seen); simpl.
  - specialize (IH seen). lia.
  - specialize (IH (keyOf cx cz a :: seen)). lia.
Qed.

Lemma keptTriples_sub (cx cz : R) (ts : list Vector3.t) (seen : list (Z * Z))
    (p : Vector3.t) :
  In p (keptTriples cx cz seen ts) -> In p ts.
Proof.
  intros H. destruct (keptTriples_only_first _ _ _ _ _ H) as (i & Hi & _).
  now apply nth_error_In in Hi.
Qed.

Lemma NoDup_map_inj {A B : Type} (f : A -> B) (l : list A) (a b : A) :
  NoDup (map f l) -> In a l -> In b l -> f a = f b -> a = b.
Proof.
  induction l as [|c l IH]; simpl; [tauto|].
  intros Hnd Ha Hb E. inversion Hnd as [|? ? Hnot Hnd']; subst.
  destruct Ha as [->|Ha], Hb as [->|Hb]; auto.
  - exfalso. apply Hnot. rewrite E. now apply in_map.
  - exfalso. apply Hnot. rewrite <- E. now apply in_map.
Qed.

Lemma points2D_length (points : list R) :
  (length (points2D (dedup points)) <= length (triples points))%nat.
Proof.
  rewrite dedup_kept. cbn [points2D]. rewrite length_map. apply keptTriples_length.
Qed.

(** X9.  The deduplication loop of [fromPoints] stores exactly the centred
    projections of the triples that are the first of their key; no two
    stored points have the same key; [uniquePoints] and [points2D] have the
    same size; and no more points are stored than the array has triples. *)
Theorem dedup_stores_first_point_of_each_key (points : list R) :
  let cx := fst (centroid points) in
  let cz := snd (centroid points) in
  let d := dedup points in
  (forall v, In v (points2D d)
     <-> exists i p, firstOfKey points i p /\ v = project cx cz p)
  /\ (forall v w, In v (points2D d) -> In w (points2D d) ->
        key (Vector2.x v) (Vector2.y v) = key (Vector2.x w) (Vector2.y w) ->
        v = w)
  /\ length (uniqueKeys d) = length (points2D d)
  /\ (length (points2D d) <= length (triples points))%nat.
Proof.
  cbn zeta. rewrite dedup_kept. cbn [points2D uniqueKeys].
  set (cx := fst (centroid points)). set (cz := snd (centroid points)).
  set (kept := keptTriples cx cz [] (triples points)).
  split; [|split; [|split]].
  - intros v. split.
    + intros Hv. apply in_map_iff in Hv as (p & <- & Hp).
      destruct (keptTriples_only_first _ _ _ _ _ Hp) as (i & Hi & _ & Hfirst).
      exists i, p. split; [|reflexivity]. split; [exact Hi | exact Hfirst].
    + intros (i & p & (Hi & Hfirst) & ->). apply in_map.
      apply (keptTriples_first cx cz _ [] i); [exact Hi | tauto | exact Hfirst].
  - intros v w Hv Hw E.
    apply in_map_iff in Hv as (p & <- & Hp).
    apply in_map_iff in Hw as (q & <- & Hq).
    f_equal. apply (NoDup_map_inj (keyOf cx cz) kept); try assumption.
    apply keptTriples_keys.
  - now rewrite length_rev, !length_map.
  - rewrite length_map. apply keptTriples_length.
Qed.

Lemma round_same_close (u v : R) : Math.round u = Math.round v -> Rabs (u - v) < 1.
Proof.
  unfold Math.round. intros E.
  destruct (base_Int_part (u + / 2)) as [H1 H2].
  destruct (base_Int_part (v + / 2)) as [H3 H4].
  rewrite E in H1, H2. apply Rabs_def1; lra.
Qed.

Lemma epsilon_pos : 0 < epsilon.
Proof. unfold epsilon. apply Rdiv_lt_0_compat; [lra | apply pow_lt; lra]. Qed.

Lemma same_key_close (cx cz : R) (p q : Vector3.t) :
  keyOf cx cz p = keyOf cx cz q ->
  Rabs (Vector3.x p - Vector3.x q) < epsilon
  /\ Rabs (Vector3.z p - Vector3.z q) < epsilon.
Proof.
  unfold keyOf, key. intros E. injection E as Ex Ez.
  apply round_same_close in Ex. apply round_same_close in Ez.
  pose proof epsilon_pos as He.
  assert (Hs : forall a b c : R, Rabs ((a - c) / epsilon - (b - c) / epsilon) < 1 ->
                 Rabs (a - b) < epsilon).
  { intros a b c H.
    replace ((a - c) / epsilon - (b - c) / epsilon) with ((a - b) / epsilon) in H
      by (field; lra).
    unfold Rdiv in H. rewrite Rabs_mult, (Rabs_pos_eq (/ epsilon)) in H
      by (left; now apply Rinv_0_lt_compat).
    apply (Rmult_lt_compat_r epsilon) in H; [|exact He].
    rewrite Rmult_assoc, Rinv_l, Rmult_1_r, Rmult_1_l in H by lra. exact H. }
  split; [exact (Hs _ _ _ Ex) | exact (Hs _ _ _ Ez)].
Qed.

(** ** Moving the input moves the box *)

Lemma triples_flat (ts : list Vector3.t) : triples (flat ts) = ts.
Proof.
  induction ts as [|[px py pz] ts IH]; [reflexivity|].
  unfold flat in *. cbn [flat_map app triples Vector3.x Vector3.y Vector3.z].
  now rewrite IH.
Qed.

Lemma length_flat (ts : list Vector3.t) : length (flat ts) = (3 * length ts)%nat.
Proof.
  induction ts as [|p ts IH]; [reflexivity|].
  unfold flat in *. cbn [flat_map]. rewrite length_app, IH. simpl. lia.
Qed.

Lemma sum_from (f : Vector3.t -> R) (ts : list Vector3.t) (s : R) :
  fold_left (fun acc p => acc + f p) ts s
  = s + fold_left (fun acc p => acc + f p) ts 0.
Proof.
  revert s; induction ts as [|p ts IH]; intros s; simpl; [ring|].
  rewrite IH, (IH (0 + f p)). ring.
Qed.

Lemma sum_translate (f : Vector3.t -> R) (g : Vector3.t -> Vector3.t) (a : R)
    (ts : list Vector3.t) (s : R) :
  (forall p, f (g p) = f p + a) ->
  fold_left (fun acc p => acc + f p) (map g ts) s
  = fold_left (fun acc p => acc + f p) ts s + INR (length ts) * a.
Proof.
  intros Hf. revert s; induction ts as [|p ts IH]; intros s.
  - simpl. ring.
  - cbn [map fold_left length]. rewrite IH, Hf, S_INR.
    rewrite (sum_from f ts (s + (f p + a))), (sum_from f ts (s + f p)). ring.
Qed.

Lemma centroid_translate (a b c : R) (ts : list Vector3.t) :
  ts <> [] ->
  centroid (flat (translate a b c ts))
  = (fst (centroid (flat ts)) + a, snd (centroid (flat ts)) + c).
Proof.
  intros Hne. unfold centroid. rewrite !triples_flat, !length_flat.
  unfold translate. rewrite !length_map.
  rewrite (sum_translate Vector3.x _ a) by reflexivity.
  rewrite (sum_translate Vector3.z _ c) by reflexivity.
  cbn [fst snd]. rewrite mult_INR.
  assert (Hn : 0 < INR (length ts)).
  { apply lt_0_INR. destruct ts; [congruence | simpl; lia]. }
  change (INR 3) with (1 + 1 + 1). f_equal; field; lra.
Qed.

Lemma keyOf_translate (cx cz a b c : R) (p : Vector3.t) :
  keyOf (cx + a) (cz + c)
    (Vector3.mk (Vector3.x p + a) (Vector3.y p + b) (Vector3.z p + c))
  = keyOf cx cz p.
Proof.
  unfold keyOf. cbn [Vector3.x Vector3.z].
  replace (Vector3.x p + a - (cx + a)) with (Vector3.x p - cx) by ring.
  replace (Vector3.z p + c - (cz + c)) with (Vector3.z p - cz) by ring.
  reflexivity.
Qed.

Lemma project_translate (cx cz a b c : R) (p : Vector3.t) :
  project (cx + a) (cz + c)
    (Vector3.mk (Vector3.x p + a) (Vector3.y p + b) (Vector3.z p + c))
  = project cx cz p.
Proof.
  unfold project. cbn [Vector3.x Vector3.z]. f_equal; ring.
Qed.

Lemma keptTriples_translate (cx cz a b c : R) (ts : list Vector3.t)
    (seen : list (Z * Z)) :
  keptTriples (cx + a) (cz + c) seen (translate a b c ts)
  = translate a b c (keptTriples cx cz seen ts).
Proof.
  revert seen; induction ts as [|p ts IH]; intros seen; [reflexivity|].
  unfold translate in *. cbn [map keptTriples]. rewrite keyOf_translate.
  destruct (existsb (key_eqb (keyOf cx cz p)) seen).
  - apply IH.
  - cbn [map]. f_equal. apply IH.
Qed.

Lemma fold_Rmin_shift (b : R) (l : list R) (v : R) :
  fold_left Rmin (map (fun y => y + b) l) (v + b) = fold_left Rmin l v + b.
Proof.
  revert v; induction l as [|w l IH]; intros v; simpl; [reflexivity|].
  rewrite <- IH. f_equal. unfold Rmin.
  destruct (Rle_dec (v + b) (w + b)), (Rle_dec v w); try reflexivity; lra.
Qed.

Lemma fold_Rmax_shift (b : R) (l : list R) (v : R) :
  fold_left Rmax (map (fun y => y + b) l) (v + b) = fold_left Rmax l v + b.
Proof.
  revert v; induction l as [|w l IH]; intros v; simpl; [reflexivity|].
  rewrite <- IH. f_equal. unfold Rmax.
  destruct (Rle_dec (v + b) (w + b)), (Rle_dec v w); try reflexivity; lra.
Qed.

Lemma dedup_translate (a b c : R) (ts : list Vector3.t) :
  points2D (dedup (flat (translate a b c ts))) = points2D (dedup (flat ts))
  /\ (points2D (dedup (flat ts)) <> [] ->
      toR (minY (dedup (flat (translate a b c ts))))
      = toR (minY (dedup (flat ts))) + b
      /\ toR (maxY (dedup (flat (translate a b c ts))))
         = toR (maxY (dedup (flat ts))) + b).
Proof.
  destruct ts as [|t0 ts']; [split; [reflexivity | intros H; now elim H]|].
  set (ts := t0 :: ts').
  assert (Hne : ts <> []) by discriminate.
  rewrite !dedup_kept. cbn [points2D minY maxY].
  rewrite centroid_translate by exact Hne. cbn [fst snd].
  rewrite !triples_flat.
  set (cx := fst (centroid (flat ts))). set (cz := snd (centroid (flat ts))).
  rewrite keptTriples_translate.
  set (kept := keptTriples cx cz [] ts).
  assert (Hp : map (project (cx + a) (cz + c)) (translate a b c kept)
               = map (project cx cz) kept).
  { unfold translate. rewrite map_map. apply map_ext. intros p.
    apply project_translate. }
  split; [exact Hp|].
  intros Hk. destruct kept as [|k0 kept']; [now elim Hk|].
  unfold translate. cbn [map]. rewrite !fold_min_finite, !fold_max_finite.
  cbn [toR Vector3.y]. rewrite !map_map. cbn [Vector3.y].
  rewrite <- (map_map Vector3.y (fun y => y + b)).
  rewrite fold_Rmin_shift, fold_Rmax_shift. split; reflexivity.
Qed.

(** X11.  Moving every input point by one vector [(a, b, c)] leaves the
    stored centred projections as they are and, on the success path, moves
    the centre of the box by [(a, b, c)], with the same half-sizes and the
    same rotation.  (Over the reals: the centring of the coordinates
    cancels the move exactly.) *)
Theorem fromPoints_translation
    (this : MinimumBoundingRectangle) (ts : list Vector3.t) (a b c : R) :
  (3 <= length (points2D (dedup (flat ts))))%nat ->
  let box := fromPoints this (flat ts) in
  points2D (dedup (flat (translate a b c ts))) = points2D (dedup (flat ts))
  /\ fromPoints this (flat (translate a b c ts))
     = mkMBR (Vector3.mk (Vector3.x (center box) + a)
                         (Vector3.y (center box) + b)
                         (Vector3.z (center box) + c))
             (halfSizes box) (rotation box).
Proof.
  intros H3. cbn zeta.
  destruct (dedup_translate a b c ts) as (Hp & Hy).
  split; [exact Hp|].
  destruct Hy as (Hlo & Hhi).
  { intros E. rewrite E in H3. simpl in H3. lia. }
  assert (Hts : (3 <= length ts)%nat).
  { pose proof (points2D_length (flat ts)) as H. rewrite triples_flat in H. lia. }
  assert (Hne : ts <> []) by (intros ->; simpl in Hts; lia).
  rewrite !fromPoints_success.
  - rewrite Hp, Hlo, Hhi, centroid_translate by exact Hne.
    cbn [center halfSizes rotation fst snd Vector3.x Vector3.y Vector3.z].
    f_equal; f_equal; field.
  - rewrite length_flat. lia.
  - exact H3.
  - rewrite length_flat. unfold translate. rewrite length_map. lia.
  - now rewrite Hp.
Qed.

Lemma fromPoints_translation_witness :
  (3 <= length (points2D (dedup (flat sampleTriangle))))%nat
  /\ points2D (dedup (flat (translate 1 2 3 sampleTriangle)))
     = points2D (dedup (flat sampleTriangle)).
Proof.
  assert (H3 : (3 <= length (points2D (dedup (flat sampleTriangle))))%nat).
  { rewrite points2D_sampleTriangle. simpl. lia. }
  split; [exact H3|].
  exact (proj1 (fromPoints_translation new_MinimumBoundingRectangle
                  sampleTriangle 1 2 3 H3)).
Defined.

(** ** Boxes grown from a list of points *)

Lemma setFromPoints_extent (p : Vector3.t) (l : list Vector3.t) :
  exists mn mx,
    fold_left Box3.expandByPoint (p :: l) Box3.empty = Box3.box mn mx
    /\ (forall q, In q (p :: l) -> within (Box3.box mn mx) q)
    /\ (exists q, In q (p :: l) /\ Vector3.x q = Vector3.x mn)
    /\ (exists q, In q (p :: l) /\ Vector3.y q = Vector3.y mn)
    /\ (exists q, In q (p :: l) /\ Vector3.z q = Vector3.z mn)
    /\ (exists q, In q (p :: l) /\ Vector3.x q = Vector3.x mx)
    /\ (exists q, In q (p :: l) /\ Vector3.y q = Vector3.y mx)
    /\ (exists q, In q (p :: l) /\ Vector3.z q = Vector3.z mx).
Proof.
  cbn [fold_left Box3.expandByPoint]. rewrite expand_fold.
  eexists _, _. split; [reflexivity|]. unfold within.
  rewrite fold_min_x, fold_min_y, fold_min_z, fold_max_x, fold_max_y, fold_max_z.
  destruct (coordinate_extent Vector3.x p l) as (Bx & Lx & Ux).
  destruct (coordinate_extent Vector3.y p l) as (By & Ly & Uy).
  destruct (coordinate_extent Vector3.z p l) as (Bz & Lz & Uz).
  split; [intros q Hq; auto|]. tauto.
Qed.

(** ** toBox3 contains the oriented box *)

Lemma Rabs_bounds (l h : R) : Rabs l <= h -> - h <= l <= h.
Proof. unfold Rabs. destruct (Rcase_abs l); lra. Qed.

Lemma signed_bound (positive : bool) (k l h : R) :
  Rabs l <= h -> (positive = true <-> 0 <= k) -> k * l <= k * signed positive h.
Proof.
  intros Hl Hs. apply Rabs_bounds in Hl. unfold signed.
  destruct positive.
  - assert (0 <= k) by now apply Hs. nra.
  - assert (~ 0 <= k) by (intros H; apply Hs in H; discriminate). nra.
Qed.

Lemma nonnegb_spec (k : R) : nonnegb k = true <-> 0 <= k.
Proof. unfold nonnegb. destruct (Rle_dec 0 k); split; auto; discriminate. Qed.

Lemma nonnegb_opp (k : R) : negb (nonnegb k) = true <-> ~ 0 <= k.
Proof.
  unfold nonnegb. destruct (Rle_dec 0 k); simpl; split; auto;
    try discriminate; tauto.
Qed.

Lemma signed_bound_low (positive : bool) (k l h : R) :
  Rabs l <= h -> (positive = true <-> ~ 0 <= k) -> k * signed positive h <= k * l.
Proof.
  intros Hl Hs. apply Rabs_bounds in Hl. unfold signed.
  destruct positive.
  - assert (~ 0 <= k) by now apply Hs. nra.
  - assert (0 <= k).
    { destruct (Rle_dec 0 k) as [|Hn]; [assumption|].
      apply Hs in Hn. discriminate. }
    nra.
Qed.

(** The coordinates of a corner, and of a point given by its local
    offsets, under a rotation about the vertical axis. *)
Lemma orientedCorner_coordinates (c h : Vector3.t) (theta : R)
    (sx sy sz : bool) :
  let this := mkMBR c h (Matrix4.makeRotationY theta) in
  let hx := signed sx (Vector3.x h) in
  let hy := signed sy (Vector3.y h) in
  let hz := signed sz (Vector3.z h) in
  orientedCorner this sx sy sz
  = Vector3.mk (cos theta * hx + sin theta * hz + Vector3.x c)
               (hy + Vector3.y c)
               (- sin theta * hx + cos theta * hz + Vector3.z c).
Proof.
  cbn zeta.
  unfold orientedCorner, Vector3.applyMatrix4, Vector3.add, Matrix4.makeRotationY.
  cbn. f_equal; field.
Qed.

Lemma world_coordinates (c h w : Vector3.t) (theta : R) :
  let this := mkMBR c h (Matrix4.makeRotationY theta) in
  let loc := toLocal this w in
  w = Vector3.mk
        (cos theta * Vector3.x loc + sin theta * Vector3.z loc + Vector3.x c)
        (Vector3.y loc + Vector3.y c)
        (- sin theta * Vector3.x loc + cos theta * Vector3.z loc + Vector3.z c).
Proof.
  cbn zeta. rewrite <- (toLocal_inverse c h w theta) at 1.
  unfold Vector3.applyMatrix4, Vector3.add, Matrix4.makeRotationY.
  cbn. f_equal; field.
Qed.

Lemma toBox3_within (c h w : Vector3.t) (theta : R) :
  let this := mkMBR c h (Matrix4.makeRotationY theta) in
  insideBox this w -> within (toBox3 this) w.
Proof.
  intros this (Hx & Hy & Hz).
  pose proof (worldCorners_orientedCorner this) as Hc.
  unfold toBox3, Box3.setFromPoints.
  destruct (worldCorners this) as [|p l] eqn:E.
  { exfalso. destruct (proj2 (Hc (orientedCorner this true true true))); eauto. }
  destruct (setFromPoints_extent p l) as (mn & mx & -> & Hb & _).
  assert (Hcorner : forall sx sy sz,
            within (Box3.box mn mx) (orientedCorner this sx sy sz)).
  { intros sx sy sz. apply Hb. apply Hc. eauto. }
  unfold this in Hcorner.
  pose proof (world_coordinates c h w theta) as Hw. cbn zeta in Hw. fold this in Hw.
  set (loc := toLocal this w) in *.
  cbn [halfSizes this] in Hx, Hy, Hz.
  set (ct := cos theta) in *. set (st := sin theta) in *.
  pose proof (Hcorner (nonnegb ct) true (nonnegb st)) as (Hxu & _).
  pose proof (Hcorner (negb (nonnegb ct)) false (negb (nonnegb st))) as (Hxl & _).
  pose proof (Hcorner true true true) as (_ & Hyu & _).
  pose proof (Hcorner true false true) as (_ & Hyl & _).
  pose proof (Hcorner (nonnegb (- st)) true (nonnegb ct)) as (_ & _ & Hzu).
  pose proof (Hcorner (negb (nonnegb (- st))) false (negb (nonnegb ct)))
    as (_ & _ & Hzl).
  rewrite orientedCorner_coordinates in Hxu, Hxl, Hyu, Hyl, Hzu, Hzl.
  cbn [Vector3.x Vector3.y Vector3.z] in Hxu, Hxl, Hyu, Hyl, Hzu, Hzl.
  fold ct st in Hxu, Hxl, Hyu, Hyl, Hzu, Hzl.
  unfold signed in Hyu, Hyl. apply Rabs_bounds in Hy.
  pose proof (signed_bound _ ct _ _ Hx (nonnegb_spec _)).
  pose proof (signed_bound _ st _ _ Hz (nonnegb_spec _)).
  pose proof (signed_bound_low _ ct _ _ Hx (nonnegb_opp _)).
  pose proof (signed_bound_low _ st _ _ Hz (nonnegb_opp _)).
  pose proof (signed_bound _ (- st) _ _ Hx (nonnegb_spec _)).
  pose proof (signed_bound_low _ (- st) _ _ Hx (nonnegb_opp _)).
  pose proof (signed_bound _ ct _ _ Hz (nonnegb_spec _)).
  pose proof (signed_bound_low _ ct _ _ Hz (nonnegb_opp _)).
  rewrite Hw. unfold within. cbn [Vector3.x Vector3.y Vector3.z].
  repeat split; lra.
Qed.

Lemma identity_is_rotation : Matrix4.identity = Matrix4.makeRotationY 0.
Proof.
  unfold Matrix4.identity, Matrix4.makeRotationY.
  rewrite cos_0, sin_0, Ropp_0. reflexivity.
Qed.

Lemma reachable_rotation (this : MinimumBoundingRectangle) :
  reachable this -> exists theta, rotation this = Matrix4.makeRotationY theta.
Proof.
  induction 1 as [|this points _ IH].
  - exists 0. apply identity_is_rotation.
  - destruct (fromPoints_cases this points) as [->|(H9 & H3)]; [exact IH|].
    rewrite fromPoints_success by assumption. cbn [rotation]. eauto.
Qed.

(** X12.  For an instance that was constructed and then updated by
    [fromPoints] only, the box returned by [toBox3] contains every point of
    the oriented box, not only its corners. *)
Theorem toBox3_contains_the_box (this : MinimumBoundingRectangle) (w : Vector3.t) :
  reachable this -> insideBox this w -> within (toBox3 this) w.
Proof.
  intros Hr Hin. destruct (reachable_rotation this Hr) as (theta & E).
  destruct this as [c h m]. cbn [rotation] in E. subst m.
  now apply toBox3_within.
Qed.

Lemma toBox3_contains_the_box_witness :
  reachable new_MinimumBoundingRectangle
  /\ insideBox new_MinimumBoundingRectangle Vector3.zero
  /\ within (toBox3 new_MinimumBoundingRectangle) Vector3.zero.
Proof.
  assert (Hin : insideBox new_MinimumBoundingRectangle Vector3.zero).
  { unfold insideBox, toLocal, new_MinimumBoundingRectangle, Matrix4.identity,
      Vector3.zero.
    cbn [rotation center halfSizes Vector3.x Vector3.y Vector3.z
         Matrix4.n11 Matrix4.n12 Matrix4.n13 Matrix4.n21 Matrix4.n22 Matrix4.n23
         Matrix4.n31 Matrix4.n32 Matrix4.n33].
    repeat split; apply Rabs_le; lra. }
  split; [exact reachable_new|]. split; [exact Hin|].
  exact (toBox3_contains_the_box new_MinimumBoundingRectangle Vector3.zero
           reachable_new Hin).
Defined.

(** X13.  [toBox3] after [fromPoints]: on the success path, for stored
    points that are not all on one line and whose polar angles around the
    pivot are equal or at least the tolerance apart, the axis-aligned box
    returned by [toBox3] contains every stored input point. *)
Theorem toBox3_of_fromPoints_contains_stored_points
    (this : MinimumBoundingRectangle) (points : list R) (i : nat) (p : Vector3.t) :
  (9 <= length points)%nat ->
  (3 <= length (points2D (dedup points)))%nat ->
  nonCollinear (points2D (dedup points)) ->
  separatedAroundPivot (points2D (dedup points)) ->
  firstOfKey points i p ->
  within (toBox3 (fromPoints this points)) p.
Proof.
  intros H9 H3 Hnc Hsep Hfirst.
  pose proof (fromPoints_contains this points i p H9 H3 Hnc Hsep Hfirst) as Hin.
  rewrite fromPoints_success in Hin |- * by assumption.
  now apply toBox3_within.
Qed.

Lemma toBox3_of_fromPoints_contains_stored_points_witness :
  (9 <= length (flat sampleTriangle))%nat
  /\ (3 <= length (points2D (dedup (flat sampleTriangle))))%nat
  /\ nonCollinear (points2D (dedup (flat sampleTriangle)))
  /\ separatedAroundPivot (points2D (dedup (flat sampleTriangle)))
  /\ firstOfKey (flat sampleTriangle) 0 (Vector3.mk 0 0 0)
  /\ within (toBox3 (fromPoints new_MinimumBoundingRectangle (flat sampleTriangle)))
            (Vector3.mk 0 0 0).
Proof.
  assert (H9 : (9 <= length (flat sampleTriangle))%nat) by (simpl; lia).
  assert (H3 : (3 <= length (points2D (dedup (flat sampleTriangle))))%nat)
    by (rewrite points2D_sampleTriangle; simpl; lia).
  assert (Hnc : nonCollinear (points2D (dedup (flat sampleTriangle))))
    by (rewrite points2D_sampleTriangle; apply centredTriangle_nonCollinear).
  assert (Hsep : separatedAroundPivot (points2D (dedup (flat sampleTriangle))))
    by (rewrite points2D_sampleTriangle; apply centredTriangle_separated).
  assert (Hfirst : firstOfKey (flat sampleTriangle) 0 (Vector3.mk 0 0 0))
    by (split; [reflexivity | intros j q Hj; lia]).
  repeat (split; [assumption|]).
  exact (toBox3_of_fromPoints_contains_stored_points _ _ _ _ H9 H3 Hnc Hsep Hfirst).
Defined.

(** * Properties of the scene *)

(** ** The axis-aligned box of the scene *)

(** X14.  For an array of whole triples [updateBoundingBoxes] leaves the
    axis-aligned box empty when the array is empty; otherwise the box
    contains every point of the array, those the oriented box ignores as
    duplicates included, and each of its six bounds is the coordinate of
    some point of the array. *)
Theorem updateBoundingBoxes_aabb_is_extent_of_all_triples
    (mbr : MinimumBoundingRectangle) (ts : list Vector3.t) :
  let aabb := snd (Scene3D.updateBoundingBoxes mbr (flat ts)) in
  (ts = [] -> aabb = Box3.empty)
  /\ (forall p, In p ts -> within aabb p)
  /\ (ts <> [] ->
      exists mn mx,
        aabb = Box3.box mn mx
        /\ (exists q, In q ts /\ Vector3.x q = Vector3.x mn)
        /\ (exists q, In q ts /\ Vector3.y q = Vector3.y mn)
        /\ (exists q, In q ts /\ Vector3.z q = Vector3.z mn)
        /\ (exists q, In q ts /\ Vector3.x q = Vector3.x mx)
        /\ (exists q, In q ts /\ Vector3.y q = Vector3.y mx)
        /\ (exists q, In q ts /\ Vector3.z q = Vector3.z mx)).
Proof.
  cbn zeta. unfold Scene3D.updateBoundingBoxes. cbn [snd]. rewrite triples_flat.
  destruct ts as [|p l].
  - split; [reflexivity|]. split; [intros p []|]. intros H; now elim H.
  - destruct (setFromPoints_extent p l) as (mn & mx & -> & Hb & Hatt).
    split; [discriminate|]. split; [exact Hb|].
    intros _. exists mn, mx. split; [reflexivity | exact Hatt].
Qed.

(** ** The vertical extents of the two boxes *)

Lemma dedup_extent_attained (points : list R) :
  points2D (dedup points) <> [] ->
  exists lo hi pl ph,
    minY (dedup points) = Num lo /\ maxY (dedup points) = Num hi
    /\ In pl (triples points) /\ Vector3.y pl = lo
    /\ In ph (triples points) /\ Vector3.y ph = hi.
Proof.
  rewrite dedup_kept. cbn [points2D minY maxY].
  set (kept := keptTriples _ _ [] (triples points)).
  assert (Hsub : forall p, In p kept -> In p (triples points))
    by (intros p; apply keptTriples_sub).
  destruct kept as [|k0 kept']; [intros H; now elim H|]. intros _.
  cbn [map]. rewrite fold_min_finite, fold_max_finite.
  destruct (coordinate_extent Vector3.y k0 kept')
    as (_ & (pl & Hpl & El) & (ph & Hph & Eh)).
  eexists _, _, pl, ph. split; [reflexivity|]. split; [reflexivity|].
  split; [now apply Hsub|]. split; [exact El|].
  split; [now apply Hsub | exact Eh].
Qed.

(** X15.  On the success path of [fromPoints] the vertical extent of the
    oriented box that [updateBoundingBoxes] computes lies within the
    vertical extent of the axis-aligned box it computes from the same
    array. *)
Theorem updateBoundingBoxes_vertical_extents
    (mbr : MinimumBoundingRectangle) (points : list R) :
  (9 <= length points)%nat ->
  (3 <= length (points2D (dedup points)))%nat ->
  exists mn mx,
    snd (Scene3D.updateBoundingBoxes mbr points) = Box3.box mn mx
    /\ Vector3.y mn
       <= Vector3.y (center (fst (Scene3D.updateBoundingBoxes mbr points)))
          - Vector3.y (halfSizes (fst (Scene3D.updateBoundingBoxes mbr points)))
    /\ Vector3.y (center (fst (Scene3D.updateBoundingBoxes mbr points)))
       + Vector3.y (halfSizes (fst (Scene3D.updateBoundingBoxes mbr points)))
       <= Vector3.y mx.
Proof.
  intros H9 H3. unfold Scene3D.updateBoundingBoxes. cbn [fst snd].
  rewrite fromPoints_success by assumption.
  cbn [center halfSizes Vector3.y].
  destruct (dedup_extent_attained points)
    as (lo & hi & pl & ph & -> & -> & Hpl & El & Hph & Eh).
  { intros E. rewrite E in H3. simpl in H3. lia. }
  cbn [toR].
  destruct (triples points) as [|p l]; [destruct Hpl|].
  destruct (setFromPoints_extent p l) as (mn & mx & -> & Hb & _).
  exists mn, mx. split; [reflexivity|].
  destruct (Hb pl Hpl) as (_ & Hyl & _). destruct (Hb ph Hph) as (_ & Hyh & _).
  lra.
Qed.

Lemma updateBoundingBoxes_vertical_extents_witness :
  (9 <= length (flat sampleTriangle))%nat
  /\ (3 <= length (points2D (dedup (flat sampleTriangle))))%nat
  /\ exists mn mx,
       snd (Scene3D.updateBoundingBoxes new_MinimumBoundingRectangle
              (flat sampleTriangle)) = Box3.box mn mx.
Proof.
  assert (H9 : (9 <= length (flat sampleTriangle))%nat) by (simpl; lia).
  assert (H3 : (3 <= length (points2D (dedup (flat sampleTriangle))))%nat).
  { rewrite points2D_sampleTriangle. simpl. lia. }
  split; [exact H9|]. split; [exact H3|].
  destruct (updateBoundingBoxes_vertical_extents new_MinimumBoundingRectangle
              (flat sampleTriangle) H9 H3) as (mn & mx & E & _).
  exists mn, mx. exact E.
Defined.

(** ** The wireframe of updateMBR *)

Lemma applyMatrix4_setPosition (v c : Vector3.t) (m : Matrix4.t) :
  Matrix4.n14 m = 0 -> Matrix4.n24 m = 0 -> Matrix4.n34 m = 0 ->
  Matrix4.n41 m = 0 -> Matrix4.n42 m = 0 -> Matrix4.n43 m = 0 ->
  Matrix4.n44 m = 1 ->
  Vector3.applyMatrix4 v (THREE.setPosition m c)
  = Vector3.add (Vector3.applyMatrix4 v m) c.
Proof.
  intros H14 H24 H34 H41 H42 H43 H44.
  unfold Vector3.applyMatrix4, THREE.setPosition, Vector3.add.
  cbn [Matrix4.n11 Matrix4.n12 Matrix4.n13 Matrix4.n14
       Matrix4.n21 Matrix4.n22 Matrix4.n23 Matrix4.n24
       Matrix4.n31 Matrix4.n32 Matrix4.n33 Matrix4.n34
       Matrix4.n41 Matrix4.n42 Matrix4.n43 Matrix4.n44
       Vector3.x Vector3.y Vector3.z].
  rewrite H14, H24, H34, H41, H42, H43, H44. f_equal; field.
Qed.

Lemma fromPoints_new_rotation (points : list R) :
  let m := rotation (fromPoints new_MinimumBoundingRectangle points) in
  Matrix4.n14 m = 0 /\ Matrix4.n24 m = 0 /\ Matrix4.n34 m = 0
  /\ Matrix4.n41 m = 0 /\ Matrix4.n42 m = 0 /\ Matrix4.n43 m = 0
  /\ Matrix4.n44 m = 1.
Proof.
  cbn zeta.
  destruct (fromPoints_cases new_MinimumBoundingRectangle points) as [->|(H9 & H3)].
  - simpl. tauto.
  - rewrite fromPoints_success by assumption. simpl. tauto.
Qed.

(** X16.  The eight wireframe vertices that [updateMBR] writes are the
    eight corners that [toBox3] bounds for the same points, in the same
    order, although [updateMBR] moves them with one matrix (the rotation
    with its position set to the centre) and [toBox3] rotates and then
    adds the centre; and every entry of the index array addresses one of
    the eight vertices. *)
Theorem updateMBR_draws_the_corners_of_toBox3 (points : list R) :
  let mbr := fromPoints new_MinimumBoundingRectangle points in
  triples (fst (Scene3D.updateMBR points)) = worldCorners mbr
  /\ (forall i, In i (snd (Scene3D.updateMBR points)) ->
        (i < length (triples (fst (Scene3D.updateMBR points))))%nat).
Proof.
  cbn zeta. unfold Scene3D.updateMBR. cbn [fst snd]. rewrite triples_flat.
  set (mbr := fromPoints new_MinimumBoundingRectangle points).
  assert (E : map (fun v => Vector3.applyMatrix4 v
                     (THREE.setPosition (rotation mbr) (center mbr)))
                  (localCorners (halfSizes mbr))
              = worldCorners mbr).
  { unfold worldCorners. apply map_ext. intros v.
    destruct (fromPoints_new_rotation points) as (H1 & H2 & H3 & H4 & H5 & H6 & H7).
    now apply applyMatrix4_setPosition. }
  rewrite E. split; [reflexivity|].
  intros i Hi. unfold worldCorners, localCorners. cbn [map length].
  simpl in Hi. lia.
Qed.

(** ** The steps of the inspector *)

Lemma support_fold (e p : Vector2.t) (hull : list Vector2.t) (s : Scene3D.Support) :
  let r := fold_left (Scene3D.supportStep e p) hull s in
  let f d := fun acc point =>
       let proj := Vector2.dot point d in
       mkProj (Math.min (minProj acc) proj) (Math.max (maxProj acc) proj) in
  mkProj (Scene3D.minProj1 r) (Scene3D.maxProj1 r)
  = fold_left (f e) hull (mkProj (Scene3D.minProj1 s) (Scene3D.maxProj1 s))
  /\ mkProj (Scene3D.minProj2 r) (Scene3D.maxProj2 r)
     = fold_left (f p) hull (mkProj (Scene3D.minProj2 s) (Scene3D.maxProj2 s)).
Proof.
  cbn zeta. revert s; induction hull as [|h hull IH]; intros s.
  - simpl. split; reflexivity.
  - cbn [fold_left]. destruct (IH (Scene3D.supportStep e p s h)) as (H1 & H2).
    split; [exact H1 | exact H2].
Qed.

Lemma stepAt_candidate (hull : list Vector2.t) (i : nat) (flag : bool) :
  Scene3D.rect (Scene3D.stepAt hull i flag)
  = snd (candidate hull (edgeDirection hull i))
  /\ Scene3D.area (Scene3D.stepAt hull i flag)
     = fst (candidate hull (edgeDirection hull i))
  /\ Scene3D.edge (Scene3D.stepAt hull i flag)
     = (nth i hull Vector2.zero, nth (S i mod length hull) hull Vector2.zero).
Proof.
  unfold Scene3D.stepAt, candidate. fold (edgeDirection hull i).
  set (e := edgeDirection hull i).
  set (p := Vector2.mk (- Vector2.y e) (Vector2.x e)).
  destruct (support_fold e p hull
              (Scene3D.mkSupport Infinity NegInfinity Infinity NegInfinity))
    as (H1 & H2).
  cbn zeta in H1, H2. cbn [Scene3D.minProj1 Scene3D.maxProj1 Scene3D.minProj2
                           Scene3D.maxProj2] in H1, H2.
  fold (getExtremeProjections hull e) in H1.
  fold (getExtremeProjections hull p) in H2.
  rewrite <- H1, <- H2.
  cbn [Scene3D.rect Scene3D.area Scene3D.edge fst snd minProj maxProj].
  split; [|split; reflexivity].
  f_equal. f_equal; field.
Qed.

Lemma fold_Rmin_least (l : list R) (a : R) :
  (forall v, In v (a :: l) -> fold_left Rmin l a <= v)
  /\ In (fold_left Rmin l a) (a :: l).
Proof.
  split.
  - intros v [<-|Hv]; [apply fold_Rmin_le | now apply fold_Rmin_lower].
  - destruct (fold_Rmin_attained l a) as [E|Hin]; [left; now rewrite E | now right].
Qed.

Lemma strictEq_least (v : R) (l : list R) :
  In v l ->
  (Scene3D.strictEq v (fold_left Math.min l Infinity) = true
   <-> forall w, In w l -> v <= w).
Proof.
  destruct l as [|a l]; [intros []|]. intros Hv.
  rewrite fold_min_finite. cbn [Scene3D.strictEq].
  destruct (fold_Rmin_least l a) as (Hle & Hin).
  destruct (Req_dec_T v (fold_left Rmin l a)) as [E|Hne]; split; intros H.
  - intros w Hw. rewrite E. now apply Hle.
  - reflexivity.
  - discriminate.
  - exfalso. apply Hne. apply Rle_antisym; [now apply H | now apply Hle].
Qed.

Lemma marked_minimum (pushed : list Scene3D.Step) (step : Scene3D.Step) :
  let minArea := fold_left Math.min (map Scene3D.area pushed) Infinity in
  let steps :=
    map (fun step =>
           Scene3D.mkStep (Scene3D.edge step) (Scene3D.rect step)
             (Scene3D.area step) (Scene3D.strictEq (Scene3D.area step) minArea))
        pushed in
  In step steps ->
  (Scene3D.isMinimum step = true
   <-> forall other, In other steps -> Scene3D.area step <= Scene3D.area other).
Proof.
  cbn zeta. intros Hstep. apply in_map_iff in Hstep as (s0 & <- & Hs0).
  cbn [Scene3D.isMinimum Scene3D.area].
  rewrite strictEq_least by (apply (in_map Scene3D.area); exact Hs0).
  split.
  - intros H other Ho. apply in_map_iff in Ho as (o0 & <- & Ho0).
    cbn [Scene3D.area]. apply H. apply (in_map Scene3D.area). exact Ho0.
  - intros H w Hw. apply in_map_iff in Hw as (o0 & <- & Ho0).
    apply (H (Scene3D.mkStep (Scene3D.edge o0) (Scene3D.rect o0) (Scene3D.area o0)
                (Scene3D.strictEq (Scene3D.area o0)
                   (fold_left Math.min (map Scene3D.area pushed) Infinity)))).
    apply in_map_iff. exists o0. split; [reflexivity | exact Ho0].
Qed.

(** X17.  [startCalipersVisualization] records one step per edge of the
    hull of the raw XZ projections.  The step of edge [i] holds the two
    end points of the edge and the rectangle and the area that the loop
    body of the kernel computes for the direction of that edge; and a step
    is flagged [isMinimum] exactly when no step has a smaller area. *)
Theorem startCalipersVisualization_steps (points : list R) :
  let hull := grahamScan (Scene3D.points2D points) in
  let steps := fst (Scene3D.startCalipersVisualization points) in
  length steps = length hull
  /\ (forall i step, nth_error steps i = Some step ->
        Scene3D.rect step = snd (candidate hull (edgeDirection hull i))
        /\ Scene3D.area step = fst (candidate hull (edgeDirection hull i))
        /\ Scene3D.edge step
           = (nth i hull Vector2.zero,
              nth (S i mod length hull) hull Vector2.zero))
  /\ (forall step, In step steps ->
        (Scene3D.isMinimum step = true
         <-> forall other, In other steps ->
               Scene3D.area step <= Scene3D.area other)).
Proof.
  cbn zeta. unfold Scene3D.startCalipersVisualization. cbn [fst].
  set (hull := grahamScan (Scene3D.points2D points)).
  set (pushed := map (fun i => Scene3D.stepAt hull i false) (seq 0 (length hull))).
  split; [|split].
  - unfold pushed. now rewrite !length_map, length_seq.
  - intros i step Hi. unfold pushed in Hi. rewrite map_map in Hi.
    rewrite nth_error_map in Hi.
    destruct (nth_error (seq 0 (length hull)) i) as [k|] eqn:Hk; [|discriminate].
    injection Hi as <-.
    assert (Hik : k = i).
    { assert (Hlt : (i < length (seq 0 (length hull)))%nat)
        by (apply nth_error_Some; congruence).
      rewrite length_seq in Hlt.
      rewrite (nth_error_nth' _ 0%nat) in Hk by (rewrite length_seq; exact Hlt).
      rewrite seq_nth in Hk by exact Hlt. injection Hk as <-. reflexivity. }
    subst k. cbn [Scene3D.rect Scene3D.area Scene3D.edge].
    exact (stepAt_candidate hull i false).
  - intros step Hstep. exact (marked_minimum pushed step Hstep).
Qed.

(** ** The least area of the inspector and the rectangle of the kernel *)

Lemma steps_nth (hull : list Vector2.t) (m : number) (i : nat) :
  (i < length hull)%nat ->
  nth_error
    (map (fun step =>
            Scene3D.mkStep (Scene3D.edge step) (Scene3D.rect step)
              (Scene3D.area step) (Scene3D.strictEq (Scene3D.area step) m))
         (map (fun i => Scene3D.stepAt hull i false) (seq 0 (length hull)))) i
  = Some (Scene3D.stepAt hull i (Scene3D.strictEq
                                   (Scene3D.area (Scene3D.stepAt hull i false)) m)).
Proof.
  intros Hi. rewrite !nth_error_map.
  rewrite (nth_error_nth' _ 0%nat) by (rewrite length_seq; exact Hi).
  rewrite seq_nth by exact Hi. reflexivity.
Qed.

Lemma points2D_centredTriangle3 :
  Scene3D.points2D (flat centredTriangle3) = centredTriangle.
Proof. reflexivity. Qed.

Lemma hull_centredTriangle3 :
  (3 <= length (grahamScan (Scene3D.points2D (flat centredTriangle3))))%nat.
Proof.
  rewrite points2D_centredTriangle3.
  apply grahamScan_convex;
    [simpl; lia | apply centredTriangle_NoDup | apply centredTriangle_nonCollinear
     | apply centredTriangle_separated].
Qed.

(** X18.  When the hull has three or more vertices, some step of the
    inspector is flagged [isMinimum], and its area is at most the area of
    the rectangle that [enhancedRotatingCalipers] returns for the same
    hull: the kernel, which skips directions it considers duplicates, never
    finds a smaller rectangle than the inspector, which tries every
    edge. *)
Theorem inspector_minimum_bounds_kernel_area (points : list R) :
  let hull := grahamScan (Scene3D.points2D points) in
  let steps := fst (Scene3D.startCalipersVisualization points) in
  let result := enhancedRotatingCalipers hull in
  (3 <= length hull)%nat ->
  exists step,
    In step steps
    /\ Scene3D.isMinimum step = true
    /\ Scene3D.area step <= width result * height result.
Proof.
  cbn zeta. intros Hlen.
  set (hull := grahamScan (Scene3D.points2D points)) in *.
  destruct (enhancedRotatingCalipers_first_minimum hull Hlen)
    as (pre & d & post & Hd & -> & _).
  destruct (getUniqueEdgeDirections_spec hull) as (Hfrom & _).
  destruct (Hfrom d) as (i & Hi & ->).
  { rewrite Hd. apply in_or_app. right. now left. }
  rewrite <- candidate_area.
  unfold Scene3D.startCalipersVisualization. cbn [fst]. fold hull.
  set (pushed := map (fun i => Scene3D.stepAt hull i false) (seq 0 (length hull))).
  set (minArea := fold_left Math.min (map Scene3D.area pushed) Infinity).
  set (steps := map _ pushed).
  assert (Hpushed : pushed <> []).
  { unfold pushed. destruct (length hull); [lia | discriminate]. }
  destruct pushed as [|s0 rest] eqn:Ep; [congruence|].
  assert (Hm : minArea = Num (fold_left Rmin (map Scene3D.area rest) (Scene3D.area s0))).
  { unfold minArea. cbn [map]. apply fold_min_finite. }
  destruct (fold_Rmin_least (map Scene3D.area rest) (Scene3D.area s0)) as (Hle & Hin).
  change (Scene3D.area s0 :: map Scene3D.area rest)
    with (map Scene3D.area (s0 :: rest)) in Hle, Hin.
  apply in_map_iff in Hin as (smin & Emin & Hsmin).
  exists (Scene3D.mkStep (Scene3D.edge smin) (Scene3D.rect smin) (Scene3D.area smin)
            (Scene3D.strictEq (Scene3D.area smin) minArea)).
  split; [|split].
  - unfold steps. apply in_map_iff. exists smin. split; [reflexivity | exact Hsmin].
  - cbn [Scene3D.isMinimum]. rewrite Hm. cbn [Scene3D.strictEq].
    destruct (Req_dec_T _ _); [reflexivity | congruence].
  - cbn [Scene3D.area]. rewrite Emin.
    destruct (stepAt_candidate hull i false) as (_ & <- & _).
    apply Hle. apply (in_map Scene3D.area). rewrite <- Ep. unfold pushed.
    apply in_map_iff. exists i. split; [reflexivity|]. apply in_seq. lia.
Qed.

Lemma inspector_minimum_bounds_kernel_area_witness :
  (3 <= length (grahamScan (Scene3D.points2D (flat centredTriangle3))))%nat
  /\ exists step,
       In step (fst (Scene3D.startCalipersVisualization (flat centredTriangle3)))
       /\ Scene3D.isMinimum step = true.
Proof.
  split; [exact hull_centredTriangle3|].
  destruct (inspector_minimum_bounds_kernel_area (flat centredTriangle3)
              hull_centredTriangle3) as (step & Hin & Hmin & _).
  exists step. split; [exact Hin | exact Hmin].
Defined.

(** ** Every rectangle of the inspector encloses the hull *)

Lemma NoDup_properEdges (hull : list Vector2.t) :
  NoDup hull -> (2 <= length hull)%nat -> properEdges hull.
Proof.
  intros Hnd Hlen i Hi E.
  assert (Hm : (S i mod length hull < length hull)%nat)
    by (apply Nat.mod_upper_bound; lia).
  apply (proj1 (NoDup_nth hull Vector2.zero) Hnd i _ Hi Hm) in E.
  destruct (Nat.eq_dec (S i) (length hull)) as [Hlast|Hnot].
  - rewrite Hlast, Nat.Div0.mod_same in E. lia.
  - rewrite Nat.mod_small in E by lia. lia.
Qed.

(** X19.  When the raw XZ projections are pairwise distinct and the hull
    has two or more vertices, the rectangle of every step of the inspector
    encloses the hull and touches it on all four sides. *)
Theorem startCalipersVisualization_rectangles_enclose_hull
    (points : list R) (step : Scene3D.Step) :
  let hull := grahamScan (Scene3D.points2D points) in
  NoDup (Scene3D.points2D points) ->
  (2 <= length hull)%nat ->
  In step (fst (Scene3D.startCalipersVisualization points)) ->
  (forall h, In h hull ->
     Rabs (along (Scene3D.rect step) h) <= width (Scene3D.rect step) / 2
     /\ Rabs (across (Scene3D.rect step) h) <= height (Scene3D.rect step) / 2)
  /\ (exists h, In h hull
        /\ along (Scene3D.rect step) h = - (width (Scene3D.rect step) / 2))
  /\ (exists h, In h hull
        /\ along (Scene3D.rect step) h = width (Scene3D.rect step) / 2)
  /\ (exists h, In h hull
        /\ across (Scene3D.rect step) h = - (height (Scene3D.rect step) / 2))
  /\ (exists h, In h hull
        /\ across (Scene3D.rect step) h = height (Scene3D.rect step) / 2).
Proof.
  cbn zeta. intros Hnd Hlen Hstep.
  set (hull := grahamScan (Scene3D.points2D points)) in *.
  assert (Hhull : NoDup hull).
  { destruct (grahamScan_drops (Scene3D.points2D points)) as (dropped & Hp).
    apply (Permutation_NoDup (Permutation_sym Hp)) in Hnd.
    now apply NoDup_app_remove_r in Hnd. }
  pose proof (NoDup_properEdges hull Hhull Hlen) as Hproper.
  unfold Scene3D.startCalipersVisualization in Hstep. cbn [fst] in Hstep.
  fold hull in Hstep.
  apply in_map_iff in Hstep as (s0 & <- & Hs0).
  apply in_map_iff in Hs0 as (i & <- & Hi). apply in_seq in Hi.
  cbn [Scene3D.rect].
  destruct (stepAt_candidate hull i false) as (-> & _).
  apply candidate_tight.
  - intros E. rewrite E in Hlen. simpl in Hlen. lia.
  - apply proper_edge_unit; [exact Hproper | lia].
Qed.

Lemma startCalipersVisualization_rectangles_enclose_hull_witness :
  NoDup (Scene3D.points2D (flat centredTriangle3))
  /\ (2 <= length (grahamScan (Scene3D.points2D (flat centredTriangle3))))%nat
  /\ exists step,
       In step (fst (Scene3D.startCalipersVisualization (flat centredTriangle3)))
       /\ exists h, In h (grahamScan (Scene3D.points2D (flat centredTriangle3)))
            /\ along (Scene3D.rect step) h = width (Scene3D.rect step) / 2.
Proof.
  assert (Hnd : NoDup (Scene3D.points2D (flat centredTriangle3)))
    by (rewrite points2D_centredTriangle3; apply centredTriangle_NoDup).
  pose proof hull_centredTriangle3 as H3.
  assert (H2 : (2 <= length (grahamScan (Scene3D.points2D (flat centredTriangle3))))%nat)
    by lia.
  split; [exact Hnd|]. split; [exact H2|].
  set (points := flat centredTriangle3) in *.
  set (hull := grahamScan (Scene3D.points2D points)) in *.
  assert (Hin : In (Scene3D.stepAt hull 0
                      (Scene3D.strictEq
                         (Scene3D.area (Scene3D.stepAt hull 0 false))
                         (fold_left Math.min
                            (map Scene3D.area
                               (map (fun i => Scene3D.stepAt hull i false)
                                    (seq 0 (length hull))))
                            Infinity)))
                   (fst (Scene3D.startCalipersVisualization points))).
  { apply (nth_error_In _ 0). apply steps_nth. lia. }
  eexists. split; [exact Hin|].
  exact (proj1 (proj2 (proj2
    (startCalipersVisualization_rectangles_enclose_hull
       points _ Hnd H2 Hin)))).
Defined.

(** ** The rectangle on display *)

(** X20.  The four vertices [showRectangle] draws lie in the plane y = 0
    and are the corners of the rectangle of the step: measured from its
    centre along its angle and across it, they are at (-w/2, h/2),
    (w/2, h/2), (w/2, -h/2) and (-w/2, -h/2), in this order; and every
    entry of the index array addresses one of the four. *)
Theorem showRectangle_corners (rect : Rect) :
  map (fun v => (along rect (plan v), Vector3.y v, across rect (plan v)))
      (fst (Scene3D.showRectangle rect))
  = [ (- (width rect / 2), 0, height rect / 2);
      (width rect / 2, 0, height rect / 2);
      (width rect / 2, 0, - (height rect / 2));
      (- (width rect / 2), 0, - (height rect / 2)) ]
  /\ forall i, In i (snd (Scene3D.showRectangle rect)) ->
       (i < length (fst (Scene3D.showRectangle rect)))%nat.
Proof.
  split.
  - unfold Scene3D.showRectangle, along, across, plan.
    cbn [fst map Vector3.x Vector3.y Vector3.z Vector2.x Vector2.y].
    pose proof (sin2_cos2 (angle rect)) as H. unfold Rsqr in H.
    set (s := sin (angle rect)) in *. set (c := cos (angle rect)) in *.
    set (hw := width rect / 2). set (hh := height rect / 2).
    set (cx := Vector2.x (rcenter rect)). set (cy := Vector2.y (rcenter rect)).
    assert (Hw : hw * (s * s + c * c) = hw) by (rewrite H; ring).
    assert (Hh : hh * (s * s + c * c) = hh) by (rewrite H; ring).
    repeat (f_equal; try reflexivity); nra.
  - intros i Hi. simpl in Hi |- *. lia.
Qed.

(** ** The triangle fan of updateHull *)






(** ** Removing the last point *)

Lemma removeRandomPoint_flat (ts : list Vector3.t) :
  Scene3D.removeRandomPoint (flat ts) = flat (removelast ts).
Proof.
  destruct ts as [|t0 ts0]; [reflexivity|].
  destruct (@exists_last _ (t0 :: ts0)) as (ts' & t & ->); [discriminate|].
  rewrite removelast_last. unfold flat. rewrite flat_map_app. cbn [flat_map app].
  unfold Scene3D.removeRandomPoint.
  rewrite length_app. cbn [length].
  set (l := flat_map _ ts').
  destruct (Nat.ltb_spec (length l + 3) 3); [lia|].
  replace (length l + 3 - 3)%nat with (length l + 0)%nat by lia.
  rewrite firstn_app_2. simpl. apply app_nil_r.
Qed.

Lemma removeRandomPoint_incl (points : list R) (v : R) :
  In v (Scene3D.removeRandomPoint points) -> In v points.
Proof.
  unfold Scene3D.removeRandomPoint.
  destruct (length points <? 3)%nat; [auto|].
  intros H. rewrite <- (firstn_skipn (length points - 3) points).
  apply in_or_app. now left.
Qed.

(** X22.  [removeRandomPoint] undoes a [push(x, y, z)]; on an array of
    whole triples it removes the last triple and nothing else; and it
    leaves an array of fewer than three numbers as it is. *)
Theorem removeRandomPoint_drops_last_triple :
  (forall (points : list R) (x y z : R),
     Scene3D.removeRandomPoint (points ++ [x; y; z]) = points)
  /\ (forall ts : list Vector3.t,
        Scene3D.removeRandomPoint (flat ts) = flat (removelast ts))
  /\ (forall points : list R,
        (length points < 3)%nat -> Scene3D.removeRandomPoint points = points).
Proof.
  assert (H1 : forall (points : list R) (x y z : R),
            Scene3D.removeRandomPoint (points ++ [x; y; z]) = points).
  { intros points x y z. unfold Scene3D.removeRandomPoint.
    rewrite length_app. cbn [length].
    destruct (Nat.ltb_spec (length points + 3) 3); [lia|].
    replace (length points + 3 - 3)%nat with (length points + 0)%nat by lia.
    rewrite firstn_app_2. simpl. apply app_nil_r. }
  split; [exact H1|]. split.
  - intros ts. destruct ts as [|t0 ts0]; [reflexivity|].
    destruct (@exists_last _ (t0 :: ts0)) as (ts' & t & ->); [discriminate|].
    rewrite removelast_last. unfold flat. rewrite flat_map_app. cbn [flat_map app].
    apply H1.
  - intros points Hlt. unfold Scene3D.removeRandomPoint.
    destruct (Nat.ltb_spec (length points) 3); [reflexivity | lia].
Qed.

(** ** The index of the step on display *)

(** X23.  An index that is -1 or 0 or addresses a step stays so under
    [nextCalipersStep] and [prevCalipersStep]; with such an index
    [updateDebugLines] never destructures [undefined], and for an index of
    at least 0 and a non-empty list it shows a step. *)
Theorem stepIndex_stays_in_range (calipersSteps : list Scene3D.Step)
    (currentStepIndex : Z) :
  stepIndexOk calipersSteps currentStepIndex ->
  stepIndexOk calipersSteps
    (Scene3D.nextCalipersStep calipersSteps currentStepIndex)
  /\ stepIndexOk calipersSteps (Scene3D.prevCalipersStep currentStepIndex)
  /\ Scene3D.updateDebugLines calipersSteps currentStepIndex
     <> Scene3D.typeError
  /\ ((0 <= currentStepIndex)%Z -> calipersSteps <> [] ->
      exists step,
        Scene3D.updateDebugLines calipersSteps currentStepIndex
        = Scene3D.shown step).
Proof.
  unfold stepIndexOk, Scene3D.nextCalipersStep, Scene3D.prevCalipersStep,
    Scene3D.updateDebugLines.
  intros (Hlo & Hhi).
  assert (Hread : (0 <= currentStepIndex)%Z -> calipersSteps <> [] ->
            exists step, nth_error calipersSteps (Z.to_nat currentStepIndex)
                         = Some step).
  { intros H0 Hne.
    destruct (nth_error calipersSteps (Z.to_nat currentStepIndex)) eqn:E; [eauto|].
    apply nth_error_None in E. exfalso.
    destruct calipersSteps; [congruence|]. simpl in *. lia. }
  split; [|split; [|split]].
  - destruct (Z.ltb_spec currentStepIndex (Z.of_nat (length calipersSteps) - 1)); lia.
  - destruct (Z.ltb_spec 0 currentStepIndex); lia.
  - destruct (Z.ltb_spec currentStepIndex 0); cbn [orb]; [discriminate|].
    destruct (Nat.eqb_spec (length calipersSteps) 0); [discriminate|].
    destruct Hread as (step & ->); [assumption | | discriminate].
    intros ->. simpl in *. lia.
  - intros H0 Hne.
    destruct (Z.ltb_spec currentStepIndex 0); [lia|]. cbn [orb].
    destruct (Nat.eqb_spec (length calipersSteps) 0) as [E|_].
    + destruct calipersSteps; [congruence | discriminate].
    + destruct (Hread H0 Hne) as (step & ->). eauto.
Qed.

Lemma stepIndex_stays_in_range_witness :
  stepIndexOk [] 0
  /\ stepIndexOk [] (Scene3D.nextCalipersStep [] 0).
Proof.
  assert (H : stepIndexOk [] 0) by (unfold stepIndexOk; simpl; lia).
  split; [exact H|].
  exact (proj1 (stepIndex_stays_in_range [] 0 H)).
Defined.

(** ** The point array of the first scene *)

(** X24.  Every array the first scene can hold (empty at construction,
    then changed by [addRandomPoint] and [removeRandomPoint] only)
    consists of whole triples, so that its length is three times the
    number of its points, and all its coordinates are in [-5, 5). *)
Theorem scene_points_are_whole_triples (points : list R) :
  Scene.reachablePoints points ->
  flat (triples points) = points
  /\ length points = (3 * length (triples points))%nat
  /\ forall v, In v points -> -5 <= v < 5.
Proof.
  intros Hr.
  assert (H : flat (triples points) = points /\ forall v, In v points -> -5 <= v < 5).
  { induction Hr as [|points r1 r2 r3 _ (IH & Hb) H1 H2 H3|points _ (IH & Hb)].
    - split; [reflexivity | intros v []].
    - split.
      + unfold Scene.addRandomPoint. rewrite <- IH at 1 2.
        change [r1 * 10 - 5; r2 * 10 - 5; r3 * 10 - 5]
          with (flat [Vector3.mk (r1 * 10 - 5) (r2 * 10 - 5) (r3 * 10 - 5)]).
        set (t := Vector3.mk (r1 * 10 - 5) (r2 * 10 - 5) (r3 * 10 - 5)).
        unfold flat at 1 2 4 5. rewrite <- !flat_map_app.
        fold (flat (triples points ++ [t])). now rewrite triples_flat.
      + intros v Hv. unfold Scene.addRandomPoint in Hv.
        apply in_app_or in Hv as [Hv|Hv]; [now apply Hb|].
        simpl in Hv. destruct Hv as [<-|[<-|[<-|[]]]]; lra.
    - split.
      + unfold Scene.removeRandomPoint. rewrite <- IH at 1 2.
        now rewrite removeRandomPoint_flat, triples_flat.
      + intros v Hv. apply Hb. now apply removeRandomPoint_incl. }
  destruct H as (Hflat & Hb). split; [exact Hflat|]. split; [|exact Hb].
  rewrite <- Hflat at 1. apply length_flat.
Qed.

Lemma scene_points_are_whole_triples_witness :
  Scene.reachablePoints (Scene.addRandomPoint [] 0 0 0)
  /\ length (Scene.addRandomPoint [] 0 0 0)
     = (3 * length (triples (Scene.addRandomPoint [] 0 0 0)))%nat.
Proof.
  assert (Hr : Scene.reachablePoints (Scene.addRandomPoint [] 0 0 0)).
  { apply Scene.reachable_add; [apply Scene.reachable_empty | lra | lra | lra]. }
  split; [exact Hr|].
  exact (proj1 (proj2 (scene_points_are_whole_triples _ Hr))).
Defined.

(** ** The first batch of points always gets a box *)

Lemma addRandomPoint_first (random : nat -> R) :
  Scene3D.addRandomPoint [] random = flat (map (batchPoint random) (seq 0 15)).
Proof. reflexivity. Qed.

Lemma batch_along (random : nat -> R) (i : nat) :
  Vector3.x (batchPoint random i) * cos (PI / 6)
  + Vector3.z (batchPoint random i) * sin (PI / 6)
  = 8 * (INR i / (INR 15 - 1) * 2 - 1).
Proof.
  unfold batchPoint. cbn [Vector3.x Vector3.z].
  rewrite cos_plus, sin_plus, cos_PI2, sin_PI2.
  pose proof (sin2_cos2 (PI / 6)) as H. unfold Rsqr in H.
  set (s := sin (PI / 6)) in *. set (c := cos (PI / 6)) in *.
  set (t := INR i / (INR 15 - 1) * 2 - 1).
  set (o := (random (2 * i)%nat - 1 / 2) * 2).
  transitivity (8 * t * (s * s + c * c)); [ring | rewrite H; ring].
Qed.

Lemma batch_keys_distinct (random : nat -> R) (cx cz : R) (i j : nat) :
  (i < j)%nat ->
  keyOf cx cz (batchPoint random i) <> keyOf cx cz (batchPoint random j).
Proof.
  intros Hij E. apply same_key_close in E as (Hx & Hz).
  pose proof (batch_along random i) as Hi.
  pose proof (batch_along random j) as Hj.
  pose proof (COS_bound (PI / 6)) as Hc. pose proof (SIN_bound (PI / 6)) as Hs.
  assert (Hn : INR i + 1 <= INR j).
  { rewrite <- S_INR. apply le_INR. lia. }
  assert (E15 : INR 15 - 1 = 14) by (simpl; lra).
  rewrite E15 in Hi, Hj.
  apply Rabs_def2 in Hx. apply Rabs_def2 in Hz.
  assert (He : epsilon < 1 / 4).
  { unfold epsilon. apply Rmult_lt_reg_r with (10 ^ 6); [apply pow_lt; lra|].
    unfold Rdiv. rewrite Rmult_assoc, Rinv_l by (apply pow_nonzero; lra). lra. }
  set (dx := Vector3.x (batchPoint random i) - Vector3.x (batchPoint random j)) in *.
  set (dz := Vector3.z (batchPoint random i) - Vector3.z (batchPoint random j)) in *.
  assert (Hd : dx * cos (PI / 6) + dz * sin (PI / 6)
               = 8 * (INR i / 14 * 2 - 1) - 8 * (INR j / 14 * 2 - 1)).
  { rewrite <- Hi, <- Hj. unfold dx, dz. ring. }
  assert (H1 : -(1/4) <= dx * cos (PI / 6) <= 1/4) by nra.
  assert (H2 : -(1/4) <= dz * sin (PI / 6) <= 1/4) by nra.
  lra.
Qed.

Lemma NoDup_map_on {A B : Type} (g : A -> B) (l : list A) :
  NoDup l ->
  (forall a b, In a l -> In b l -> g a = g b -> a = b) ->
  NoDup (map g l).
Proof.
  induction 1 as [|a l Hnot Hnd IH]; intros Hinj; [constructor|].
  cbn [map]. constructor.
  - intros Hin. apply in_map_iff in Hin as (b & E & Hb).
    apply Hnot. rewrite <- (Hinj b a); [exact Hb | now right | now left | exact E].
  - apply IH. intros x y Hx Hy. apply Hinj; now right.
Qed.

Lemma keptTriples_all (cx cz : R) (ts : list Vector3.t) (seen : list (Z * Z)) :
  NoDup (map (keyOf cx cz) ts) ->
  (forall p, In p ts -> ~ In (keyOf cx cz p) seen) ->
  keptTriples cx cz seen ts = ts.
Proof.
  revert seen; induction ts as [|p ts IH]; intros seen Hnd Hseen; [reflexivity|].
  cbn [keptTriples]. cbn [map] in Hnd. inversion Hnd as [|? ? Hnot Hnd']; subst.
  destruct (existsb (key_eqb (keyOf cx cz p)) seen) eqn:E.
  - exfalso. apply seen_In in E. apply (Hseen p); [now left | exact E].
  - f_equal. apply IH; [exact Hnd'|].
    intros q Hq [Heq|Hin].
    + apply Hnot. rewrite Heq. now apply in_map.
    + apply (Hseen q); [now right | exact Hin].
Qed.

(** X25.  Whatever [Math.random()] returns, the first call of
    [addRandomPoint] fills the empty array with 45 numbers, and all
    fifteen points get different keys in [fromPoints]: fifteen points are
    stored, and neither early exit of [fromPoints] is taken. *)
Theorem addRandomPoint_first_batch_reaches_success_path (random : nat -> R) :
  let points := Scene3D.addRandomPoint [] random in
  length points = 45%nat
  /\ length (points2D (dedup points)) = 15%nat
  /\ (9 <= length points)%nat
  /\ (3 <= length (points2D (dedup points)))%nat.
Proof.
  cbn zeta. rewrite addRandomPoint_first.
  set (ts := map (batchPoint random) (seq 0 15)).
  assert (Hlen : length (flat ts) = 45%nat) by (rewrite length_flat; reflexivity).
  assert (Hstored : length (points2D (dedup (flat ts))) = 15%nat).
  { rewrite dedup_kept. cbn [points2D]. rewrite length_map, triples_flat.
    rewrite keptTriples_all.
    - unfold ts. now rewrite length_map, length_seq.
    - unfold ts. rewrite map_map. apply NoDup_map_on; [apply seq_NoDup|].
      intros a b _ _ E.
      destruct (Nat.lt_trichotomy a b) as [Hlt|[Heq|Hgt]]; [|exact Heq|].
      + exfalso. exact (batch_keys_distinct random _ _ a b Hlt E).
      + exfalso. exact (batch_keys_distinct random _ _ b a Hgt (eq_sym E)).
    - intros p _ []. }
  rewrite Hlen, Hstored. repeat split; lia.
Qed.

(** ** The line over the current edge *)

(** X26.  The line [updateDebugLines] draws over the edge of the current
    step lies in the plane y = 0, runs through both end points of the edge
    and extends it by 10 at each end; when the two end points coincide it
    shrinks to that point. *)
Theorem currentEdgeLine_extends_edge (step : Scene3D.Step) :
  let p1 := fst (Scene3D.edge step) in
  let p2 := snd (Scene3D.edge step) in
  (p1 = p2 ->
   Scene3D.currentEdgeLine step
   = [Vector3.mk (Vector2.x p1) 0 (Vector2.y p1);
      Vector3.mk (Vector2.x p1) 0 (Vector2.y p1)])
  /\ (p1 <> p2 ->
      exists u L,
        Vector2.x u * Vector2.x u + Vector2.y u * Vector2.y u = 1
        /\ 0 < L /\ L = Vector2.distanceTo p2 p1
        /\ Vector2.x p2 - Vector2.x p1 = L * Vector2.x u
        /\ Vector2.y p2 - Vector2.y p1 = L * Vector2.y u
        /\ Scene3D.currentEdgeLine step
           = [Vector3.mk (Vector2.x p1 - Vector2.x u * 10) 0
                         (Vector2.y p1 - Vector2.y u * 10);
              Vector3.mk (Vector2.x p2 + Vector2.x u * 10) 0
                         (Vector2.y p2 + Vector2.y u * 10)]).
Proof.
  cbn zeta. unfold Scene3D.currentEdgeLine.
  destruct (Scene3D.edge step) as [p1 p2]. cbn [fst snd Vector2.x Vector2.y].
  split.
  - intros <-.
    replace (Vector2.x p1 - Vector2.x p1) with 0 by ring.
    replace (Vector2.y p1 - Vector2.y p1) with 0 by ring.
    rewrite normalize_zero. unfold Vector2.zero. cbn [Vector2.x Vector2.y].
    repeat f_equal; ring.
  - intros Hne.
    set (e := Vector2.mk (Vector2.x p2 - Vector2.x p1) (Vector2.y p2 - Vector2.y p1)).
    assert (He : e <> Vector2.zero).
    { unfold e. intros E. injection E as E1 E2. apply Hne.
      destruct p1 as [a1 a2], p2 as [b1 b2]. cbn [Vector2.x Vector2.y] in *.
      f_equal; lra. }
    exists (Vector2.normalize e), (Vector2.distanceTo p2 p1).
    split; [now apply normalize_unit|].
    assert (Hpos : 0 < (Vector2.x p2 - Vector2.x p1) * (Vector2.x p2 - Vector2.x p1)
                       + (Vector2.y p2 - Vector2.y p1) * (Vector2.y p2 - Vector2.y p1)).
    { destruct (Req_dec (Vector2.x p2 - Vector2.x p1) 0) as [E1|N1];
      destruct (Req_dec (Vector2.y p2 - Vector2.y p1) 0) as [E2|N2]; try nra.
      exfalso. apply He. unfold e, Vector2.zero. now rewrite E1, E2. }
    assert (HL : 0 < Vector2.distanceTo p2 p1).
    { unfold Vector2.distanceTo. now apply sqrt_lt_R0. }
    split; [exact HL|]. split; [reflexivity|].
    assert (En : Vector2.normalize e
                 = Vector2.mk ((Vector2.x p2 - Vector2.x p1) / Vector2.distanceTo p2 p1)
                              ((Vector2.y p2 - Vector2.y p1) / Vector2.distanceTo p2 p1)).
    { unfold Vector2.normalize, Vector2.divideScalar, Vector2.length, e.
      cbn [Vector2.x Vector2.y]. fold (Vector2.distanceTo p2 p1).
      destruct (Req_dec_T (Vector2.distanceTo p2 p1) 0); [lra | reflexivity]. }
    rewrite En. cbn [Vector2.x Vector2.y].
    split; [field; lra|]. split; [field; lra | reflexivity].
Qed.

(** ** A single point *)

Lemma atan2_origin : Math.atan2 0 0 = 0.
Proof.
  unfold Math.atan2.
  destruct (Rlt_dec 0 0); [lra|]. destruct (Rlt_dec 0 0); [lra|].
  destruct (Rlt_dec 0 0); [lra|]. reflexivity.
Qed.

Lemma stepAt_single (p : Vector2.t) (flag : bool) :
  Scene3D.stepAt [p] 0 flag = Scene3D.mkStep (p, p) zeroRect 0 flag.
Proof.
  unfold Scene3D.stepAt. change (1 mod length [p])%nat with 0%nat. cbn [nth].
  replace (Vector2.x p - Vector2.x p) with 0 by ring.
  replace (Vector2.y p - Vector2.y p) with 0 by ring.
  rewrite normalize_zero. unfold Vector2.zero.
  cbn [fold_left Scene3D.supportStep Scene3D.minProj1 Scene3D.maxProj1
       Scene3D.minProj2 Scene3D.maxProj2 Math.min Math.max toR
       Vector2.x Vector2.y].
  rewrite atan2_origin. unfold zeroRect, Vector2.zero, Vector2.dot.
  cbn [Vector2.x Vector2.y].
  f_equal; [f_equal; [f_equal|..]|]; field.
Qed.

(** X27.  For an array of exactly one point [startCalipersVisualization]
    records a single step: its edge joins the point to itself, its
    rectangle is the zero rectangle at the origin, wherever the point is,
    and it is flagged as the minimum. *)
Theorem startCalipersVisualization_single_point (x y z : R) :
  fst (Scene3D.startCalipersVisualization [x; y; z])
  = [Scene3D.mkStep (Vector2.mk x z, Vector2.mk x z) zeroRect 0 true].
Proof.
  unfold Scene3D.startCalipersVisualization, Scene3D.points2D.
  cbn [fst triples map Vector3.x Vector3.z].
  change (grahamScan [Vector2.mk x z]) with [Vector2.mk x z].
  cbn [length seq map]. rewrite stepAt_single.
  cbn [Scene3D.edge Scene3D.rect Scene3D.area fold_left Math.min Scene3D.strictEq].
  destruct (Req_dec_T 0 0); [reflexivity | congruence].
Qed.
